(** * macho_edit: a shallow embedding of [macho.cpp]

    The editor keeps one open file and an in-memory description of it
    (class [MachO]).  The file is modelled as the list of its bytes, 32-bit
    unsigned variables as [Z] reduced modulo 2^32 at every assignment, and a
    method as a function from the object's state to its new state.  A method
    that would abort ([assert]) has no result ([None]).  Neither has one
    that indexes a vector out of range: there the behaviour of the code is
    undefined, and the model describes none. *)

From Stdlib Require Import ZArith Lia.
From Stdlib.Strings Require Import Byte.
From stdpp Require Import base option list.

Local Open Scope Z_scope.

(** ** Machine integers *)

Definition UINT32_MAX : Z := 4294967295.

(** Assignment to a [uint32_t] / [uint64_t] variable. *)
Definition u32 (z : Z) : Z := z mod 2 ^ 32.
Definition u64 (z : Z) : Z := z mod 2 ^ 64.

#[global] Instance byte_eq_decision : EqDecision byte := Byte.byte_eq_dec.

Definition byte_of_Z (z : Z) : byte :=
  default x00 (Byte.of_N (Z.to_N (z mod 256))).

Definition Z_of_byte (b : byte) : Z := Z.of_N (Byte.to_N b).

(** The [n] bytes of [v] as they lie in memory on the (little-endian) host. *)
Fixpoint to_le (n : nat) (v : Z) : list byte :=
  match n with
  | O => []
  | S n' => byte_of_Z v :: to_le n' (v / 256)
  end.

Fixpoint from_le (bs : list byte) : Z :=
  match bs with
  | [] => 0
  | b :: bs' => Z_of_byte b + 256 * from_le bs'
  end.

Definition bswap32 (v : Z) : Z := from_le (rev (to_le 4 v)).
Definition bswap64 (v : Z) : Z := from_le (rev (to_le 8 v)).

(** ** Constants of the Mach-O format (<mach-o/loader.h>, <mach-o/fat.h>) *)

Definition MH_MAGIC : Z := 0xfeedface.
Definition MH_CIGAM : Z := 0xcefaedfe.
Definition MH_MAGIC_64 : Z := 0xfeedfacf.
Definition MH_CIGAM_64 : Z := 0xcffaedfe.
Definition FAT_MAGIC : Z := 0xcafebabe.
Definition FAT_CIGAM : Z := 0xbebafeca.

Definition LC_SEGMENT : Z := 0x1.
Definition LC_SYMTAB : Z := 0x2.
Definition LC_SEGMENT_64 : Z := 0x19.
Definition LC_CODE_SIGNATURE : Z := 0x1d.

Definition sizeof_fat_header : Z := 8.
Definition sizeof_fat_arch : Z := 20.
Definition sizeof_mach_header : Z := 28.

(** ** Macros of [macros.h] *)

(** Modelled from the spec: the macros [IS_FAT], [IS_MAGIC], [SWAP32],
    [SWAP64] and [ROUND_UP] of [macros.h], which is not among the sources.
    The recognized magics are the four Mach-O magics and the two fat magics;
    a value is byte-reversed iff the magic is one of the swapped forms;
    [ROUND_UP x a] is the smallest multiple of [a] that is at least [x]. *)
Definition IS_FAT (magic : Z) : bool :=
  (magic =? FAT_MAGIC) || (magic =? FAT_CIGAM).

Definition IS_MAGIC (magic : Z) : bool :=
  (magic =? MH_MAGIC) || (magic =? MH_CIGAM) || (magic =? MH_MAGIC_64)
  || (magic =? MH_CIGAM_64) || IS_FAT magic.

Definition needs_swap (magic : Z) : bool :=
  (magic =? MH_CIGAM) || (magic =? MH_CIGAM_64) || (magic =? FAT_CIGAM).

Definition SWAP32 (v magic : Z) : Z :=
  if needs_swap magic then bswap32 (u32 v) else u32 v.

Definition SWAP64 (v magic : Z) : Z :=
  if needs_swap magic then bswap64 (u64 v) else u64 v.

Definition ROUND_UP (x a : Z) : Z := (x + a - 1) / a * a.

(** ** The file *)

Definition File := list byte.

Definition flen (f : File) : Z := Z.of_nat (length f).

(** [ftruncate]: cut, or extend with zero bytes. *)
Definition ftruncate (f : File) (n : Z) : File :=
  take (Z.to_nat n) f ++ replicate (Z.to_nat n - length f) x00.

(** [fseeko] to [off] followed by [fwrite] of [data]: a write past the end
    leaves a hole of zero bytes, a write of no byte changes nothing. *)
Definition write_at (f : File) (off : Z) (data : list byte) : File :=
  match data with
  | [] => f
  | _ =>
      let o := Z.to_nat off in
      take o f ++ replicate (o - length f) x00 ++ data
        ++ drop (o + length data) f
  end.

(** The bytes [off, off + len) of the file (fewer at the end of the file). *)
Definition read_at (f : File) (off len : Z) : list byte :=
  take (Z.to_nat len) (drop (Z.to_nat off) f).

(** Modelled from the spec: the helpers [fmove], [fzero] and [fcpy] of
    [fileutils.h], which is not among the sources: move a range within one
    file with overlap handled, zero-fill a range, copy a range between two
    files.  Argument order as at the call sites: [fmove f dst src len],
    [fzero f offset len], [fcpy dst_f dst src_f src len]. *)
Definition fmove (f : File) (dst src len : Z) : File :=
  write_at f dst (read_at f src len).

Definition fzero (f : File) (off len : Z) : File :=
  write_at f off (replicate (Z.to_nat len) x00).

Definition fcpy (dst_f : File) (dst : Z) (src_f : File) (src len : Z) : File :=
  write_at dst_f dst (read_at src_f src len).

(** ** Data model ([macho.h], from the members the methods use) *)

Record fat_arch := mk_fat_arch {
  fa_cputype : Z;
  fa_cpusubtype : Z;
  fa_offset : Z;
  fa_size : Z;
  fa_align : Z
}.

Record mach_header := mk_mach_header {
  mh_magic : Z;
  mh_cputype : Z;
  mh_cpusubtype : Z;
  mh_filetype : Z;
  mh_ncmds : Z;
  mh_sizeofcmds : Z;
  mh_flags : Z
}.

Record LoadCommand := mk_LoadCommand {
  cmd : Z;
  cmdsize : Z;
  file_offset : Z;
  raw_lc : list byte
}.

Record MachOArch := mk_MachOArch {
  arch_fat_arch : fat_arch;
  arch_mach_header : mach_header;
  load_commands : list LoadCommand
}.

Record MachO := mk_MachO {
  file : File;
  file_size : Z;
  is_fat : bool;
  fat_magic : Z;
  n_archs : Z;
  archs : list MachOArch
}.

Definition set_fa_offset (v : Z) (a : fat_arch) : fat_arch :=
  mk_fat_arch (fa_cputype a) (fa_cpusubtype a) v (fa_size a) (fa_align a).

Definition set_fa_size (v : Z) (a : fat_arch) : fat_arch :=
  mk_fat_arch (fa_cputype a) (fa_cpusubtype a) (fa_offset a) v (fa_align a).

Definition set_counts (n s : Z) (h : mach_header) : mach_header :=
  mk_mach_header (mh_magic h) (mh_cputype h) (mh_cpusubtype h) (mh_filetype h)
    n s (mh_flags h).

Definition set_file_offset (v : Z) (lc : LoadCommand) : LoadCommand :=
  mk_LoadCommand (cmd lc) (cmdsize lc) v (raw_lc lc).

Definition set_raw_lc (r : list byte) (lc : LoadCommand) : LoadCommand :=
  mk_LoadCommand (cmd lc) (cmdsize lc) (file_offset lc) r.

Definition set_arch_fat_arch (fa : fat_arch) (a : MachOArch) : MachOArch :=
  mk_MachOArch fa (arch_mach_header a) (load_commands a).

Definition set_arch_mach_header (h : mach_header) (a : MachOArch) : MachOArch :=
  mk_MachOArch (arch_fat_arch a) h (load_commands a).

Definition set_load_commands (l : list LoadCommand) (a : MachOArch) : MachOArch :=
  mk_MachOArch (arch_fat_arch a) (arch_mach_header a) l.

Definition set_file (f : File) (m : MachO) : MachO :=
  mk_MachO f (file_size m) (is_fat m) (fat_magic m) (n_archs m) (archs m).

Definition set_file_size (n : Z) (m : MachO) : MachO :=
  mk_MachO (file m) n (is_fat m) (fat_magic m) (n_archs m) (archs m).

Definition set_archs (l : list MachOArch) (m : MachO) : MachO :=
  mk_MachO (file m) (file_size m) (is_fat m) (fat_magic m) (n_archs m) l.

(** ** Serialization *)

(** [MachO::swap_arch]: every field through [SWAP32] under the container's
    fat magic. *)
Definition swap_arch (fat_magic : Z) (a : fat_arch) : fat_arch :=
  mk_fat_arch (SWAP32 (fa_cputype a) fat_magic)
    (SWAP32 (fa_cpusubtype a) fat_magic) (SWAP32 (fa_offset a) fat_magic)
    (SWAP32 (fa_size a) fat_magic) (SWAP32 (fa_align a) fat_magic).

Definition bytes_of_fat_arch (a : fat_arch) : list byte :=
  to_le 4 (fa_cputype a) ++ to_le 4 (fa_cpusubtype a) ++ to_le 4 (fa_offset a)
    ++ to_le 4 (fa_size a) ++ to_le 4 (fa_align a).

Definition bytes_of_mach_header (h : mach_header) : list byte :=
  to_le 4 (mh_magic h) ++ to_le 4 (mh_cputype h) ++ to_le 4 (mh_cpusubtype h)
    ++ to_le 4 (mh_filetype h) ++ to_le 4 (mh_ncmds h)
    ++ to_le 4 (mh_sizeofcmds h) ++ to_le 4 (mh_flags h).

(** [MachO::write_fat_header] *)
Definition write_fat_header (m : MachO) : MachO :=
  if negb (is_fat m) then m
  else set_file (write_at (file m) 0
                   (to_le 4 (fat_magic m)
                      ++ to_le 4 (SWAP32 (n_archs m) (fat_magic m)))) m.

(** [MachO::write_fat_archs].  The value is [None] when [archs[0]] or
    [archs.back()] is taken of an empty vector: the behaviour of the code
    is undefined there (the unchecked access reads whatever the vector's
    storage holds), and the model gives no result for it. *)
Definition write_fat_archs (m : MachO) : option MachO :=
  if negb (is_fat m) then
    match archs m with
    | [] => None
    | arch :: _ =>
        let arch_size := fa_size (arch_fat_arch arch) in
        if file_size m =? arch_size then Some m
        else Some (set_file_size arch_size
                     (set_file (ftruncate (file m) arch_size) m))
    end
  else
    let entries :=
      concat (map (fun arch =>
                     bytes_of_fat_arch
                       (swap_arch (fat_magic m) (arch_fat_arch arch)))
                (archs m)) in
    let m1 := set_file (write_at (file m) sizeof_fat_header entries) m in
    if 0 <? n_archs m then
      match last (archs m) with
      | None => None
      | Some arch =>
          let new_size :=
            u32 (fa_offset (arch_fat_arch arch) + fa_size (arch_fat_arch arch)) in
          if new_size =? file_size m1 then Some m1
          else Some (set_file_size new_size
                       (set_file (ftruncate (file m1) new_size) m1))
      end
    else Some m1.

(** [MachO::write_mach_header] *)
Definition write_mach_header (f : File) (arch : MachOArch) : File :=
  write_at f (fa_offset (arch_fat_arch arch))
    (bytes_of_mach_header (arch_mach_header arch)).

(** The bytes one [fwrite(lc.raw_lc, lc.cmdsize, 1, file)] sends out. *)
Definition lc_bytes (lc : LoadCommand) : list byte :=
  take (Z.to_nat (cmdsize lc)) (raw_lc lc).

(** [MachO::write_load_command] *)
Definition write_load_command (f : File) (lc : LoadCommand) : File :=
  write_at f (file_offset lc) (lc_bytes lc).

(** ** Opening a file: the checks of the constructor [MachO::MachO] *)

Inductive open_error :=
  | OpenFailed
  | FileTooLarge
  | UnknownMagic (magic : Z).

(** [PEEK(magic, file)]: the first four bytes, as a host integer. *)
Definition PEEK (f : File) : Z := from_le (take 4 f).

(** The constructor up to the point where the slices are parsed, on the
    size [ftello] reports and the magic [PEEK] reads: the error it throws,
    or the members [file_size], [is_fat], [fat_magic] it sets. *)
Definition open_checks (fsize magic : Z) : open_error + (Z * bool * Z) :=
  if UINT32_MAX <? fsize then inl FileTooLarge
  else if negb (IS_MAGIC magic) then inl (UnknownMagic magic)
  else inr (u32 fsize, IS_FAT magic,
            if IS_FAT magic then magic else FAT_CIGAM).


(** ** Thin and fat *)

(** The [offset] that [make_fat] computes for the slice. *)
Definition header_reserve (fa : fat_arch) : Z :=
  u32 (ROUND_UP sizeof_fat_header (Z.shiftl 1 (fa_align fa))).

(** [MachO::make_fat] *)
Definition make_fat (m : MachO) : option MachO :=
  if is_fat m then None
  else
    match archs m with
    | [] => None
    | arch :: rest =>
        let offset := header_reserve (arch_fat_arch arch) in
        let f1 := ftruncate (file m) (u32 (file_size m + offset)) in
        let f2 := fmove f1 offset 0 (file_size m) in
        let f3 := fzero f2 offset 0 in
        let m1 := mk_MachO f3 (file_size m) (is_fat m) FAT_CIGAM (n_archs m)
                    (archs m) in
        let m2 := write_fat_header m1 in
        let arch' := set_arch_fat_arch
                       (set_fa_offset offset (arch_fat_arch arch)) arch in
        let m3 := set_archs (arch' :: rest) m2 in
        match write_fat_archs m3 with
        | None => None
        | Some m4 =>
            Some (mk_MachO (file m4) (u32 (file_size m4 + offset)) true
                    (fat_magic m4) (n_archs m4) (archs m4))
        end
    end.

(** [MachO::make_thin] *)
Definition make_thin (m : MachO) (arch_index : nat) : option MachO :=
  if negb (is_fat m) then None
  else
    match archs m !! arch_index with
    | None => None
    | Some arch =>
        let size := fa_size (arch_fat_arch arch) in
        let f1 := fmove (file m) 0 (fa_offset (arch_fat_arch arch)) size in
        let f2 := ftruncate f1 size in
        Some (mk_MachO f2 size false (fat_magic m) 1 [arch])
    end.

(** [MachO::save_arch_to_file]: the bytes of the file it creates. *)
Definition save_arch_to_file (m : MachO) (arch_index : nat) : option File :=
  match archs m !! arch_index with
  | None => None
  | Some arch =>
      Some (fcpy [] 0 (file m) (fa_offset (arch_fat_arch arch))
              (fa_size (arch_fat_arch arch)))
  end.

(** [MachO::insert_arch_from_macho]; [macho] is the donor. *)
Definition insert_arch_from_macho (m macho : MachO) (arch_index : nat)
  : option MachO :=
  let n_archs' := u32 (n_archs m + 1) in
  match archs macho !! arch_index with
  | None => None
  | Some arch =>
      let fa := swap_arch (fat_magic m)
                  (swap_arch (fat_magic macho) (arch_fat_arch arch)) in
      let offset := u32 (ROUND_UP (file_size m) (Z.shiftl 1 (fa_align fa))) in
      let fa' := set_fa_offset offset fa in
      let archs' := archs m ++ [set_arch_fat_arch fa' arch] in
      let new_size := u32 (file_size m + offset) in
      let f1 := ftruncate (file m) new_size in
      let f2 := fzero f1 (file_size m) (u32 (offset - file_size m)) in
      let f3 := fcpy f2 offset (file macho) 0 (fa_size fa') in
      let m1 := mk_MachO f3 new_size (is_fat m) (fat_magic m) n_archs' archs' in
      write_fat_archs (write_fat_header m1)
  end.

(** ** Load commands *)

(** The loop of [move_load_command]: each command of the intervening block
    gets the running offset and is written there. *)
Fixpoint slide (f : File) (new_offset : Z) (lcs : list LoadCommand)
  : File * Z * list LoadCommand :=
  match lcs with
  | [] => (f, new_offset, [])
  | lc :: rest =>
      let lc' := set_file_offset new_offset lc in
      let f' := write_at f new_offset (lc_bytes lc') in
      let '(f'', off, rest') := slide f' (new_offset + cmdsize lc') rest in
      (f'', off, lc' :: rest')
  end.

(** The body of [move_load_command] once [lc_index < new_index], on the file
    and the slice's vector of load commands. *)
Definition move_lc_body (f : File) (lcs : list LoadCommand)
    (lc_index new_index : nat) : option (File * list LoadCommand) :=
  match lcs !! lc_index with
  | None => None
  | Some lc_to_move =>
      if decide (new_index < length lcs)%nat then
        let block := take (new_index - lc_index) (drop (S lc_index) lcs) in
        let '(f1, new_offset, block') :=
          slide f (file_offset lc_to_move) block in
        let lc_to_move' := set_file_offset new_offset lc_to_move in
        let f2 := write_at f1 new_offset (lc_bytes lc_to_move') in
        Some (f2, take lc_index lcs ++ block' ++ drop (S new_index) lcs
                    ++ [lc_to_move'])
      else None
  end.

Definition move_lc (f : File) (lcs : list LoadCommand)
    (lc_index new_index : nat) : option (File * list LoadCommand) :=
  if decide (lc_index = new_index) then Some (f, lcs)
  else if decide (new_index < lc_index)%nat
       then move_lc_body f lcs new_index lc_index
       else move_lc_body f lcs lc_index new_index.

(** [MachO::move_load_command] *)
Definition move_load_command (m : MachO) (arch_index lc_index new_index : nat)
  : option MachO :=
  if decide (lc_index = new_index) then Some m
  else
    match archs m !! arch_index with
    | None => None
    | Some arch =>
        match move_lc (file m) (load_commands arch) lc_index new_index with
        | None => None
        | Some (f, lcs) =>
            Some (set_file f
                    (set_archs (<[arch_index := set_load_commands lcs arch]>
                                  (archs m)) m))
        end
    end.

(** [MachO::remove_load_command] after the move: the last command is taken
    out of the header's counts, zeroed in the file and popped. *)
Definition remove_last_load_command (m1 : MachO) (arch_index : nat)
  : option MachO :=
  match archs m1 !! arch_index with
  | None => None
  | Some arch =>
      match last (load_commands arch) with
      | None => None
      | Some lc =>
          let h := arch_mach_header arch in
          let h' := set_counts (u32 (mh_ncmds h - 1))
                      (u32 (mh_sizeofcmds h - cmdsize lc)) h in
          let arch1 := set_arch_mach_header h' arch in
          let f1 := write_mach_header (file m1) arch1 in
          let f2 := fzero f1 (file_offset lc) (cmdsize lc) in
          let arch2 :=
            set_load_commands
              (take (length (load_commands arch) - 1) (load_commands arch))
              arch1 in
          Some (set_file f2
                  (set_archs (<[arch_index := arch2]> (archs m1)) m1))
      end
  end.

(** [MachO::remove_load_command] *)
Definition remove_load_command (m : MachO) (arch_index lc_index : nat)
  : option MachO :=
  match archs m !! arch_index with
  | None => None
  | Some arch =>
      let moved :=
        if decide (1 < length (load_commands arch))%nat
        then move_load_command m arch_index lc_index
               (length (load_commands arch) - 1)
        else Some m in
      match moved with
      | None => None
      | Some m1 => remove_last_load_command m1 arch_index
      end
  end.

(** A field of a load command's payload, read through [SWAP32] / [SWAP64]
    under the slice magic. *)
Definition get32 (raw : list byte) (off : nat) (magic : Z) : Z :=
  SWAP32 (from_le (take 4 (drop off raw))) magic.

Definition get64 (raw : list byte) (off : nat) (magic : Z) : Z :=
  SWAP64 (from_le (take 8 (drop off raw))) magic.

(** Assignment to a field of the payload. *)
Definition splice (raw : list byte) (off : nat) (bs : list byte) : list byte :=
  take off raw ++ bs ++ drop (off + length bs) raw.

(** Modelled from the spec: the constructor
    [LoadCommand(magic, file_offset, raw_lc)] of [macho.h], which is not
    among the sources: [cmd] and [cmdsize] are the first two words of the
    payload under the slice magic, and the record owns [cmdsize] bytes. *)
Definition LoadCommand_of_raw (magic offset : Z) (raw : list byte)
  : LoadCommand :=
  let cs := get32 raw 4 magic in
  mk_LoadCommand (get32 raw 0 magic) cs offset (take (Z.to_nat cs) raw).

(** [MachO::insert_load_command] *)
Definition insert_load_command (m : MachO) (arch_index : nat)
    (raw : list byte) : option MachO :=
  match archs m !! arch_index with
  | None => None
  | Some arch =>
      let offset :=
        match last (load_commands arch) with
        | None =>
            u32 (fa_offset (arch_fat_arch arch) + fa_size (arch_fat_arch arch))
        | Some last_lc => u32 (file_offset last_lc + cmdsize last_lc)
        end in
      let magic := mh_magic (arch_mach_header arch) in
      let cmdsize := get32 raw 4 magic in
      let f1 := write_at (file m) offset (take (Z.to_nat cmdsize) raw) in
      let lcs := load_commands arch ++ [LoadCommand_of_raw magic offset raw] in
      let h := arch_mach_header arch in
      let h' := set_counts (u32 (mh_ncmds h + 1))
                  (u32 (mh_sizeofcmds h + cmdsize)) h in
      let arch' := set_arch_mach_header h' (set_load_commands lcs arch) in
      Some (set_file (write_mach_header f1 arch')
              (set_archs (<[arch_index := arch']> (archs m)) m))
  end.

(** ** Removing the code signature *)

(** [strncmp] on byte strings; past the end of a list the byte read is the
    terminating NUL. *)
Fixpoint strncmp (s1 s2 : list byte) (n : nat) : Z :=
  match n with
  | O => 0
  | S n' =>
      let c1 := Z_of_byte (hd x00 s1) in
      let c2 := Z_of_byte (hd x00 s2) in
      if c1 =? c2 then (if c1 =? 0 then 0 else strncmp (tl s1) (tl s2) n')
      else c1 - c2
  end.

Definition LINKEDIT : list byte :=
  [x5f; x5f; x4c; x49; x4e; x4b; x45; x44; x49; x54].

Definition sizeof_segname : nat := 16.

(** What the scan of [remove_codesignature] remembers: [codesig_lc] with
    [codesig_index], [linkedit_lc] and [symtab_lc], as positions in the
    vector of load commands. *)
Record scan := mk_scan {
  codesig_index : option nat;
  linkedit_index : option nat;
  symtab_index : option nat
}.

Section RemoveCodesignature.

(** The sixteen bytes that [((segment_command * )&lc)->segname] reads.  The
    cast is applied to the record [lc] itself, whose layout [macho.h] fixes;
    the methods below take that view of a record as given. *)
Variable segname : LoadCommand -> list byte.

(** One turn of the [switch] in the scanning loop. *)
Definition scan_step (i : nat) (lc : LoadCommand) (s : scan) : scan :=
  if cmd lc =? LC_CODE_SIGNATURE then
    mk_scan (Some i) (linkedit_index s) (symtab_index s)
  else if (cmd lc =? LC_SEGMENT) || (cmd lc =? LC_SEGMENT_64) then
    if negb (strncmp (segname lc) LINKEDIT sizeof_segname =? 0) then
      mk_scan (codesig_index s) (Some i) (symtab_index s)
    else s
  else if cmd lc =? LC_SYMTAB then
    mk_scan (codesig_index s) (linkedit_index s) (Some i)
  else s.

Fixpoint scan_from (i : nat) (lcs : list LoadCommand) (s : scan) : scan :=
  match lcs with
  | [] => s
  | lc :: rest => scan_from (S i) rest (scan_step i lc s)
  end.

Definition scan_load_commands (lcs : list LoadCommand) : scan :=
  scan_from 0 lcs (mk_scan None None None).

(** The fields of [linkedit_data_command] and [symtab_command] that the
    method reads from a payload. *)
Definition dataoff (magic : Z) (lc : LoadCommand) : Z :=
  get32 (raw_lc lc) 8 magic.
Definition datasize (magic : Z) (lc : LoadCommand) : Z :=
  get32 (raw_lc lc) 12 magic.
Definition stroff (magic : Z) (lc : LoadCommand) : Z :=
  get32 (raw_lc lc) 16 magic.
Definition strsize (magic : Z) (lc : LoadCommand) : Z :=
  get32 (raw_lc lc) 20 magic.

(** [fileoff] and [filesize] of the selected segment, as 64-bit values. *)
Definition linkedit_range (magic : Z) (lc : LoadCommand) : Z * Z :=
  if cmd lc =? LC_SEGMENT then
    (get32 (raw_lc lc) 32 magic, get32 (raw_lc lc) 36 magic)
  else
    (get64 (raw_lc lc) 40 magic, get64 (raw_lc lc) 48 magic).

(** [size_reduction] after the symbol-table adjustment. *)
Definition size_reduction (magic slice_size codesig_size : Z)
    (symtab_lc : option LoadCommand) : Z :=
  match symtab_lc with
  | None => codesig_size
  | Some lc =>
      let diff_size :=
        (slice_size - codesig_size)
        - u32 (stroff magic lc + strsize magic lc) in
      if (0 <=? diff_size) && (diff_size <=? 16)
      then u32 (codesig_size + diff_size)
      else codesig_size
  end.

(** The selected segment command with its new [filesize] and [vmsize]. *)
Definition shrink_linkedit (magic linkedit_size : Z) (lc : LoadCommand)
  : LoadCommand :=
  let linkedit_vmsize := u64 (ROUND_UP linkedit_size 0x1000) in
  if cmd lc =? LC_SEGMENT then
    set_raw_lc
      (splice (splice (raw_lc lc) 36 (to_le 4 (SWAP32 linkedit_size magic)))
         28 (to_le 4 (SWAP32 linkedit_vmsize magic))) lc
  else
    set_raw_lc
      (splice (splice (raw_lc lc) 48 (to_le 8 (SWAP64 linkedit_size magic)))
         32 (to_le 8 (SWAP64 linkedit_vmsize magic))) lc.

(** The updates in place once the checks have passed: the slice's size in
    its fat entry, and [filesize] and [vmsize] in the payload of the
    selected segment command, at index [li] of the vector. *)
Definition shrink_slice (arch : MachOArch) (li : nat)
    (linkedit_lc : LoadCommand) (linkedit_size reduction : Z) : MachOArch :=
  let magic := mh_magic (arch_mach_header arch) in
  let fa := arch_fat_arch arch in
  set_arch_fat_arch (set_fa_size (u32 (fa_size fa - reduction)) fa)
    (set_load_commands
       (<[li := shrink_linkedit magic (u64 (linkedit_size - reduction))
                  linkedit_lc]> (load_commands arch)) arch).

(** The writes that end the method: the fat entries, the selected segment
    command, and the removal of the code-signature command. *)
Definition write_shrunk (m1 : MachO) (arch_index ci : nat)
    (linkedit_lc' : LoadCommand) : option (bool * MachO) :=
  match write_fat_archs m1 with
  | None => None
  | Some m2 =>
      let m3 := set_file (write_load_command (file m2) linkedit_lc') m2 in
      match remove_load_command m3 arch_index ci with
      | None => None
      | Some m4 => Some (true, m4)
      end
  end.

(** [MachO::remove_codesignature]: the value returned and the new state. *)
Definition remove_codesignature (m : MachO) (arch_index : nat)
  : option (bool * MachO) :=
  match archs m !! arch_index with
  | None => None
  | Some arch =>
      let magic := mh_magic (arch_mach_header arch) in
      let lcs := load_commands arch in
      let s := scan_load_commands lcs in
      match codesig_index s, linkedit_index s with
      | Some ci, Some li =>
          match lcs !! ci, lcs !! li with
          | Some codesig_lc, Some linkedit_lc =>
              let slice_size := fa_size (arch_fat_arch arch) in
              let codesig_offset := dataoff magic codesig_lc in
              let codesig_size := datasize magic codesig_lc in
              if negb (u32 (codesig_offset + codesig_size) =? slice_size)
              then Some (false, m)
              else
                let linkedit_offset := (linkedit_range magic linkedit_lc).1 in
                let linkedit_size := (linkedit_range magic linkedit_lc).2 in
                if negb (u64 (linkedit_offset + linkedit_size) =? slice_size)
                then Some (false, m)
                else
                  let reduction :=
                    size_reduction magic slice_size codesig_size
                      (symtab_index s ≫= (lcs !!.)) in
                  let arch' :=
                    shrink_slice arch li linkedit_lc linkedit_size reduction in
                  let m1 := set_archs (<[arch_index := arch']> (archs m)) m in
                  write_shrunk m1 arch_index ci
                    (shrink_linkedit magic (u64 (linkedit_size - reduction))
                       linkedit_lc)
          | _, _ => None
          end
      | _, _ => Some (false, m)
      end
  end.

End RemoveCodesignature.

(** The 16-byte [segname] field of the segment command held in the payload:
    what [c->segname] would read if the cast of the scanning loop were
    applied to [lc.raw_lc].  The source applies it to [&lc], so this is one
    view among others; it is used to name the segments of the concrete
    slices and as an instance of the view. *)
Definition payload_segname (lc : LoadCommand) : list byte :=
  take sizeof_segname (drop 8 (raw_lc lc)).

(** ** Records of <mach-o/loader.h>, for building concrete slices *)

Definition name16 (s : list byte) : list byte :=
  take sizeof_segname (s ++ replicate sizeof_segname x00).

Definition TEXT : list byte := [x5f; x5f; x54; x45; x58; x54].
Definition DATA : list byte := [x5f; x5f; x44; x41; x54; x41].

(** [struct segment_command_64], 72 bytes, in host byte order. *)
Definition segment_command_64 (nm : list byte)
    (vmaddr vmsize fileoff filesize : Z) : list byte :=
  to_le 4 LC_SEGMENT_64 ++ to_le 4 72 ++ name16 nm ++ to_le 8 vmaddr
    ++ to_le 8 vmsize ++ to_le 8 fileoff ++ to_le 8 filesize
    ++ to_le 4 7 ++ to_le 4 1 ++ to_le 4 0 ++ to_le 4 0.

(** [struct linkedit_data_command], 16 bytes. *)
Definition linkedit_data_command (c dataoff datasize : Z) : list byte :=
  to_le 4 c ++ to_le 4 16 ++ to_le 4 dataoff ++ to_le 4 datasize.

(** [struct symtab_command], 24 bytes. *)
Definition symtab_command (symoff nsyms stroff strsize : Z) : list byte :=
  to_le 4 LC_SYMTAB ++ to_le 4 24 ++ to_le 4 symoff ++ to_le 4 nsyms
    ++ to_le 4 stroff ++ to_le 4 strsize.

(** A load command of [sz] bytes whose body is filled with [fill]. *)
Definition raw_command (c sz : Z) (fill : byte) : list byte :=
  to_le 4 c ++ to_le 4 sz ++ replicate (Z.to_nat sz - 8) fill.

(** The records of a table of payloads laid out from [base] on. *)
Fixpoint records_from (magic base : Z) (raws : list (list byte))
  : list LoadCommand :=
  match raws with
  | [] => []
  | r :: rest =>
      let lc := LoadCommand_of_raw magic base r in
      lc :: records_from magic (base + cmdsize lc) rest
  end.

(** ** The load-command table invariant *)

Definition sum_cmdsize (lcs : list LoadCommand) : Z :=
  foldr (fun lc s => cmdsize lc + s) 0 lcs.

(** The i-th record sits at [base] plus the sizes of the records before. *)
Fixpoint lc_offsets_ok (base : Z) (lcs : list LoadCommand) : bool :=
  match lcs with
  | [] => true
  | lc :: rest =>
      (file_offset lc =? base) && lc_offsets_ok (base + cmdsize lc) rest
  end.

(** The record owns [cmdsize] bytes, and they are what the file holds at
    the record's offset. *)
Definition lc_on_disk (f : File) (lc : LoadCommand) : bool :=
  (0 <=? file_offset lc) && (flen (raw_lc lc) =? cmdsize lc)
  && (file_offset lc + cmdsize lc <=? flen f)
  && bool_decide (read_at f (file_offset lc) (cmdsize lc) = raw_lc lc).

(** [hsize] is the size of the slice's Mach-O header. *)
Definition lc_table_ok (hsize : Z) (f : File) (arch : MachOArch) : bool :=
  (sum_cmdsize (load_commands arch) =? mh_sizeofcmds (arch_mach_header arch))
  && (Z.of_nat (length (load_commands arch)) =? mh_ncmds (arch_mach_header arch))
  && lc_offsets_ok (fa_offset (arch_fat_arch arch) + hsize) (load_commands arch)
  && forallb (lc_on_disk f) (load_commands arch).

(** A record without its place in the file. *)
Definition strip (lc : LoadCommand) : Z * Z * list byte :=
  (cmd lc, cmdsize lc, raw_lc lc).

(** ** Concrete containers used below *)

(** A signed 64-bit slice of 8192 bytes as the linker lays it out:
    [__TEXT], then [__LINKEDIT] ending at the end of the slice, then the
    code-signature command for the last 256 bytes. *)
Definition signed_commands : list LoadCommand :=
  records_from MH_MAGIC_64 32
    [segment_command_64 TEXT 0 4096 0 4096;
     segment_command_64 LINKEDIT 4096 4096 4096 4096;
     linkedit_data_command LC_CODE_SIGNATURE 7936 256].

(** A thin 32-bit slice of 160 bytes with three load commands of 24, 56
    and 32 bytes behind its header. *)
Definition three_payloads : list (list byte) :=
  [raw_command 0x1b 24 x41; raw_command 0x1 56 x42; raw_command 0x2a 32 x43].

Definition three_header : mach_header :=
  mk_mach_header MH_MAGIC 7 3 2 3 112 0.

Definition three_arch : MachOArch :=
  mk_MachOArch (mk_fat_arch 7 3 0 160 12) three_header
    (records_from MH_MAGIC 28 three_payloads).

Definition three_commands : MachO :=
  mk_MachO
    (bytes_of_mach_header three_header ++ concat three_payloads
       ++ replicate 20 x00)
    160 false FAT_CIGAM 1 [three_arch].

(** A 64-bit slice of [sz] bytes: header (32 bytes with its reserved word),
    the payloads, zero bytes up to [sz]. *)
Definition slice64_header (payloads : list (list byte)) : mach_header :=
  mk_mach_header MH_MAGIC_64 0x01000007 3 2 (Z.of_nat (length payloads))
    (flen (concat payloads)) 0.

Definition slice64_bytes (sz : Z) (payloads : list (list byte)) : list byte :=
  take (Z.to_nat sz)
    (bytes_of_mach_header (slice64_header payloads) ++ to_le 4 0
       ++ concat payloads ++ replicate (Z.to_nat sz) x00).

Definition slice64_arch (offset sz : Z) (payloads : list (list byte))
  : MachOArch :=
  mk_MachOArch (mk_fat_arch 0x01000007 3 offset sz 12)
    (slice64_header payloads)
    (records_from MH_MAGIC_64 (offset + 32) payloads).

(** A thin signed slice of 8192 bytes that has no [__LINKEDIT] segment: one
    segment [__DATA] covering the whole slice, and a code signature in the
    last 256 bytes. *)
Definition no_linkedit_payloads : list (list byte) :=
  [segment_command_64 DATA 0 8192 0 8192;
   linkedit_data_command LC_CODE_SIGNATURE 7936 256].

Definition no_linkedit : MachO :=
  mk_MachO (slice64_bytes 8192 no_linkedit_payloads) 8192 false FAT_CIGAM 1
    [slice64_arch 0 8192 no_linkedit_payloads].

(** A fat file of 12288 bytes with two slices of 4096 bytes, at 4096 and at
    8192; the first is signed in its last 256 bytes. *)
Definition fat_first_payloads : list (list byte) :=
  [segment_command_64 DATA 0 4096 0 4096;
   linkedit_data_command LC_CODE_SIGNATURE 3840 256].

Definition fat_two_archs : list MachOArch :=
  [slice64_arch 4096 4096 fat_first_payloads; slice64_arch 8192 4096 []].

Definition fat_prefix (archs : list MachOArch) (sz : Z) : list byte :=
  take (Z.to_nat sz)
    (to_le 4 FAT_CIGAM ++ to_le 4 (SWAP32 (Z.of_nat (length archs)) FAT_CIGAM)
       ++ concat (map (fun a => bytes_of_fat_arch
                                  (swap_arch FAT_CIGAM (arch_fat_arch a)))
                    archs)
       ++ replicate (Z.to_nat sz) x00).

Definition fat_two : MachO :=
  mk_MachO
    (fat_prefix fat_two_archs 4096 ++ slice64_bytes 4096 fat_first_payloads
       ++ slice64_bytes 4096 [])
    12288 true FAT_CIGAM 2 fat_two_archs.

(** Two fat files of 92 bytes, each with one slice of 28 bytes (a bare
    32-bit header) at offset 64, aligned to 2^6. *)
Definition tiny_arch (cpu : Z) : MachOArch :=
  mk_MachOArch (mk_fat_arch cpu 3 64 28 6)
    (mk_mach_header MH_MAGIC cpu 3 2 0 0 0) [].

Definition tiny_fat (cpu : Z) : MachO :=
  mk_MachO
    (fat_prefix [tiny_arch cpu] 64
       ++ bytes_of_mach_header (arch_mach_header (tiny_arch cpu)))
    92 true FAT_CIGAM 1 [tiny_arch cpu].

(** A thin 64-bit file of 64 bytes: the header and zero bytes. *)
Definition thin_small : MachO :=
  mk_MachO (slice64_bytes 64 []) 64 false FAT_CIGAM 1 [slice64_arch 0 64 []].

(** The two calls of the round trip on a load command. *)
Definition move_there_and_back (m : MachO) (arch_index i j : nat)
  : option MachO :=
  match move_load_command m arch_index i j with
  | None => None
  | Some m1 => move_load_command m1 arch_index j i
  end.

(** What the examples observe of a container: the length of the file, and
    for each slice its size, its header's counts and the offsets of its load
    commands. *)
Definition shape (m : MachO) : Z * list (Z * Z * Z * list Z) :=
  (flen (file m),
   map (fun a => (fa_size (arch_fat_arch a), mh_ncmds (arch_mach_header a),
                  mh_sizeofcmds (arch_mach_header a),
                  map file_offset (load_commands a))) (archs m)).




(** A thin signed slice of 8192 bytes whose string table ends 8 bytes
    before the signature. *)
Definition padded_signed_payloads : list (list byte) :=
  [segment_command_64 DATA 0 8192 0 8192;
   symtab_command 4096 10 5000 2928;
   linkedit_data_command LC_CODE_SIGNATURE 7936 256].

Definition padded_signed_arch : MachOArch :=
  slice64_arch 0 8192 padded_signed_payloads.

Definition padded_signed : MachO :=
  mk_MachO (slice64_bytes 8192 padded_signed_payloads) 8192 false FAT_CIGAM 1
    [padded_signed_arch].

(** * The rest of [macho.cpp] *)

(** Conversion of a 32-bit pattern to [int] ([cpu_type_t]). *)
Definition s32 (z : Z) : Z :=
  if u32 z <? 2 ^ 31 then u32 z else u32 z - 2 ^ 32.

(** [MachO::arch_from_mach_header]: the fat entry synthesized for a thin
    file, in the byte order of the fat magic.  [cpu_pagesize] is the lookup
    of [cpuinfo.h], which is not among the sources, taken as given. *)
Definition arch_from_mach_header (cpu_pagesize : Z -> Z) (fat_magic : Z)
    (mh : mach_header) (size : Z) : fat_arch :=
  let cputype := s32 (SWAP32 (mh_cputype mh) (mh_magic mh)) in
  let align := u32 (cpu_pagesize cputype) in
  mk_fat_arch (SWAP32 cputype fat_magic)
    (SWAP32 (SWAP32 (mh_cpusubtype mh) (mh_magic mh)) fat_magic)
    (SWAP32 0 fat_magic) (SWAP32 size fat_magic) (SWAP32 align fat_magic).

(** One 32-bit word of the file, as [READ] stores it in a host integer. *)
Definition word_at (f : File) (pos : Z) : Z := from_le (read_at f pos 4).

(** [READ(arch, file)] for a [fat_arch] at position [pos]. *)
Definition fat_arch_at (f : File) (pos : Z) : fat_arch :=
  mk_fat_arch (word_at f pos) (word_at f (pos + 4)) (word_at f (pos + 8))
    (word_at f (pos + 12)) (word_at f (pos + 16)).

(** The loop of the constructor over the fat entries: [n] entries read one
    after the other from [pos] on, each through [swap_arch]. *)
Fixpoint read_fat_archs (magic : Z) (f : File) (pos : Z) (n : nat)
  : list fat_arch :=
  match n with
  | O => []
  | S n' =>
      swap_arch magic (fat_arch_at f pos)
        :: read_fat_archs magic f (pos + sizeof_fat_arch) n'
  end.

(** The fat branch of the constructor: [n_archs] from the fat header, and
    the entries handed to the slices' constructors. *)
Definition open_fat (magic : Z) (f : File) : Z * list fat_arch :=
  let n_archs := SWAP32 (word_at f 4) magic in
  (n_archs, read_fat_archs magic f sizeof_fat_header (Z.to_nat n_archs)).

(** [MachO::change_file_type] *)
Definition change_file_type (m : MachO) (arch_index : nat) (file_type : Z)
  : option MachO :=
  match archs m !! arch_index with
  | None => None
  | Some arch =>
      let h := arch_mach_header arch in
      let h' := mk_mach_header (mh_magic h) (mh_cputype h) (mh_cpusubtype h)
                  (u32 file_type) (mh_ncmds h) (mh_sizeofcmds h) (mh_flags h) in
      let arch' := set_arch_mach_header h' arch in
      Some (set_file (write_mach_header (file m) arch')
              (set_archs (<[arch_index := arch']> (archs m)) m))
  end.

(** The loop of [remove_arch] over the slices behind the removed one: each
    is moved down to the next aligned offset and the bytes it leaves behind
    are zeroed. *)
Fixpoint repack (f : File) (new_offset : Z) (later : list MachOArch)
  : File * Z * list MachOArch :=
  match later with
  | [] => (f, new_offset, [])
  | arch :: rest =>
      let offset := fa_offset (arch_fat_arch arch) in
      let size := fa_size (arch_fat_arch arch) in
      let new_offset :=
        u32 (ROUND_UP new_offset (Z.shiftl 1 (fa_align (arch_fat_arch arch)))) in
      let arch' :=
        set_arch_fat_arch (set_fa_offset new_offset (arch_fat_arch arch)) arch in
      let f1 := fmove f new_offset offset size in
      let f2 := fzero f1 (u32 (new_offset + size)) (u32 (offset - new_offset)) in
      let '(f', off', rest') := repack f2 (u32 (new_offset + size)) rest in
      (f', off', arch' :: rest')
  end.

(** [MachO::remove_arch]; [None] when a vector is indexed out of range. *)
Definition remove_arch (m : MachO) (arch_index : nat) : option MachO :=
  match archs m !! arch_index with
  | None => None
  | Some arch =>
      let f0 := fzero (file m) (fa_offset (arch_fat_arch arch))
                  (fa_size (arch_fat_arch arch)) in
      let start :=
        match arch_index with
        | O => Some sizeof_fat_header
        | S k =>
            (fun prev => u32 (fa_offset (arch_fat_arch prev)
                              + fa_size (arch_fat_arch prev)))
              <$> archs m !! k
        end in
      let archs1 := delete arch_index (archs m) in
      let n_archs' := u32 (n_archs m - 1) in
      let count := (Z.to_nat n_archs' - arch_index)%nat in
      match start with
      | None => None
      | Some start =>
          if decide (Z.to_nat n_archs' <= length archs1)%nat then
            let '(f1, new_offset, moved) :=
              repack f0 start (take count (drop arch_index archs1)) in
            let archs2 :=
              take arch_index archs1 ++ moved
                ++ drop (arch_index + count) archs1 in
            let m1 := mk_MachO f1 (file_size m) (is_fat m) (fat_magic m)
                        n_archs' archs2 in
            match write_fat_archs (write_fat_header m1) with
            | None => None
            | Some m2 =>
                Some (set_file_size new_offset
                        (set_file (ftruncate (file m2) new_offset) m2))
            end
          else None
      end
  end.

(** A fat entry whose fields are 32-bit values. *)
Definition fat_arch_in_range (a : fat_arch) : Prop :=
  u32 (fa_cputype a) = fa_cputype a /\ u32 (fa_cpusubtype a) = fa_cpusubtype a
  /\ u32 (fa_offset a) = fa_offset a /\ u32 (fa_size a) = fa_size a
  /\ u32 (fa_align a) = fa_align a.

(** A record owns as many bytes as its [cmdsize] says. *)
Definition lc_sized (lc : LoadCommand) : Prop :=
  flen (raw_lc lc) = cmdsize lc.

(** The header's counts describe the table. *)
Definition lc_counts_ok (arch : MachOArch) : Prop :=
  Z.of_nat (length (load_commands arch)) = mh_ncmds (arch_mach_header arch)
  /\ sum_cmdsize (load_commands arch) = mh_sizeofcmds (arch_mach_header arch).

(** The slices of [l] lie one behind the other from [start] on, each with a
    size and an alignment that are not negative and at a multiple of its
    alignment; the value is the end of the last one. *)
Fixpoint slices_ok (start : Z) (l : list MachOArch) : option Z :=
  match l with
  | [] => Some start
  | arch :: rest =>
      let fa := arch_fat_arch arch in
      if (start <=? fa_offset fa) && (0 <=? fa_size fa) && (0 <=? fa_align fa)
         && (fa_offset fa mod Z.shiftl 1 (fa_align fa) =? 0)
      then slices_ok (fa_offset fa + fa_size fa) rest
      else None
  end.

(** The fat header and [n] fat entries. *)
Definition fat_table_size (n : Z) : Z :=
  sizeof_fat_header + sizeof_fat_arch * n.

(** A fat container in order: the members describe the file, the slices
    lie behind the fat table, in order and aligned, within the file, and
    no alignment is smaller than the table. *)
Definition fat_layout_ok (m : MachO) : bool :=
  is_fat m
  && (n_archs m =? Z.of_nat (length (archs m)))
  && (file_size m =? flen (file m))
  && (file_size m <=? UINT32_MAX)
  && forallb (fun arch => fat_table_size (n_archs m)
                          <=? Z.shiftl 1 (fa_align (arch_fat_arch arch)))
       (archs m)
  && match slices_ok (fat_table_size (n_archs m)) (archs m) with
     | Some e => e <=? file_size m
     | None => false
     end.

(** A slice after a repacking: the same record with its offset lowered,
    and the same bytes in the file at the new offset. *)
Definition slice_kept (f f' : File) (old new : MachOArch) : Prop :=
  let fa := arch_fat_arch old in
  exists o',
    new = set_arch_fat_arch (set_fa_offset o' fa) old
    /\ o' <= fa_offset fa
    /\ read_at f' o' (fa_size fa) = read_at f (fa_offset fa) (fa_size fa).

(** The last command of the table with command ID [c], in list order. *)
Definition last_cmd (c : Z) (lcs : list LoadCommand) : option LoadCommand :=
  last (List.filter (fun lc => cmd lc =? c) lcs).

(** A signed thin slice of 8192 bytes whose segment [__DATA], covering the
    whole slice, comes behind the segment [__LINKEDIT] in the table. *)
Definition data_last_payloads : list (list byte) :=
  [segment_command_64 LINKEDIT 4096 4096 4096 4096;
   segment_command_64 DATA 0 8192 0 8192;
   linkedit_data_command LC_CODE_SIGNATURE 7936 256].

Definition data_last_arch : MachOArch :=
  slice64_arch 0 8192 data_last_payloads.

Definition data_last : MachO :=
  mk_MachO (slice64_bytes 8192 data_last_payloads) 8192 false FAT_CIGAM 1
    [data_last_arch].

(** The [filesize] fields of the 64-bit segment commands of each slice, and
    the value returned, after [remove_codesignature]. *)
Definition segment_filesizes (r : bool * MachO) : bool * list (list Z) :=
  (r.1,
   (fun a =>
      omap (fun lc =>
              if cmd lc =? LC_SEGMENT_64
              then Some (get64 (raw_lc lc) 48 (mh_magic (arch_mach_header a)))
              else None) (load_commands a)) <$> archs r.2).



(** * Properties *)

(** ** Layout primitives *)

Lemma u32_range z : 0 <= u32 z < 2 ^ 32.
Proof. unfold u32. apply Z.mod_pos_bound. lia. Qed.

Lemma u32_small z : 0 <= z <= UINT32_MAX -> u32 z = z.
Proof. unfold u32, UINT32_MAX. intros H. apply Z.mod_small. lia. Qed.

Lemma ROUND_UP_multiple x a : 0 < a -> (ROUND_UP x a) mod a = 0.
Proof. intros Ha. unfold ROUND_UP. apply Z.mod_mul. lia. Qed.

Lemma ROUND_UP_bounds x a : 0 < a -> x <= ROUND_UP x a < x + a.
Proof.
  intros Ha. unfold ROUND_UP.
  pose proof (Z.div_mod (x + a - 1) a ltac:(lia)) as Hd.
  pose proof (Z.mod_pos_bound (x + a - 1) a Ha) as Hm.
  nia.
Qed.

(** ** Opening a file *)

(** C9, as the code has it: the size limit is checked before the magic.  A
    file longer than 2^32-1 bytes is refused as too large whatever its first
    four bytes are, and an unknown magic is reported exactly for the files
    of at most 2^32-1 bytes whose first four bytes match no known magic. *)
Theorem open_checks_size_before_magic (fsize magic : Z) :
  (UINT32_MAX < fsize -> open_checks fsize magic = inl FileTooLarge) /\
  (fsize <= UINT32_MAX -> IS_MAGIC magic = false ->
   open_checks fsize magic = inl (UnknownMagic magic)) /\
  (forall e, open_checks fsize magic = inl (UnknownMagic e) ->
             fsize <= UINT32_MAX /\ e = magic /\ IS_MAGIC magic = false).
Proof.
  unfold open_checks. repeat split.
  - intros H. apply Z.ltb_lt in H. now rewrite H.
  - intros H Hm. apply Z.ltb_ge in H. now rewrite H, Hm.
  - destruct (UINT32_MAX <? fsize) eqn:E; [discriminate|].
    now apply Z.ltb_ge in E.
  - destruct (UINT32_MAX <? fsize); [discriminate|].
    destruct (IS_MAGIC magic); simpl in H; congruence.
  - destruct (UINT32_MAX <? fsize); [discriminate|].
    destruct (IS_MAGIC magic); simpl in H; congruence.
Qed.

Lemma open_checks_size_before_magic_witness :
  open_checks 4294967296 0 = inl FileTooLarge
  /\ open_checks 4096 0 = inl (UnknownMagic 0).
Proof.
  split.
  - apply (proj1 (open_checks_size_before_magic 4294967296 0)).
    unfold UINT32_MAX. lia.
  - apply (proj1 (proj2 (open_checks_size_before_magic 4096 0))).
    + unfold UINT32_MAX. lia.
    + reflexivity.
Defined.

(** C9 as stated fails: a file of 2^32 bytes whose first four bytes are zero
    matches no magic, and is not refused for its magic. *)
Lemma open_unknown_magic_large_file :
  IS_MAGIC 0 = false /\ open_checks 4294967296 0 <> inl (UnknownMagic 0).
Proof. split; [reflexivity | discriminate]. Qed.

(** ** The scan of [remove_codesignature] *)

Section Scan.

Variable segname : LoadCommand -> list byte.

Lemma scan_from_app i l1 l2 s :
  scan_from segname i (l1 ++ l2) s
  = scan_from segname (i + length l1) l2 (scan_from segname i l1 s).
Proof.
  revert i s. induction l1 as [|lc l1 IH]; intros i s; simpl.
  - now rewrite Nat.add_0_r.
  - rewrite IH. f_equal. lia.
Qed.

Lemma scan_step_codesig i lc s :
  cmd lc = LC_CODE_SIGNATURE ->
  codesig_index (scan_step segname i lc s) = Some i.
Proof. intros H. unfold scan_step. now rewrite H. Qed.

Lemma scan_step_other i lc s :
  cmd lc <> LC_CODE_SIGNATURE ->
  codesig_index (scan_step segname i lc s) = codesig_index s.
Proof.
  intros H. unfold scan_step.
  destruct (Z.eqb_spec (cmd lc) LC_CODE_SIGNATURE); [contradiction|].
  destruct ((cmd lc =? LC_SEGMENT) || (cmd lc =? LC_SEGMENT_64)).
  - now destruct (negb _).
  - now destruct (cmd lc =? LC_SYMTAB).
Qed.

Lemma scan_from_no_codesig i l s :
  Forall (fun lc => cmd lc <> LC_CODE_SIGNATURE) l ->
  codesig_index (scan_from segname i l s) = codesig_index s.
Proof.
  intros H. revert i s. induction H as [|lc l Hlc _ IH]; intros i s; simpl.
  - reflexivity.
  - rewrite IH. now apply scan_step_other.
Qed.

(** The scan remembers the last code-signature command of the vector. *)
Lemma scan_codesig_last lcs i cs :
  lcs !! i = Some cs ->
  cmd cs = LC_CODE_SIGNATURE ->
  (forall j lc, (i < j)%nat -> lcs !! j = Some lc ->
                cmd lc <> LC_CODE_SIGNATURE) ->
  codesig_index (scan_load_commands segname lcs) = Some i.
Proof.
  intros Hi Hcs Hlast. unfold scan_load_commands.
  rewrite <- (take_drop_middle lcs i cs Hi).
  rewrite scan_from_app. simpl.
  rewrite scan_from_no_codesig.
  - rewrite scan_step_codesig by assumption. f_equal.
    rewrite length_take. apply lookup_lt_Some in Hi. lia.
  - apply Forall_lookup. intros k lc Hk. rewrite lookup_drop in Hk.
    apply (Hlast (S i + k)%nat); [lia | assumption].
Qed.

Lemma scan_step_linkedit i lc s j :
  linkedit_index (scan_step segname i lc s) = Some j ->
  linkedit_index s = Some j
  \/ (j = i /\ (cmd lc = LC_SEGMENT \/ cmd lc = LC_SEGMENT_64)
      /\ strncmp (segname lc) LINKEDIT sizeof_segname <> 0).
Proof.
  unfold scan_step.
  set (c := strncmp (segname lc) LINKEDIT sizeof_segname).
  destruct (Z.eqb_spec (cmd lc) LC_CODE_SIGNATURE); [now left|].
  destruct (Z.eqb_spec (cmd lc) LC_SEGMENT) as [E1|E1];
    destruct (Z.eqb_spec (cmd lc) LC_SEGMENT_64) as [E2|E2]; cbn [orb];
    try (destruct (Z.eqb_spec c 0); cbn [negb linkedit_index];
         intros H; [now left | right; inversion H; tauto]).
  destruct (cmd lc =? LC_SYMTAB); cbn [linkedit_index]; intros H; now left.
Qed.

Lemma scan_from_linkedit lcs i s j :
  linkedit_index (scan_from segname i lcs s) = Some j ->
  linkedit_index s = Some j
  \/ exists lc, (i <= j)%nat /\ lcs !! (j - i)%nat = Some lc
        /\ (cmd lc = LC_SEGMENT \/ cmd lc = LC_SEGMENT_64)
        /\ strncmp (segname lc) LINKEDIT sizeof_segname <> 0.
Proof.
  revert i s. induction lcs as [|lc lcs IH]; intros i s; simpl.
  - now left.
  - intros H. destruct (IH _ _ H) as [H1 | (lc' & Hle & Hl & Hc)].
    + destruct (scan_step_linkedit _ _ _ _ H1) as [?|(-> & Hseg & Hne)];
        [now left|].
      right. exists lc. rewrite Nat.sub_diag. auto.
    + right. exists lc'. split; [lia|]. split; [|assumption].
      replace (j - i)%nat with (S (j - S i)) by lia. assumption.
Qed.

(** Whatever the view, the segment the scan selects is one whose name the
    comparison found different from "__LINKEDIT". *)
Lemma scan_selects_only_mismatches lcs j :
  linkedit_index (scan_load_commands segname lcs) = Some j ->
  exists lc, lcs !! j = Some lc
    /\ (cmd lc = LC_SEGMENT \/ cmd lc = LC_SEGMENT_64)
    /\ strncmp (segname lc) LINKEDIT sizeof_segname <> 0.
Proof.
  intros H. destruct (scan_from_linkedit _ _ _ _ H) as [H0|(lc & _ & Hl & Hc)].
  - discriminate.
  - exists lc. now rewrite Nat.sub_0_r in Hl.
Qed.

Lemma scan_step_not_segment i lc s :
  cmd lc <> LC_SEGMENT -> cmd lc <> LC_SEGMENT_64 ->
  linkedit_index (scan_step segname i lc s) = linkedit_index s.
Proof.
  intros H1 H2. unfold scan_step.
  destruct (cmd lc =? LC_CODE_SIGNATURE); [reflexivity|].
  destruct (Z.eqb_spec (cmd lc) LC_SEGMENT); [contradiction|].
  destruct (Z.eqb_spec (cmd lc) LC_SEGMENT_64); [contradiction|].
  cbn [orb]. now destruct (cmd lc =? LC_SYMTAB).
Qed.

Lemma scan_from_no_segment i l s :
  Forall (fun lc => cmd lc <> LC_SEGMENT /\ cmd lc <> LC_SEGMENT_64) l ->
  linkedit_index (scan_from segname i l s) = linkedit_index s.
Proof.
  intros H. revert i s.
  induction H as [|lc l [H1 H2] _ IH]; intros i s; simpl; [reflexivity|].
  rewrite IH. now apply scan_step_not_segment.
Qed.

(** The scan selects the last segment command of the vector when the
    comparison finds its name different from "__LINKEDIT", whatever the
    segments in front of it are called. *)
Lemma scan_linkedit_last_segment lcs i lc :
  lcs !! i = Some lc ->
  cmd lc = LC_SEGMENT \/ cmd lc = LC_SEGMENT_64 ->
  strncmp (segname lc) LINKEDIT sizeof_segname <> 0 ->
  (forall j lc', (i < j)%nat -> lcs !! j = Some lc' ->
                 cmd lc' <> LC_SEGMENT /\ cmd lc' <> LC_SEGMENT_64) ->
  linkedit_index (scan_load_commands segname lcs) = Some i.
Proof.
  intros Hi Hseg Hne Hlast. unfold scan_load_commands.
  rewrite <- (take_drop_middle lcs i lc Hi).
  rewrite scan_from_app. simpl.
  rewrite scan_from_no_segment.
  - unfold scan_step.
    set (c := strncmp (segname lc) LINKEDIT sizeof_segname) in *.
    assert (Hcs : (cmd lc =? LC_CODE_SIGNATURE) = false).
    { destruct Hseg as [-> | ->]; reflexivity. }
    assert (Hs : ((cmd lc =? LC_SEGMENT) || (cmd lc =? LC_SEGMENT_64)) = true).
    { destruct Hseg as [-> | ->]; reflexivity. }
    rewrite Hcs, Hs.
    destruct (Z.eqb_spec c 0) as [E|E]; [contradiction|].
    cbn [negb linkedit_index]. f_equal.
    rewrite length_take. apply lookup_lt_Some in Hi. lia.
  - apply Forall_lookup. intros k lc' Hk. rewrite lookup_drop in Hk.
    apply (Hlast (S i + k)%nat); [lia | assumption].
Qed.

Lemma scan_snoc l x :
  scan_load_commands segname (l ++ [x])
  = scan_step segname (length l) x (scan_load_commands segname l).
Proof. unfold scan_load_commands. now rewrite scan_from_app. Qed.

Lemma last_cmd_snoc c l x :
  last_cmd c (l ++ [x]) = if cmd x =? c then Some x else last_cmd c l.
Proof.
  unfold last_cmd. rewrite List.filter_app. cbn [List.filter].
  destruct (cmd x =? c); [apply last_snoc | now rewrite app_nil_r].
Qed.

Lemma bind_lookup_snoc (l : list LoadCommand) x (o : option nat) :
  (forall k, o = Some k -> (k < length l)%nat) ->
  o ≫= ((l ++ [x]) !!.) = o ≫= (l !!.).
Proof.
  intros H. destruct o as [k|]; [|reflexivity].
  cbn [mbind option_bind]. apply lookup_app_l. now apply H.
Qed.

(** The symbol table the scan remembers is the last LC_SYMTAB command of
    the vector, and none when the vector has none. *)
Lemma scan_symtab_last_cmd l :
  (forall k, symtab_index (scan_load_commands segname l) = Some k ->
             (k < length l)%nat)
  /\ symtab_index (scan_load_commands segname l) ≫= (l !!.)
     = last_cmd LC_SYMTAB l.
Proof.
  induction l as [|x l [IHb IHl]] using rev_ind.
  { split; [intros k H; discriminate | reflexivity]. }
  rewrite scan_snoc, last_cmd_snoc, length_app. cbn [length].
  set (s := scan_load_commands segname l) in *.
  assert (Hkeep :
    (forall k, symtab_index s = Some k -> (k < length l + 1)%nat)
    /\ symtab_index s ≫= ((l ++ [x]) !!.) = last_cmd LC_SYMTAB l).
  { split; [intros k Hk; specialize (IHb k Hk); lia|].
    now rewrite bind_lookup_snoc. }
  unfold scan_step.
  destruct (Z.eqb_spec (cmd x) LC_CODE_SIGNATURE) as [E|_].
  { rewrite E. exact Hkeep. }
  destruct (Z.eqb_spec (cmd x) LC_SEGMENT) as [E|_].
  { rewrite E. cbn [orb]. now destruct (negb _). }
  destruct (Z.eqb_spec (cmd x) LC_SEGMENT_64) as [E|_].
  { rewrite E. cbn [orb]. now destruct (negb _). }
  cbn [orb]. destruct (Z.eqb_spec (cmd x) LC_SYMTAB) as [E|_];
    [|exact Hkeep].
  cbn [symtab_index mbind option_bind]. split.
  - intros k Hk. injection Hk as <-. lia.
  - apply list_lookup_middle. reflexivity.
Qed.

(** The code-signature command the scan remembers is the last
    LC_CODE_SIGNATURE command of the vector. *)
Lemma scan_codesig_last_cmd l :
  (forall k, codesig_index (scan_load_commands segname l) = Some k ->
             (k < length l)%nat)
  /\ codesig_index (scan_load_commands segname l) ≫= (l !!.)
     = last_cmd LC_CODE_SIGNATURE l.
Proof.
  induction l as [|x l [IHb IHl]] using rev_ind.
  { split; [intros k H; discriminate | reflexivity]. }
  rewrite scan_snoc, last_cmd_snoc, length_app. cbn [length].
  set (s := scan_load_commands segname l) in *.
  assert (Hkeep :
    (forall k, codesig_index s = Some k -> (k < length l + 1)%nat)
    /\ codesig_index s ≫= ((l ++ [x]) !!.) = last_cmd LC_CODE_SIGNATURE l).
  { split; [intros k Hk; specialize (IHb k Hk); lia|].
    now rewrite bind_lookup_snoc. }
  unfold scan_step.
  destruct (Z.eqb_spec (cmd x) LC_CODE_SIGNATURE) as [E|_].
  { cbn [codesig_index mbind option_bind]. split.
    - intros k Hk. injection Hk as <-. lia.
    - apply list_lookup_middle. reflexivity. }
  destruct ((cmd x =? LC_SEGMENT) || (cmd x =? LC_SEGMENT_64)).
  { now destruct (negb _). }
  now destruct (cmd x =? LC_SYMTAB).
Qed.

End Scan.

(** [remove_codesignature] depends on the view of the records through the
    scan only. *)
Lemma remove_codesignature_scan_ext (v1 v2 : LoadCommand -> list byte)
    (m : MachO) (a : nat) :
  (forall arch, archs m !! a = Some arch ->
     scan_load_commands v1 (load_commands arch)
     = scan_load_commands v2 (load_commands arch)) ->
  remove_codesignature v1 m a = remove_codesignature v2 m a.
Proof.
  intros H. unfold remove_codesignature.
  destruct (archs m !! a) as [arch|]; [|reflexivity].
  now rewrite (H arch eq_refl).
Qed.

Lemma strncmp_LINKEDIT_padded :
  strncmp (name16 LINKEDIT) LINKEDIT sizeof_segname = 0.
Proof. reflexivity. Qed.

(** C1 fails on the code.  The comparison is given sixteen bytes of the
    record object ([&lc]), not of the payload, and the segment is selected
    when the comparison finds a difference.  On [data_last], whose first
    command is the segment named "__LINKEDIT" and whose second command is
    the segment named "__DATA", every view under which the record of the
    second command does not read as "__LINKEDIT" selects that second
    command, and a successful call rewrites its [filesize] (8192 to 7936)
    and leaves the [filesize] of the segment named "__LINKEDIT" at 4096. *)
Theorem remove_codesignature_selects_last_segment
    (segname : LoadCommand -> list byte) :
  (forall lc, load_commands data_last_arch !! 1%nat = Some lc ->
              strncmp (segname lc) LINKEDIT sizeof_segname <> 0) ->
  payload_segname <$> load_commands data_last_arch !! 0%nat
  = Some (name16 LINKEDIT)
  /\ payload_segname <$> load_commands data_last_arch !! 1%nat
     = Some (name16 DATA)
  /\ name16 DATA <> name16 LINKEDIT
  /\ linkedit_index (scan_load_commands segname (load_commands data_last_arch))
     = Some 1%nat
  /\ segment_filesizes <$> Some (true, data_last) = Some (true, [[4096; 8192]])
  /\ segment_filesizes <$> remove_codesignature segname data_last 0
     = Some (true, [[4096; 7936]]).
Proof.
  intros Hview.
  split; [vm_compute; reflexivity|].
  split; [vm_compute; reflexivity|].
  split.
  { assert (H : bool_decide (name16 DATA = name16 LINKEDIT) = false)
      by (vm_compute; reflexivity).
    now apply bool_decide_eq_false_1 in H. }
  set (lcs := load_commands data_last_arch) in *.
  destruct (lcs !! 1%nat) as [D|] eqn:HD; [|discriminate HD].
  specialize (Hview D eq_refl).
  assert (HcmdD : cmd D = LC_SEGMENT_64).
  { vm_compute in HD. injection HD as <-. reflexivity. }
  assert (Hli : linkedit_index (scan_load_commands segname lcs) = Some 1%nat).
  { apply (scan_linkedit_last_segment segname lcs 1 D HD);
      [now right | assumption |].
    intros j lc' Hj Hlc'.
    destruct j as [|[|[|j]]]; try lia.
    - vm_compute in Hlc'. injection Hlc' as <-. split; discriminate.
    - vm_compute in Hlc'. discriminate. }
  assert (Hci : codesig_index (scan_load_commands segname lcs) = Some 2%nat).
  { destruct (lcs !! 2%nat) as [C|] eqn:HC; [|discriminate HC].
    apply (scan_codesig_last segname lcs 2 C HC).
    - vm_compute in HC. injection HC as <-. reflexivity.
    - intros j lc' Hj Hlc'. destruct j as [|[|[|j]]]; try lia.
      vm_compute in Hlc'. discriminate. }
  assert (Hsi : symtab_index (scan_load_commands segname lcs) = None).
  { destruct (scan_symtab_last_cmd segname lcs) as [_ Hs].
    destruct (symtab_index (scan_load_commands segname lcs)) as [k|] eqn:Hk;
      [|reflexivity].
    assert (Hb : (k < 3)%nat)
      by (destruct (scan_symtab_last_cmd segname lcs) as [Hb _];
          now apply Hb).
    cbn [mbind option_bind] in Hs.
    destruct k as [|[|[|k]]]; try lia; vm_compute in Hs; discriminate. }
  assert (Hscan : scan_load_commands segname lcs
                  = scan_load_commands payload_segname lcs).
  { transitivity (mk_scan (Some 2%nat) (Some 1%nat) None).
    - destruct (scan_load_commands segname lcs) as [c l s0].
      cbn [codesig_index linkedit_index symtab_index] in *. congruence.
    - vm_compute. reflexivity. }
  split; [exact Hli|].
  split; [vm_compute; reflexivity|].
  rewrite (remove_codesignature_scan_ext segname payload_segname data_last 0).
  - vm_compute. reflexivity.
  - intros arch Ha. vm_compute in Ha. injection Ha as <-. exact Hscan.
Qed.

Lemma remove_codesignature_selects_last_segment_witness :
  linkedit_index
    (scan_load_commands (fun _ => []) (load_commands data_last_arch))
  = Some 1%nat
  /\ linkedit_index
       (scan_load_commands payload_segname (load_commands data_last_arch))
     = Some 1%nat.
Proof.
  split.
  - apply (remove_codesignature_selects_last_segment (fun _ => [])).
    intros lc _. vm_compute. discriminate.
  - apply (remove_codesignature_selects_last_segment payload_segname).
    intros lc Hlc. vm_compute in Hlc. injection Hlc as <-.
    vm_compute. discriminate.
Defined.

(** ** Concrete runs *)

(** C2 fails on the code: moving command 0 of [three_commands] to index 1
    writes the commands to the file in the order 1, 0, 2, but the vector
    gets the moved record at its end.  The file offsets of the records are
    then 28, 108, 84, so the second record is not at 28 + 56. *)
Theorem move_load_command_breaks_table :
  lc_table_ok 28 (file three_commands) three_arch = true
  /\ shape <$> move_load_command three_commands 0 0 1
     = Some (160, [(160, 3, 112, [28; 108; 84])])
  /\ (fun m => map (lc_table_ok 28 (file m)) (archs m))
       <$> move_load_command three_commands 0 0 1 = Some [false]
  /\ (fun m => read_at (file m) 28 112)
       <$> move_load_command three_commands 0 0 1
     = Some (raw_command 0x1 56 x42 ++ raw_command 0x1b 24 x41
               ++ raw_command 0x2a 32 x43).
Proof. vm_compute. repeat split; reflexivity. Qed.

(** A command inserted into an empty table is recorded at the end of the
    slice, not behind the header: on [thin_small] (64 bytes, no command) the
    new record gets file offset 64. *)
Lemma insert_load_command_empty_table :
  shape <$> insert_load_command thin_small 0 (raw_command 0x1b 24 x41)
  = Some (88, [(64, 1, 24, [64])]).
Proof. vm_compute. reflexivity. Qed.

(** C3 fails on the code: [no_linkedit] has a code signature and no
    [__LINKEDIT] segment, yet the operation returns true, shortens the file
    from 8192 to 7936 bytes and drops a load command. *)
Theorem remove_codesignature_without_linkedit :
  forallb (fun lc => bool_decide (payload_segname lc <> name16 LINKEDIT))
    (load_commands (slice64_arch 0 8192 no_linkedit_payloads)) = true
  /\ shape no_linkedit = (8192, [(8192, 2, 88, [32; 104])])
  /\ (fun r => (fst r, shape (snd r)))
       <$> remove_codesignature payload_segname no_linkedit 0
     = Some (true, (7936, [(7936, 1, 72, [32])])).
Proof. vm_compute. repeat split; reflexivity. Qed.

(** C4 as stated fails: the code signature of the first slice of [fat_two]
    is 256 bytes long and is removed, the slice shrinks to 3840 bytes, and
    the file keeps its 12288 bytes. *)
Lemma remove_codesignature_fat_file_not_shorter :
  flen (file fat_two) = 12288
  /\ datasize MH_MAGIC_64
       <$> (fat_two_archs !! 0%nat ≫= fun a => load_commands a !! 1%nat)
     = Some 256
  /\ (fun r => (fst r, shape (snd r)))
       <$> remove_codesignature payload_segname fat_two 0
     = Some (true, (12288, [(3840, 1, 72, [4128]); (4096, 0, 0, [])])).
Proof. vm_compute. repeat split; reflexivity. Qed.

(** C6 as stated fails: on [three_commands], moving command 0 to index 2 and
    then command 2 to index 0 rotates the three commands twice; the file is
    not the one before. *)
Lemma move_load_command_twice_differs :
  (fun m => bool_decide (file m = file three_commands))
    <$> move_there_and_back three_commands 0 0 2 = Some false
  /\ (fun m => read_at (file m) 28 112)
       <$> move_there_and_back three_commands 0 0 2
     = Some (raw_command 0x2a 32 x43 ++ raw_command 0x1b 24 x41
               ++ raw_command 0x1 56 x42).
Proof. vm_compute. split; reflexivity. Qed.

(** C7 fails on the code: the slice of the donor [tiny_fat 12] lies at
    offset 64 of the donor's file, and the range [128, 156) of the
    recipient receives the first 28 bytes of the donor's file, its fat
    header and fat entry, instead.  [save_arch_to_file] reads the same
    slice from its offset. *)
Theorem insert_arch_copies_start_of_donor_file :
  (fun m => (shape m, map (fun a => fa_offset (arch_fat_arch a)) (archs m)))
    <$> insert_arch_from_macho (tiny_fat 7) (tiny_fat 12) 0
  = Some ((156, [(28, 0, 0, []); (28, 0, 0, [])]), [64; 128])
  /\ (fun m => read_at (file m) 128 28)
       <$> insert_arch_from_macho (tiny_fat 7) (tiny_fat 12) 0
     = Some (read_at (file (tiny_fat 12)) 0 28)
  /\ read_at (file (tiny_fat 12)) 0 28 <> read_at (file (tiny_fat 12)) 64 28
  /\ save_arch_to_file (tiny_fat 12) 0
     = Some (read_at (file (tiny_fat 12)) 64 28).
Proof.
  split; [vm_compute; reflexivity|].
  split; [vm_compute; reflexivity|].
  split; [|vm_compute; reflexivity].
  assert (H : bool_decide (read_at (file (tiny_fat 12)) 0 28
                           = read_at (file (tiny_fat 12)) 64 28) = false)
    by (vm_compute; reflexivity).
  now apply bool_decide_eq_false_1 in H.
Qed.

(** C8 fails on the code: after [make_fat] on [thin_small] the gap
    [0, 4096) still starts with the 64 bytes of the thin file, its Mach-O
    magic first; no byte of the gap was zeroed and no fat header was
    written. *)
Theorem make_fat_leaves_gap :
  header_reserve (mk_fat_arch 0x01000007 3 0 64 12) = 4096
  /\ (fun m => (flen (file m), is_fat m)) <$> make_fat thin_small
     = Some (4160, true)
  /\ (fun m => read_at (file m) 4096 64) <$> make_fat thin_small
     = Some (file thin_small)
  /\ (fun m => read_at (file m) 0 4096) <$> make_fat thin_small
     = Some (file thin_small ++ replicate 4032 x00)
  /\ read_at (file thin_small) 0 4 = to_le 4 MH_MAGIC_64.
Proof. vm_compute. repeat split; reflexivity. Qed.

(** ** Writing into the file *)

Lemma length_ftruncate f n : length (ftruncate f n) = Z.to_nat n.
Proof.
  unfold ftruncate. rewrite length_app, length_take, length_replicate. lia.
Qed.

Lemma ftruncate_grow f n :
  (length f <= Z.to_nat n)%nat ->
  ftruncate f n = f ++ replicate (Z.to_nat n - length f) x00.
Proof. intros H. unfold ftruncate. now rewrite take_ge. Qed.

Lemma ftruncate_cut f g n :
  Z.to_nat n = length f -> ftruncate (f ++ g) n = f.
Proof.
  intros H. unfold ftruncate. rewrite H, take_app_length, length_app.
  replace (length f - (length f + length g))%nat with 0%nat by lia.
  apply app_nil_r.
Qed.

(** Writing over a block of the same length replaces the block and nothing
    else. *)
Lemma write_at_splice (p x q data : list byte) off :
  off = Z.of_nat (length p) ->
  length x = length data ->
  write_at (p ++ x ++ q) off data = p ++ data ++ q.
Proof.
  intros -> Hlen. unfold write_at. destruct data as [|b data].
  - destruct x; [reflexivity | discriminate].
  - rewrite Nat2Z.id, take_app_length.
    replace (length p - length (p ++ x ++ q))%nat with 0%nat
      by (rewrite !length_app; lia).
    rewrite <- Hlen. rewrite drop_app_ge by lia.
    replace (length p + length x - length p)%nat with (length x) by lia.
    now rewrite drop_app_length.
Qed.

Lemma length_write_at_inside f off data :
  0 <= off -> off + flen data <= flen f ->
  length (write_at f off data) = length f.
Proof.
  unfold flen. intros H0 H1.
  rewrite <- (take_drop (Z.to_nat off) f) at 1.
  rewrite <- (take_drop (length data) (drop (Z.to_nat off) f)) at 1.
  rewrite write_at_splice.
  - rewrite !length_app, length_take, !length_drop. lia.
  - rewrite length_take. lia.
  - rewrite length_take, length_drop. lia.
Qed.


(** ** Thin to fat and back *)



(** ** Moving a load command *)

Lemma lc_on_disk_spec f lc :
  lc_on_disk f lc = true ->
  0 <= file_offset lc /\ flen (raw_lc lc) = cmdsize lc
  /\ file_offset lc + cmdsize lc <= flen f
  /\ read_at f (file_offset lc) (cmdsize lc) = raw_lc lc.
Proof.
  unfold lc_on_disk. rewrite !andb_true_iff, bool_decide_eq_true.
  rewrite Z.leb_le, Z.eqb_eq, Z.leb_le. tauto.
Qed.

Lemma lc_bytes_whole lc :
  flen (raw_lc lc) = cmdsize lc -> lc_bytes lc = raw_lc lc.
Proof. unfold lc_bytes, flen. intros H. apply take_ge. lia. Qed.

Lemma lc_bytes_set_file_offset o lc :
  lc_bytes (set_file_offset o lc) = lc_bytes lc.
Proof. reflexivity. Qed.

(** A record that is on disk cuts the file in three. *)
Lemma lc_on_disk_split f lc :
  lc_on_disk f lc = true ->
  f = take (Z.to_nat (file_offset lc)) f ++ raw_lc lc
        ++ drop (Z.to_nat (file_offset lc + cmdsize lc)) f.
Proof.
  intros H. apply lc_on_disk_spec in H as (H0 & Hl & Hb & Hr).
  unfold flen in *. rewrite <- Hr at 1. unfold read_at.
  rewrite <- (take_drop (Z.to_nat (file_offset lc)) f) at 1. f_equal.
  rewrite <- (take_drop (Z.to_nat (cmdsize lc))
                (drop (Z.to_nat (file_offset lc)) f)) at 1.
  f_equal. rewrite drop_drop. f_equal. lia.
Qed.

(** Writing [Y] and then [X] over the adjacent blocks [X], [Y] exchanges
    them. *)
Lemma write_at_exchange (P X Y Q : list byte) o :
  o = Z.of_nat (length P) ->
  write_at (write_at (P ++ X ++ Y ++ Q) o Y) (o + flen Y) X
  = P ++ Y ++ X ++ Q.
Proof.
  intros ->. unfold flen.
  replace (P ++ X ++ Y ++ Q)
    with (P ++ take (length Y) (X ++ Y) ++ drop (length Y) (X ++ Y) ++ Q)
    by (now rewrite (app_assoc (take _ _)), take_drop, <- app_assoc).
  rewrite write_at_splice; [|reflexivity|].
  2:{ rewrite length_take, length_app. lia. }
  rewrite (app_assoc P Y).
  rewrite write_at_splice.
  - now rewrite <- app_assoc.
  - rewrite length_app. lia.
  - rewrite length_drop, length_app. lia.
Qed.

Lemma drop_past_middle {A} (pre : list A) x l :
  drop (S (length pre)) (pre ++ x :: l) = l.
Proof.
  rewrite drop_app_ge by lia.
  now replace (S (length pre) - length pre)%nat with 1%nat by lia.
Qed.

(** Moving the last but one command to the last place writes the two
    payloads in exchanged order and exchanges the two records. *)
Lemma move_lc_body_last_pair f pre x y :
  flen (raw_lc x) = cmdsize x -> flen (raw_lc y) = cmdsize y ->
  move_lc_body f (pre ++ [x; y]) (length pre) (S (length pre))
  = Some (write_at (write_at f (file_offset x) (raw_lc y))
            (file_offset x + cmdsize y) (raw_lc x),
          pre ++ [set_file_offset (file_offset x) y;
                  set_file_offset (file_offset x + cmdsize y) x]).
Proof.
  intros Hx Hy. unfold move_lc_body.
  rewrite list_lookup_middle by reflexivity.
  rewrite decide_True by (rewrite length_app; simpl; lia).
  rewrite drop_past_middle.
  replace (S (length pre) - length pre)%nat with 1%nat by lia.
  cbn [take slide]. rewrite !lc_bytes_set_file_offset.
  rewrite !lc_bytes_whole by assumption.
  rewrite take_app_length.
  change (pre ++ [x; y]) with (pre ++ x :: [y]) at 1.
  rewrite (drop_app_ge pre) by lia.
  replace (S (S (length pre)) - length pre)%nat with 2%nat by lia.
  reflexivity.
Qed.

Lemma set_file_offset_id lc : set_file_offset (file_offset lc) lc = lc.
Proof. now destruct lc. Qed.

(** Two adjacent records that are on disk cut the file in four. *)
Lemma lc_on_disk_split_pair f x y :
  lc_on_disk f x = true -> lc_on_disk f y = true ->
  file_offset y = file_offset x + cmdsize x ->
  exists P Q, f = P ++ raw_lc x ++ raw_lc y ++ Q
              /\ file_offset x = Z.of_nat (length P).
Proof.
  intros Hx Hy Hadj.
  pose proof (lc_on_disk_split _ _ Hx) as Sx.
  pose proof (lc_on_disk_split _ _ Hy) as Sy.
  apply lc_on_disk_spec in Hx as (Hx0 & Hxl & Hxb & Hxr).
  apply lc_on_disk_spec in Hy as (Hy0 & Hyl & Hyb & Hyr).
  exists (take (Z.to_nat (file_offset x)) f),
         (drop (Z.to_nat (file_offset y + cmdsize y)) f).
  unfold flen in *. split.
  - rewrite Sx at 1. do 2 f_equal.
    rewrite Sy at 1. rewrite drop_app_ge.
    + rewrite length_take.
      replace (Z.to_nat (file_offset x + cmdsize x)
               - Z.to_nat (file_offset y) `min` length f)%nat
        with 0%nat by lia.
      reflexivity.
    + rewrite length_take. lia.
  - rewrite length_take. lia.
Qed.

(** The same move done twice on the last two commands restores the file
    and the records. *)
Lemma move_lc_body_last_pair_twice f pre x y :
  lc_on_disk f x = true -> lc_on_disk f y = true ->
  file_offset y = file_offset x + cmdsize x ->
  exists f1 lcs1,
    move_lc_body f (pre ++ [x; y]) (length pre) (S (length pre))
    = Some (f1, lcs1)
    /\ length lcs1 = length (pre ++ [x; y])
    /\ move_lc_body f1 lcs1 (length pre) (S (length pre))
       = Some (f, pre ++ [x; y]).
Proof.
  intros Hx Hy Hadj.
  destruct (lc_on_disk_split_pair _ _ _ Hx Hy Hadj) as (P & Q & Hf & HP).
  apply lc_on_disk_spec in Hx as (Hx0 & Hxl & Hxb & Hxr).
  apply lc_on_disk_spec in Hy as (Hy0 & Hyl & Hyb & Hyr).
  eexists _, _. split; [apply move_lc_body_last_pair; assumption|].
  split; [rewrite !length_app; reflexivity|].
  rewrite move_lc_body_last_pair by assumption.
  cbn [file_offset set_file_offset cmdsize raw_lc].
  f_equal. f_equal.
  - rewrite <- Hyl, <- Hxl. subst f.
    rewrite write_at_exchange by assumption.
    rewrite write_at_exchange by assumption.
    reflexivity.
  - f_equal. destruct x, y; simpl in *. subst. reflexivity.
Qed.

Lemma move_load_command_step m a arch i j f1 lcs1 :
  archs m !! a = Some arch -> i <> j ->
  move_lc (file m) (load_commands arch) i j = Some (f1, lcs1) ->
  move_load_command m a i j
  = Some (set_file f1
            (set_archs (<[a := set_load_commands lcs1 arch]> (archs m)) m)).
Proof.
  intros Ha Hij Hmv. unfold move_load_command.
  rewrite decide_False by assumption. now rewrite Ha, Hmv.
Qed.

Lemma move_lc_up f lcs i :
  move_lc f lcs i (S i) = move_lc_body f lcs i (S i).
Proof.
  unfold move_lc. rewrite decide_False by lia. now rewrite decide_False by lia.
Qed.

Lemma move_lc_down f lcs i :
  move_lc f lcs (S i) i = move_lc_body f lcs i (S i).
Proof.
  unfold move_lc. rewrite decide_False by lia. now rewrite decide_True by lia.
Qed.

Lemma set_load_commands_twice l l' arch :
  load_commands arch = l ->
  set_load_commands l (set_load_commands l' arch) = arch.
Proof. intros <-. now destruct arch. Qed.

Lemma restore_container m a arch l' f' :
  archs m !! a = Some arch ->
  set_file (file m)
    (set_archs
       (<[a := set_load_commands (load_commands arch)
                 (set_load_commands l' arch)]>
          (archs (set_file f'
                    (set_archs (<[a := set_load_commands l' arch]> (archs m))
                       m))))
       (set_file f'
          (set_archs (<[a := set_load_commands l' arch]> (archs m)) m)))
  = m.
Proof.
  intros Ha. destruct m as [f fs isf fm na ars]. unfold set_file, set_archs.
  simpl in *. f_equal.
  rewrite list_insert_insert_eq, set_load_commands_twice by reflexivity.
  now apply list_insert_id.
Qed.

(** C6, as the code has it: the two calls restore the file and the records
    when the two indices are equal, and when they are the last two indices of
    a table whose last two records are on disk next to each other; with a
    lower index first the second call repeats the move of the first. *)
Theorem move_load_command_roundtrip_last_pair (m : MachO) (a : nat)
    (arch : MachOArch) (pre : list LoadCommand) (x y : LoadCommand) :
  archs m !! a = Some arch ->
  load_commands arch = pre ++ [x; y] ->
  lc_on_disk (file m) x = true ->
  lc_on_disk (file m) y = true ->
  file_offset y = file_offset x + cmdsize x ->
  move_there_and_back m a (length pre) (S (length pre)) = Some m
  /\ move_there_and_back m a (S (length pre)) (length pre) = Some m
  /\ forall i, move_there_and_back m a i i = Some m.
Proof.
  intros Ha Hl Hx Hy Hadj.
  destruct (move_lc_body_last_pair_twice (file m) pre x y Hx Hy Hadj)
    as (f1 & lcs1 & H1 & Hlen & H2).
  assert (Ha1 : archs (set_file f1
                         (set_archs (<[a := set_load_commands lcs1 arch]>
                                       (archs m)) m)) !! a
                = Some (set_load_commands lcs1 arch)).
  { simpl. apply list_lookup_insert_eq. now apply lookup_lt_Some in Ha. }
  split; [|split].
  - unfold move_there_and_back.
    rewrite (move_load_command_step m a arch _ _ f1 lcs1 Ha) by
      (try lia; rewrite move_lc_up, Hl; exact H1).
    rewrite (move_load_command_step _ a _ _ _ (file m) (pre ++ [x; y]) Ha1) by
      (try lia; rewrite move_lc_down; exact H2).
    f_equal. rewrite <- Hl. now apply restore_container.
  - unfold move_there_and_back.
    rewrite (move_load_command_step m a arch _ _ f1 lcs1 Ha) by
      (try lia; rewrite move_lc_down, Hl; exact H1).
    rewrite (move_load_command_step _ a _ _ _ (file m) (pre ++ [x; y]) Ha1) by
      (try lia; rewrite move_lc_up; exact H2).
    f_equal. rewrite <- Hl. now apply restore_container.
  - intros i. unfold move_there_and_back, move_load_command.
    now rewrite !decide_True by reflexivity.
Qed.

Lemma move_load_command_roundtrip_last_pair_witness :
  move_there_and_back three_commands 0 1 2 = Some three_commands
  /\ move_there_and_back three_commands 0 2 1 = Some three_commands
  /\ forall i, move_there_and_back three_commands 0 i i = Some three_commands.
Proof.
  apply (move_load_command_roundtrip_last_pair three_commands 0 three_arch
           [LoadCommand_of_raw MH_MAGIC 28 (raw_command 0x1b 24 x41)]
           (LoadCommand_of_raw MH_MAGIC 52 (raw_command 0x1 56 x42))
           (LoadCommand_of_raw MH_MAGIC 108 (raw_command 0x2a 32 x43))).
  - reflexivity.
  - reflexivity.
  - vm_compute. reflexivity.
  - vm_compute. reflexivity.
  - reflexivity.
Defined.

(** ** Removing a load command *)

Lemma slide_strip f o l : strip <$> (slide f o l).2 = strip <$> l.
Proof.
  revert f o. induction l as [|lc l IH]; intros f o; simpl; [reflexivity|].
  specialize (IH (write_at f o (lc_bytes (set_file_offset o lc)))
                (o + cmdsize lc)).
  destruct (slide _ _ l) as [[f' o'] l']. simpl in *.
  f_equal. exact IH.
Qed.

Lemma slide_length f o l : length (slide f o l).2 = length l.
Proof.
  rewrite <- (length_fmap strip), slide_strip. apply length_fmap.
Qed.

Lemma slide_end f o l : (slide f o l).1.2 = o + sum_cmdsize l.
Proof.
  revert f o. induction l as [|lc l IH]; intros f o; simpl; [lia|].
  specialize (IH (write_at f o (lc_bytes (set_file_offset o lc)))
                (o + cmdsize lc)).
  destruct (slide _ _ l) as [[f' o'] l']. simpl in *. lia.
Qed.

Lemma sum_cmdsize_app l1 l2 :
  sum_cmdsize (l1 ++ l2) = sum_cmdsize l1 + sum_cmdsize l2.
Proof. induction l1; simpl; lia. Qed.

Lemma sum_cmdsize_nonneg l :
  Forall (fun lc => 0 <= cmdsize lc) l -> 0 <= sum_cmdsize l.
Proof. induction 1; simpl; lia. Qed.

Lemma length_lc_bytes lc : 0 <= cmdsize lc -> flen (lc_bytes lc) <= cmdsize lc.
Proof. unfold lc_bytes, flen. rewrite length_take. lia. Qed.

(** The writes of the loop stay inside a file that holds the whole block. *)
Lemma slide_file_length f o l :
  Forall (fun lc => 0 <= cmdsize lc) l ->
  0 <= o -> o + sum_cmdsize l <= flen f ->
  length (slide f o l).1.1 = length f.
Proof.
  intros Hl. revert f o. induction Hl as [|lc l Hlc Hl IH]; intros f o Ho Hb;
    simpl in *; [reflexivity|].
  pose proof (sum_cmdsize_nonneg _ Hl) as Hs.
  pose proof (length_lc_bytes (set_file_offset o lc) Hlc) as Hw.
  assert (Hlen : length (write_at f o (lc_bytes (set_file_offset o lc)))
                 = length f).
  { apply length_write_at_inside; simpl in *; lia. }
  specialize (IH (write_at f o (lc_bytes (set_file_offset o lc)))
                (o + cmdsize lc)).
  destruct (slide _ _ l) as [[f' o'] l']. simpl in *.
  rewrite IH; [assumption | lia | unfold flen in *; lia].
Qed.

(** Moving command [i] to the last place: what the vector becomes. *)
Lemma move_lc_body_to_last f lcs i lc :
  lcs !! i = Some lc -> (i < length lcs - 1)%nat ->
  exists f' lcs' lc',
    move_lc_body f lcs i (length lcs - 1) = Some (f', lcs' ++ [lc'])
    /\ strip <$> lcs' = delete i (strip <$> lcs)
    /\ strip lc' = strip lc
    /\ file_offset lc'
       = file_offset lc + sum_cmdsize (drop (S i) lcs)
    /\ (Forall (fun lc => 0 <= cmdsize lc) lcs -> 0 <= file_offset lc ->
        file_offset lc + sum_cmdsize (drop i lcs) <= flen f ->
        length f' = length f).
Proof.
  intros Hi Hlt. unfold move_lc_body. rewrite Hi.
  rewrite decide_True by lia.
  rewrite (take_ge (drop (S i) lcs)) by (rewrite length_drop; lia).
  rewrite (drop_ge lcs (S (length lcs - 1))) by lia.
  pose proof (slide_strip f (file_offset lc) (drop (S i) lcs)) as Hs.
  pose proof (slide_end f (file_offset lc) (drop (S i) lcs)) as He.
  pose proof (slide_file_length f (file_offset lc) (drop (S i) lcs)) as Hf.
  destruct (slide f (file_offset lc) (drop (S i) lcs)) as [[f1 o1] b1].
  simpl in Hs, He, Hf. subst o1.
  eexists _, (take i lcs ++ b1), _. split; [|split; [|split; [|split]]].
  - simpl. now rewrite <- app_assoc.
  - rewrite fmap_app, Hs, fmap_take, fmap_drop. symmetry.
    apply delete_take_drop.
  - reflexivity.
  - reflexivity.
  - intros Hall H0 Hb.
    assert (Hd : drop i lcs = lc :: drop (S i) lcs).
    { now apply drop_S. }
    rewrite Hd in Hb. simpl in Hb.
    assert (Hall' : Forall (fun lc => 0 <= cmdsize lc) (drop (S i) lcs))
      by now apply Forall_drop.
    assert (Hc : 0 <= cmdsize lc).
    { rewrite Forall_lookup in Hall. exact (Hall _ _ Hi). }
    pose proof (sum_cmdsize_nonneg _ Hall') as Hn.
    rewrite length_write_at_inside.
    + apply Hf; [assumption | assumption | lia].
    + lia.
    + pose proof (length_lc_bytes
                    (set_file_offset
                       (file_offset lc + sum_cmdsize (drop (S i) lcs)) lc) Hc).
      unfold flen in *. rewrite Hf; [simpl in *; lia | assumption | assumption | lia].
Qed.

Lemma length_to_le n v : length (to_le n v) = n.
Proof. revert v. induction n; intros v; simpl; [reflexivity | now rewrite IHn]. Qed.

Lemma length_bytes_of_mach_header h :
  flen (bytes_of_mach_header h) = sizeof_mach_header.
Proof.
  unfold bytes_of_mach_header, flen. now rewrite !length_app, !length_to_le.
Qed.

Lemma length_bytes_of_fat_arch fa :
  flen (bytes_of_fat_arch fa) = sizeof_fat_arch.
Proof.
  unfold bytes_of_fat_arch, flen. now rewrite !length_app, !length_to_le.
Qed.

(** Popping the last command of a table [lcs' ++ [lc']]. *)
Lemma remove_last_load_command_spec m1 a arch lcs' lc' :
  archs m1 !! a = Some arch ->
  load_commands arch = lcs' ++ [lc'] ->
  exists m' arch',
    remove_last_load_command m1 a = Some m'
    /\ archs m' = <[a := arch']> (archs m1)
    /\ load_commands arch' = lcs'
    /\ arch_fat_arch arch' = arch_fat_arch arch
    /\ file_size m' = file_size m1 /\ is_fat m' = is_fat m1
    /\ (0 <= cmdsize lc' -> 0 <= file_offset lc' ->
        file_offset lc' + cmdsize lc' <= flen (file m1) ->
        0 <= fa_offset (arch_fat_arch arch) ->
        fa_offset (arch_fat_arch arch) + sizeof_mach_header <= flen (file m1) ->
        length (file m') = length (file m1)).
Proof.
  intros Ha Hl. unfold remove_last_load_command. rewrite Ha, Hl, last_snoc.
  eexists _, _. split; [reflexivity|].
  split; [reflexivity|]. split.
  { simpl. rewrite length_app. simpl.
    replace (length lcs' + 1 - 1)%nat with (length lcs') by lia.
    apply take_app_length. }
  split; [reflexivity|]. split; [reflexivity|]. split; [reflexivity|].
  intros Hc Ho Hb Hfo Hh. simpl. unfold fzero, write_mach_header.
  pose proof (length_bytes_of_mach_header
                (set_counts (u32 (mh_ncmds (arch_mach_header arch) - 1))
                   (u32 (mh_sizeofcmds (arch_mach_header arch) - cmdsize lc'))
                   (arch_mach_header arch))) as Hhl.
  rewrite length_write_at_inside.
  - apply length_write_at_inside; simpl; [assumption | lia].
  - assumption.
  - unfold flen in *. rewrite length_replicate.
    rewrite length_write_at_inside; simpl; unfold flen; lia.
Qed.

(** [remove_load_command] returns for every command of the slice, takes
    that command out of the table, and keeps the length of a file that
    holds the table. *)
Lemma remove_load_command_spec m a arch i lc :
  archs m !! a = Some arch ->
  load_commands arch !! i = Some lc ->
  exists m' arch',
    remove_load_command m a i = Some m'
    /\ archs m' = <[a := arch']> (archs m)
    /\ strip <$> load_commands arch'
       = delete i (strip <$> load_commands arch)
    /\ arch_fat_arch arch' = arch_fat_arch arch
    /\ file_size m' = file_size m /\ is_fat m' = is_fat m
    /\ (Forall (fun lc => 0 <= cmdsize lc) (load_commands arch) ->
        0 <= file_offset lc ->
        file_offset lc + sum_cmdsize (drop i (load_commands arch))
        <= flen (file m) ->
        0 <= fa_offset (arch_fat_arch arch) ->
        fa_offset (arch_fat_arch arch) + sizeof_mach_header <= flen (file m) ->
        length (file m') = length (file m)).
Proof.
  intros Ha Hi. unfold remove_load_command. rewrite Ha.
  set (lcs := load_commands arch) in *.
  pose proof (lookup_lt_Some _ _ _ Hi) as Hlt.
  assert (Hdrop : drop i lcs = lc :: drop (S i) lcs) by now apply drop_S.
  destruct (decide (i = length lcs - 1)%nat) as [Hlast|Hnl].
  - (* the command is the last one: nothing moves *)
    assert (Hmoved : (if decide (1 < length lcs)%nat
                      then move_load_command m a i (length lcs - 1)
                      else Some m) = Some m).
    { destruct (decide (1 < length lcs)%nat); [|reflexivity].
      unfold move_load_command. now rewrite decide_True. }
    rewrite Hmoved.
    assert (Hl : lcs = take i lcs ++ [lc]).
    { rewrite <- (take_drop i lcs) at 1. rewrite Hdrop.
      now rewrite (drop_ge lcs (S i)) by lia. }
    destruct (remove_last_load_command_spec m a arch (take i lcs) lc Ha Hl)
      as (m' & arch' & Hr & Harchs & Hlcs & Hfa & Hfs & Hfat & Hlen).
    exists m', arch'. repeat (split; [assumption|]). split.
    + rewrite Hlcs, fmap_take, delete_take_drop.
      rewrite (drop_ge (strip <$> lcs)) by (rewrite length_fmap; lia).
      now rewrite app_nil_r.
    + repeat (split; [assumption|]).
      intros Hall H0 Hb Hfo Hh. rewrite Hdrop in Hb.
      rewrite (drop_ge lcs (S i)) in Hb by lia. simpl in Hb.
      apply Hlen; try assumption; try lia.
      rewrite Forall_lookup in Hall. exact (Hall _ _ Hi).
  - (* the command moves to the last place first *)
    rewrite decide_True by lia.
    destruct (move_lc_body_to_last (file m) lcs i lc Hi ltac:(lia))
      as (f' & lcs' & lc' & Hmv & Hstrip & Hlc' & Hoff & Hflen).
    rewrite (move_load_command_step m a arch _ _ f' (lcs' ++ [lc']) Ha) by
      (try lia; unfold move_lc; rewrite !decide_False by lia; exact Hmv).
    set (m1 := set_file f' _).
    assert (Ha1 : archs m1 !! a = Some (set_load_commands (lcs' ++ [lc']) arch)).
    { simpl. apply list_lookup_insert_eq. now apply lookup_lt_Some in Ha. }
    destruct (remove_last_load_command_spec m1 a _ lcs' lc' Ha1 eq_refl)
      as (m' & arch' & Hr & Harchs & Hlcs & Hfa & Hfs & Hfat & Hlen).
    exists m', arch'. split; [assumption|]. split.
    { rewrite Harchs. simpl. apply list_insert_insert_eq. }
    split; [now rewrite Hlcs|]. repeat (split; [assumption|]).
    intros Hall H0 Hb Hfo Hh.
    assert (Hc : 0 <= cmdsize lc).
    { rewrite Forall_lookup in Hall. exact (Hall _ _ Hi). }
    assert (Hc' : cmdsize lc' = cmdsize lc).
    { unfold strip in Hlc'. congruence. }
    assert (Hn : 0 <= sum_cmdsize (drop (S i) lcs))
      by now apply sum_cmdsize_nonneg, Forall_drop.
    specialize (Hflen Hall H0 Hb).
    rewrite Hdrop in Hb. simpl in Hb.
    rewrite Hlen; simpl; unfold flen in *; rewrite ?Hflen; try lia.
Qed.

(** ** Writing the fat entries *)

Lemma length_fat_entries magic (l : list MachOArch) :
  flen (concat (map (fun arch =>
                       bytes_of_fat_arch (swap_arch magic (arch_fat_arch arch)))
                  l))
  = sizeof_fat_arch * Z.of_nat (length l).
Proof.
  unfold flen. induction l as [|x l IH]; cbn [map concat].
  - reflexivity.
  - rewrite length_app.
    pose proof (length_bytes_of_fat_arch (swap_arch magic (arch_fat_arch x))) as H.
    unfold flen in H. cbn [length]. lia.
Qed.

(** [write_fat_archs] returns on every container that has a slice; it
    leaves the slices as they are, and the file as long as the fat entry of
    the first (thin) or last (fat) slice says. *)
Lemma write_fat_archs_spec m :
  archs m <> [] ->
  exists m2,
    write_fat_archs m = Some m2
    /\ archs m2 = archs m /\ is_fat m2 = is_fat m
    /\ (is_fat m = false ->
        forall arch0, head (archs m) = Some arch0 ->
        file_size m = flen (file m) -> 0 <= fa_size (arch_fat_arch arch0) ->
        flen (file m2) = fa_size (arch_fat_arch arch0))
    /\ (is_fat m = true -> 0 < n_archs m ->
        forall L, last (archs m) = Some L ->
        file_size m = flen (file m) ->
        sizeof_fat_header + sizeof_fat_arch * Z.of_nat (length (archs m))
        <= flen (file m) ->
        flen (file m2)
        = u32 (fa_offset (arch_fat_arch L) + fa_size (arch_fat_arch L))).
Proof.
  intros Hne. unfold write_fat_archs.
  destruct (is_fat m) eqn:Hfat; simpl negb; cbv iota.
  - (* fat *)
    set (entries := concat _).
    set (m1 := set_file (write_at (file m) sizeof_fat_header entries) m).
    assert (Hlen1 : sizeof_fat_header
                    + sizeof_fat_arch * Z.of_nat (length (archs m))
                    <= flen (file m) ->
                    flen (file m1) = flen (file m)).
    { intros Hb. unfold flen. f_equal. simpl.
      apply length_write_at_inside; [unfold sizeof_fat_header; lia|].
      unfold entries. rewrite length_fat_entries. exact Hb. }
    destruct (0 <? n_archs m) eqn:Hn.
    + destruct (last (archs m)) as [L|] eqn:HL;
        [|apply last_None in HL; contradiction].
      set (ns := u32 (fa_offset (arch_fat_arch L) + fa_size (arch_fat_arch L))).
      destruct (Z.eqb_spec ns (file_size m1)) as [E|E].
      * exists m1.
        split; [reflexivity|]. split; [reflexivity|]. split; [exact Hfat|].
        split; [discriminate|].
        intros _ _ L' HL' Hfs Hb. inversion HL'; subst L'.
        rewrite (Hlen1 Hb). fold ns. rewrite E. symmetry. exact Hfs.
      * eexists. split; [reflexivity|].
        split; [reflexivity|]. split; [exact Hfat|]. split; [discriminate|].
        intros _ _ L' HL' Hfs Hb. inversion HL'; subst L'.
        simpl. unfold flen. rewrite length_ftruncate. fold ns.
        pose proof (u32_range
                      (fa_offset (arch_fat_arch L) + fa_size (arch_fat_arch L))).
        fold ns in H. lia.
    + exists m1.
      split; [reflexivity|]. split; [reflexivity|]. split; [exact Hfat|].
      split; [discriminate|].
      intros _ Hpos. apply Z.ltb_ge in Hn. lia.
  - (* thin *)
    destruct (archs m) as [|arch0 rest] eqn:Ha; [contradiction|].
    destruct (Z.eqb_spec (file_size m) (fa_size (arch_fat_arch arch0))) as [E|E].
    + exists m.
      split; [reflexivity|]. split; [now symmetry|]. split; [exact Hfat|].
      split; [|discriminate].
      intros _ a0 H0 Hfs _. inversion H0; subst a0. congruence.
    + eexists. split; [reflexivity|].
      split; [simpl; now rewrite Ha|]. split; [exact Hfat|].
      split; [|discriminate].
      intros _ a0 H0 Hfs Hnn. inversion H0; subst a0.
      simpl. unfold flen. rewrite length_ftruncate. lia.
Qed.

(** ** Removing the code signature *)

Section RemoveCodesignatureFacts.

Variable segname : LoadCommand -> list byte.

Lemma scan_step_codesig_inv i lc s j :
  codesig_index (scan_step segname i lc s) = Some j ->
  codesig_index s = Some j \/ (j = i /\ cmd lc = LC_CODE_SIGNATURE).
Proof.
  destruct (Z.eq_dec (cmd lc) LC_CODE_SIGNATURE) as [E|E].
  - rewrite scan_step_codesig by assumption. intros H. right.
    inversion H. auto.
  - rewrite scan_step_other by assumption. now left.
Qed.

Lemma scan_from_codesig_inv lcs i s j :
  codesig_index (scan_from segname i lcs s) = Some j ->
  codesig_index s = Some j
  \/ exists lc, (i <= j)%nat /\ lcs !! (j - i)%nat = Some lc
        /\ cmd lc = LC_CODE_SIGNATURE.
Proof.
  revert i s. induction lcs as [|lc lcs IH]; intros i s; simpl.
  - now left.
  - intros H. destruct (IH _ _ H) as [H1 | (lc' & Hle & Hl & Hc)].
    + destruct (scan_step_codesig_inv _ _ _ _ H1) as [?|(-> & Hcs)];
        [now left|].
      right. exists lc. rewrite Nat.sub_diag. auto.
    + right. exists lc'. split; [lia|]. split; [|assumption].
      replace (j - i)%nat with (S (j - S i)) by lia. assumption.
Qed.

Lemma scan_codesig_cmd lcs ci :
  codesig_index (scan_load_commands segname lcs) = Some ci ->
  exists lc, lcs !! ci = Some lc /\ cmd lc = LC_CODE_SIGNATURE.
Proof.
  intros H. destruct (scan_from_codesig_inv _ _ _ _ H) as [H0|(lc & _ & Hl & Hc)].
  - discriminate.
  - exists lc. now rewrite Nat.sub_0_r in Hl.
Qed.

(** The selected segment command and the code-signature command are two
    different commands. *)
Lemma scan_indices_differ lcs ci li :
  codesig_index (scan_load_commands segname lcs) = Some ci ->
  linkedit_index (scan_load_commands segname lcs) = Some li ->
  ci <> li.
Proof.
  intros Hc Hl ->.
  destruct (scan_codesig_cmd _ _ Hc) as (lc & H1 & Hcmd).
  destruct (scan_selects_only_mismatches _ _ _ Hl) as (lc' & H2 & Hseg & _).
  rewrite H1 in H2. inversion H2; subst lc'.
  rewrite Hcmd in Hseg. destruct Hseg; discriminate.
Qed.

(** A refusal changes nothing. *)
Lemma remove_codesignature_false m a m' :
  remove_codesignature segname m a = Some (false, m') -> m' = m.
Proof.
  unfold remove_codesignature, write_shrunk.
  destruct (archs m !! a) as [arch|]; [|discriminate].
  destruct (codesig_index _) as [ci|]; [|intros H; now inversion H].
  destruct (linkedit_index _) as [li|]; [|intros H; now inversion H].
  destruct (load_commands arch !! ci) as [cs|]; [|discriminate].
  destruct (load_commands arch !! li) as [ll|]; [|discriminate].
  destruct (negb _); [intros H; now inversion H|].
  destruct (negb _); [intros H; now inversion H|].
  destruct (write_fat_archs _); [|discriminate].
  destruct (remove_load_command _ _ _); discriminate.
Qed.

(** Without a code-signature command, or without a selected segment, the
    method refuses. *)
Lemma remove_codesignature_missing m a arch :
  archs m !! a = Some arch ->
  codesig_index (scan_load_commands segname (load_commands arch)) = None
  \/ linkedit_index (scan_load_commands segname (load_commands arch)) = None ->
  remove_codesignature segname m a = Some (false, m).
Proof.
  intros Ha H. unfold remove_codesignature. rewrite Ha.
  destruct H as [-> | ->]; [reflexivity|].
  now destruct (codesig_index _).
Qed.

(** Once the two sums equal the slice's size, the method goes on to the
    updates and the writes. *)
Lemma remove_codesignature_run m a arch ci cs li ll :
  let magic := mh_magic (arch_mach_header arch) in
  let lcs := load_commands arch in
  let s := scan_load_commands segname lcs in
  let slice_size := fa_size (arch_fat_arch arch) in
  let linkedit_size := (linkedit_range magic ll).2 in
  let reduction :=
    size_reduction magic slice_size (datasize magic cs)
      (symtab_index s ≫= (lcs !!.)) in
  archs m !! a = Some arch ->
  codesig_index s = Some ci -> lcs !! ci = Some cs ->
  linkedit_index s = Some li -> lcs !! li = Some ll ->
  u32 (dataoff magic cs + datasize magic cs) = slice_size ->
  u64 ((linkedit_range magic ll).1 + linkedit_size) = slice_size ->
  remove_codesignature segname m a
  = write_shrunk
      (set_archs (<[a := shrink_slice arch li ll linkedit_size reduction]>
                    (archs m)) m)
      a ci (shrink_linkedit magic (u64 (linkedit_size - reduction)) ll).
Proof.
  intros magic lcs s slice_size linkedit_size reduction Ha Hci Hcs Hli Hll
    Hsum1 Hsum2.
  unfold remove_codesignature. rewrite Ha.
  fold magic lcs s. rewrite Hci, Hli, Hcs, Hll.
  fold slice_size. rewrite Hsum1, Z.eqb_refl. cbn [negb].
  fold linkedit_size. rewrite Hsum2, Z.eqb_refl. cbn [negb].
  reflexivity.
Qed.

Lemma remove_codesignature_codesig_mismatch m a arch ci cs :
  let magic := mh_magic (arch_mach_header arch) in
  let lcs := load_commands arch in
  archs m !! a = Some arch ->
  codesig_index (scan_load_commands segname lcs) = Some ci ->
  lcs !! ci = Some cs ->
  u32 (dataoff magic cs + datasize magic cs) <> fa_size (arch_fat_arch arch) ->
  remove_codesignature segname m a = Some (false, m).
Proof.
  intros magic lcs Ha Hci Hcs Hne.
  unfold remove_codesignature. rewrite Ha. fold magic lcs. rewrite Hci.
  destruct (linkedit_index _) as [li|] eqn:Hli; [|reflexivity].
  destruct (scan_selects_only_mismatches _ _ _ Hli) as (ll & Hll & _).
  rewrite Hcs, Hll.
  now destruct (Z.eqb_spec (u32 (dataoff magic cs + datasize magic cs))
                  (fa_size (arch_fat_arch arch))).
Qed.

Lemma shrink_linkedit_geometry magic sz lc :
  cmd (shrink_linkedit magic sz lc) = cmd lc
  /\ cmdsize (shrink_linkedit magic sz lc) = cmdsize lc
  /\ file_offset (shrink_linkedit magic sz lc) = file_offset lc.
Proof. unfold shrink_linkedit. now destruct (cmd lc =? LC_SEGMENT). Qed.

(** The final writes return, and remove command [ci] from the table. *)
Lemma write_shrunk_spec m1 a arch1 ci lc ll' :
  archs m1 !! a = Some arch1 ->
  load_commands arch1 !! ci = Some lc ->
  exists m2 m4 arch4,
    write_fat_archs m1 = Some m2
    /\ write_shrunk m1 a ci ll' = Some (true, m4)
    /\ archs m4 = <[a := arch4]> (archs m1)
    /\ strip <$> load_commands arch4
       = delete ci (strip <$> load_commands arch1)
    /\ arch_fat_arch arch4 = arch_fat_arch arch1
    /\ (Forall (fun lc => 0 <= cmdsize lc) (load_commands arch1) ->
        0 <= file_offset lc ->
        file_offset lc + sum_cmdsize (drop ci (load_commands arch1))
        <= flen (file m2) ->
        0 <= fa_offset (arch_fat_arch arch1) ->
        fa_offset (arch_fat_arch arch1) + sizeof_mach_header
        <= flen (file m2) ->
        0 <= cmdsize ll' -> 0 <= file_offset ll' ->
        file_offset ll' + cmdsize ll' <= flen (file m2) ->
        flen (file m4) = flen (file m2)).
Proof.
  intros Ha Hlc.
  assert (Hne : archs m1 <> []) by (intros E; now rewrite E in Ha).
  destruct (write_fat_archs_spec m1 Hne) as (m2 & Hw & Harchs & _ & _ & _).
  set (m3 := set_file (write_load_command (file m2) ll') m2).
  assert (Ha3 : archs m3 !! a = Some arch1) by (simpl; now rewrite Harchs).
  destruct (remove_load_command_spec m3 a arch1 ci lc Ha3 Hlc)
    as (m4 & arch4 & Hr & Harchs4 & Hstrip & Hfa & _ & _ & Hlen).
  exists m2, m4, arch4. split; [assumption|]. split.
  { unfold write_shrunk. rewrite Hw. fold m3. now rewrite Hr. }
  split; [rewrite Harchs4; simpl; now rewrite Harchs|].
  split; [assumption|]. split; [assumption|].
  intros Hall Ho Hb Hfo Hh Hc' Ho' Hb'.
  assert (Hl3 : length (file m3) = length (file m2)).
  { simpl. unfold write_load_command. apply length_write_at_inside.
    - assumption.
    - pose proof (length_lc_bytes ll' Hc'). lia. }
  unfold flen in *. rewrite Hlen; rewrite ?Hl3; try assumption; reflexivity.
Qed.

End RemoveCodesignatureFacts.



(** ** Sizes *)

Lemma Z_of_byte_range b : 0 <= Z_of_byte b < 256.
Proof.
  unfold Z_of_byte. pose proof (Byte.to_N_bounded b) as H.
  split; [apply N2Z.is_nonneg|]. lia.
Qed.

Lemma from_le_range bs : 0 <= from_le bs < 256 ^ Z.of_nat (length bs).
Proof.
  induction bs as [|b bs IH]; simpl from_le.
  - simpl. lia.
  - pose proof (Z_of_byte_range b) as Hb.
    cbn [length]. rewrite Nat2Z.inj_succ, Z.pow_succ_r by lia. lia.
Qed.

Lemma bswap32_range v : 0 <= bswap32 v < 2 ^ 32.
Proof.
  unfold bswap32. pose proof (from_le_range (rev (to_le 4 v))) as H.
  rewrite length_rev, length_to_le in H. exact H.
Qed.

Lemma SWAP32_range v magic : 0 <= SWAP32 v magic < 2 ^ 32.
Proof.
  unfold SWAP32. destruct (needs_swap magic);
    [apply bswap32_range | apply u32_range].
Qed.

Lemma get32_range raw off magic : 0 <= get32 raw off magic < 2 ^ 32.
Proof. apply SWAP32_range. Qed.

(** The reduction is the signature's size plus a gap of at most 16. *)
Lemma size_reduction_bounds magic slice_size ds symtab :
  0 <= ds <= slice_size -> slice_size <= UINT32_MAX ->
  ds <= size_reduction magic slice_size ds symtab <= ds + 16
  /\ size_reduction magic slice_size ds symtab <= slice_size.
Proof.
  intros Hds Hmax. unfold size_reduction.
  destruct symtab as [st|]; [|lia].
  pose proof (u32_range (stroff magic st + strsize magic st)) as Hu.
  set (d := slice_size - ds - u32 (stroff magic st + strsize magic st)) in *.
  destruct (Z.leb_spec 0 d); destruct (Z.leb_spec d 16); simpl; try lia.
  rewrite u32_small by (unfold UINT32_MAX in *; lia). lia.
Qed.

(** With a string table that ends below 2^32 the gap is the one between the
    end of the string table and the start of the signature. *)
Lemma size_reduction_tail_gap magic slice_size ds st :
  0 <= ds <= slice_size -> slice_size <= UINT32_MAX ->
  stroff magic st + strsize magic st <= UINT32_MAX ->
  size_reduction magic slice_size ds (Some st)
  = let tail_gap := (slice_size - ds) - (stroff magic st + strsize magic st) in
    if (0 <=? tail_gap) && (tail_gap <=? 16) then ds + tail_gap else ds.
Proof.
  intros Hds Hmax Hst. unfold size_reduction.
  pose proof (get32_range (raw_lc st) 16 magic) as H1.
  pose proof (get32_range (raw_lc st) 20 magic) as H2.
  fold (stroff magic st) in H1. fold (strsize magic st) in H2.
  rewrite (u32_small (stroff magic st + strsize magic st)) by lia.
  cbv zeta.
  set (d := slice_size - ds - (stroff magic st + strsize magic st)).
  destruct (Z.leb_spec 0 d); destruct (Z.leb_spec d 16); simpl; try reflexivity.
  apply u32_small. unfold UINT32_MAX in *. lia.
Qed.

(** ** The geometry of the table *)

Lemma sum_cmdsize_take_drop i l :
  sum_cmdsize (take i l) + sum_cmdsize (drop i l) = sum_cmdsize l.
Proof. rewrite <- sum_cmdsize_app. now rewrite take_drop. Qed.

Lemma lc_offsets_ok_lookup base l i lc :
  lc_offsets_ok base l = true -> l !! i = Some lc ->
  file_offset lc = base + sum_cmdsize (take i l).
Proof.
  revert base i. induction l as [|x l IH]; intros base i Hok Hi;
    [discriminate|].
  simpl in Hok. apply andb_true_iff in Hok as [H1 H2].
  apply Z.eqb_eq in H1. destruct i as [|i]; simpl in *.
  - inversion Hi; subst. lia.
  - rewrite (IH _ _ H2 Hi). lia.
Qed.

Lemma sum_cmdsize_ext l1 l2 :
  cmdsize <$> l1 = cmdsize <$> l2 -> sum_cmdsize l1 = sum_cmdsize l2.
Proof.
  revert l2. induction l1 as [|x l1 IH]; intros [|y l2] H; try discriminate.
  - reflexivity.
  - simpl in *. inversion H. rewrite (IH l2) by assumption. lia.
Qed.

Lemma sum_cmdsize_drop_insert i j (x y : LoadCommand) l :
  l !! j = Some y -> cmdsize x = cmdsize y ->
  sum_cmdsize (drop i (<[j := x]> l)) = sum_cmdsize (drop i l).
Proof.
  intros Hj Hc. apply sum_cmdsize_ext.
  rewrite !fmap_drop, list_fmap_insert. f_equal.
  apply list_insert_id. rewrite list_lookup_fmap, Hj. simpl. now rewrite Hc.
Qed.

Lemma last_insert {A} (l : list A) a x :
  (a < length l)%nat ->
  last (<[a := x]> l)
  = if decide (S a = length l) then Some x else last l.
Proof.
  intros Ha. rewrite !last_lookup, length_insert.
  destruct (decide (S a = length l)) as [E|E].
  - replace (pred (length l)) with a by lia.
    now apply list_lookup_insert_eq.
  - apply list_lookup_insert_ne. lia.
Qed.

Section Shrink.

Variable segname : LoadCommand -> list byte.

Lemma remove_codesignature_linkedit_mismatch m a arch ci cs li ll :
  let magic := mh_magic (arch_mach_header arch) in
  let lcs := load_commands arch in
  let s := scan_load_commands segname lcs in
  archs m !! a = Some arch ->
  codesig_index s = Some ci -> lcs !! ci = Some cs ->
  linkedit_index s = Some li -> lcs !! li = Some ll ->
  u64 ((linkedit_range magic ll).1 + (linkedit_range magic ll).2)
  <> fa_size (arch_fat_arch arch) ->
  remove_codesignature segname m a = Some (false, m).
Proof.
  intros magic lcs s Ha Hci Hcs Hli Hll Hne.
  unfold remove_codesignature. rewrite Ha. fold magic lcs s.
  rewrite Hci, Hli, Hcs, Hll.
  destruct (negb _); [reflexivity|].
  now destruct (Z.eqb_spec
                  (u64 ((linkedit_range magic ll).1 + (linkedit_range magic ll).2))
                  (fa_size (arch_fat_arch arch))).
Qed.

(** A success went through both checks and the final writes. *)
Lemma remove_codesignature_true_inv m a arch m' :
  let magic := mh_magic (arch_mach_header arch) in
  let lcs := load_commands arch in
  let s := scan_load_commands segname lcs in
  let slice_size := fa_size (arch_fat_arch arch) in
  archs m !! a = Some arch ->
  remove_codesignature segname m a = Some (true, m') ->
  exists ci cs li ll,
    codesig_index s = Some ci /\ lcs !! ci = Some cs
    /\ linkedit_index s = Some li /\ lcs !! li = Some ll
    /\ u32 (dataoff magic cs + datasize magic cs) = slice_size
    /\ let linkedit_size := (linkedit_range magic ll).2 in
       let reduction :=
         size_reduction magic slice_size (datasize magic cs)
           (symtab_index s ≫= (lcs !!.)) in
       write_shrunk
         (set_archs (<[a := shrink_slice arch li ll linkedit_size reduction]>
                       (archs m)) m)
         a ci (shrink_linkedit magic (u64 (linkedit_size - reduction)) ll)
       = Some (true, m').
Proof.
  intros magic lcs s slice_size Ha Hrun.
  destruct (codesig_index s) as [ci|] eqn:Hci.
  2:{ rewrite (remove_codesignature_missing segname m a arch Ha) in Hrun
        by (left; exact Hci). discriminate. }
  destruct (linkedit_index s) as [li|] eqn:Hli.
  2:{ rewrite (remove_codesignature_missing segname m a arch Ha) in Hrun
        by (right; exact Hli). discriminate. }
  destruct (scan_codesig_cmd segname lcs ci Hci) as (cs & Hcs & _).
  destruct (scan_selects_only_mismatches segname lcs li Hli) as (ll & Hll & _).
  destruct (Z.eq_dec (u32 (dataoff magic cs + datasize magic cs)) slice_size)
    as [E1|E1].
  2:{ rewrite (remove_codesignature_codesig_mismatch segname m a arch ci cs
                 Ha Hci Hcs E1) in Hrun. discriminate. }
  destruct (Z.eq_dec
              (u64 ((linkedit_range magic ll).1 + (linkedit_range magic ll).2))
              slice_size) as [E2|E2].
  2:{ rewrite (remove_codesignature_linkedit_mismatch m a arch ci cs li ll
                 Ha Hci Hcs Hli Hll E2) in Hrun. discriminate. }
  exists ci, cs, li, ll.
  repeat (split; [first [assumption | reflexivity]|]).
  cbv zeta. rewrite <- Hrun. symmetry.
  exact (remove_codesignature_run segname m a arch ci cs li ll
           Ha Hci Hcs Hli Hll E1 E2).
Qed.

End Shrink.

(** C4, as the code has it.  When the method succeeds on a slice whose
    signature (the last LC_CODE_SIGNATURE command of the table) and string
    table end below 2^32, the slice's size shrinks by the signature's
    [datasize], plus the gap between the end of the string table and the
    signature when the table has an LC_SYMTAB command (the last one is
    used) and that gap is between 0 and 16; so by at least [datasize] and at
    most [datasize + 16].  For the length of the file more is needed: the
    members describe the file, the load commands lie one behind the other
    behind the Mach-O header and in front of what is cut off, a thin
    container has its one slice cover the file, and in a fat container the
    fat table lies in front of the slice and the last slice ends the file.
    Then the file gets shorter by as much as the slice when the container
    is thin or the slice is the last one of a fat container, and keeps its
    length for any other slice of a fat container. *)
Theorem remove_codesignature_shrinks_slice
    (segname : LoadCommand -> list byte) (m m' : MachO) (a : nat)
    (arch : MachOArch) (cs : LoadCommand) :
  let magic := mh_magic (arch_mach_header arch) in
  let lcs := load_commands arch in
  let fa := arch_fat_arch arch in
  let symtab := last_cmd LC_SYMTAB lcs in
  archs m !! a = Some arch ->
  remove_codesignature segname m a = Some (true, m') ->
  last_cmd LC_CODE_SIGNATURE lcs = Some cs ->
  dataoff magic cs + datasize magic cs <= UINT32_MAX ->
  (forall st, symtab = Some st ->
              stroff magic st + strsize magic st <= UINT32_MAX) ->
  exists arch',
    archs m' !! a = Some arch'
    /\ let shrink := fa_size fa - fa_size (arch_fat_arch arch') in
       datasize magic cs <= shrink <= datasize magic cs + 16
       /\ shrink
          = match symtab with
            | Some st =>
                let tail_gap :=
                  (fa_size fa - datasize magic cs)
                  - (stroff magic st + strsize magic st) in
                if (0 <=? tail_gap) && (tail_gap <=? 16)
                then datasize magic cs + tail_gap
                else datasize magic cs
            | None => datasize magic cs
            end
       /\ forall base,
            file_size m = flen (file m) ->
            flen (file m) <= UINT32_MAX ->
            0 <= fa_offset fa ->
            fa_offset fa + sizeof_mach_header <= base ->
            lc_offsets_ok base lcs = true ->
            Forall (fun lc => 0 <= cmdsize lc) lcs ->
            base + sum_cmdsize lcs + datasize magic cs + 16
            <= fa_offset fa + fa_size fa ->
            fa_offset fa + fa_size fa <= flen (file m) ->
            (is_fat m = false -> a = 0%nat /\ fa_size fa = file_size m) ->
            (is_fat m = true ->
             0 < n_archs m
             /\ sizeof_fat_header
                + sizeof_fat_arch * Z.of_nat (length (archs m))
                <= fa_offset fa
             /\ exists L, last (archs m) = Some L
                  /\ fa_offset (arch_fat_arch L) + fa_size (arch_fat_arch L)
                     = file_size m) ->
            (is_fat m = false \/ S a = length (archs m) ->
             flen (file m') = flen (file m) - shrink)
            /\ (is_fat m = true -> (S a < length (archs m))%nat ->
                flen (file m') = flen (file m)).
Proof.
  intros magic lcs fa symtab Ha Hrun Hcs0 Hsig Hstr.
  set (s := scan_load_commands segname lcs).
  assert (Hsym : symtab_index s ≫= (lcs !!.) = symtab)
    by apply (scan_symtab_last_cmd segname lcs).
  assert (Hcod : codesig_index s ≫= (lcs !!.) = Some cs).
  { rewrite <- Hcs0. apply (scan_codesig_last_cmd segname lcs). }
  clear Hcs0. rename Hcod into Hcs0.
  destruct (remove_codesignature_true_inv segname m a arch m' Ha Hrun)
    as (ci & cs' & li & ll & Hci & Hcs & Hli & Hll & Hsum & Hw).
  fold magic lcs s fa in Hci, Hcs, Hli, Hll, Hsum, Hw.
  rewrite Hci in Hcs0. simpl in Hcs0. rewrite Hcs in Hcs0.
  inversion Hcs0; subst cs'. clear Hcs0.
  rewrite Hsym in Hw. cbv zeta in Hw.
  set (ds := datasize magic cs) in *.
  set (sz := fa_size fa) in *.
  set (red := size_reduction magic sz ds symtab) in *.
  set (ls := (linkedit_range magic ll).2) in *.
  set (ll' := shrink_linkedit magic (u64 (ls - red)) ll) in *.
  set (arch1 := shrink_slice arch li ll ls red) in *.
  set (m1 := set_archs (<[a := arch1]> (archs m)) m) in *.
  (* sizes *)
  pose proof (get32_range (raw_lc cs) 8 magic) as Hdo.
  pose proof (get32_range (raw_lc cs) 12 magic) as Hdz.
  fold (dataoff magic cs) in Hdo. fold (datasize magic cs) in Hdz.
  fold ds in Hdz, Hsig, Hsum.
  rewrite u32_small in Hsum by lia.
  assert (Hsz : 0 <= ds <= sz) by lia.
  assert (Hszmax : sz <= UINT32_MAX) by lia.
  destruct (size_reduction_bounds magic sz ds symtab Hsz Hszmax) as [Hr1 Hr2].
  fold red in Hr1, Hr2.
  assert (Hnew : fa_size (arch_fat_arch arch1) = sz - red).
  { simpl. fold fa sz. apply u32_small. lia. }
  (* the table *)
  pose proof (lookup_lt_Some _ _ _ Ha) as Halt.
  assert (Ha1 : archs m1 !! a = Some arch1)
    by (simpl; now apply list_lookup_insert_eq).
  assert (Hne : ci <> li) by exact (scan_indices_differ segname lcs ci li Hci Hli).
  destruct (shrink_linkedit_geometry magic (u64 (ls - red)) ll)
    as (_ & Hgc & Hgo).
  fold ll' in Hgc, Hgo.
  assert (Hlc : load_commands arch1 !! ci = Some cs).
  { change (load_commands arch1) with (<[li := ll']> lcs).
    rewrite list_lookup_insert_ne by auto. exact Hcs. }
  destruct (write_shrunk_spec m1 a arch1 ci cs ll' Ha1 Hlc)
    as (m2 & m4 & arch4 & Hwf & Hrun4 & Harchs & _ & Hfa4 & Hlen).
  rewrite Hrun4 in Hw. inversion Hw; subst m4. clear Hw.
  exists arch4. split.
  { rewrite Harchs. apply list_lookup_insert_eq.
    now apply lookup_lt_Some in Ha1. }
  cbv zeta. rewrite Hfa4, Hnew.
  replace (sz - (sz - red)) with red by lia.
  split; [exact Hr1|]. split.
  { destruct symtab as [st|] eqn:Hst.
    - unfold red.
      rewrite (size_reduction_tail_gap magic sz ds st Hsz Hszmax (Hstr st eq_refl)).
      reflexivity.
    - reflexivity. }
  (* the length of the file *)
  intros base Hfs Hmax Hoff Hbase Hok Hall Htab Hin Hthin Hfatc.
  assert (Hne1 : archs m1 <> []) by (intros E; now rewrite E in Ha1).
  destruct (write_fat_archs_spec m1 Hne1)
    as (m2' & Hwf' & _ & _ & Hthinlen & Hfatlen).
  rewrite Hwf in Hwf'. inversion Hwf'; subst m2'. clear Hwf'.
  (* the length of the file after the fat entries are written *)
  assert (HN : fa_offset fa + sz - red <= flen (file m2)
               /\ (is_fat m = false \/ S a = length (archs m) ->
                   flen (file m2) = flen (file m) - red)
               /\ (is_fat m = true -> (S a < length (archs m))%nat ->
                   flen (file m2) = flen (file m))).
  { destruct (is_fat m) eqn:Hf.
    - destruct (Hfatc eq_refl) as (Hn & Hent & L & HL & HLsum).
      assert (Hlast1 : last (archs m1)
                       = if decide (S a = length (archs m))
                         then Some arch1 else Some L).
      { simpl. rewrite last_insert by assumption. now rewrite HL. }
      assert (Hent1 : sizeof_fat_header
                      + sizeof_fat_arch * Z.of_nat (length (archs m1))
                      <= flen (file m1)).
      { simpl. rewrite length_insert. lia. }
      destruct (decide (S a = length (archs m))) as [E|E].
      + assert (HLa : L = arch).
        { rewrite last_lookup in HL.
          replace (pred (length (archs m))) with a in HL by lia. congruence. }
        subst L. fold fa sz in HLsum.
        rewrite (Hfatlen Hf Hn arch1 Hlast1 Hfs Hent1).
        rewrite Hnew. change (fa_offset (arch_fat_arch arch1)) with (fa_offset fa).
        rewrite u32_small by lia.
        split; [lia|]. split; [intros _; lia | intros _ Hlt; lia].
      + rewrite (Hfatlen Hf Hn L Hlast1 Hfs Hent1).
        rewrite HLsum, u32_small by lia.
        split; [lia|]. split; [intros [?|?]; [discriminate | contradiction] |].
        intros _ _. exact Hfs.
    - destruct (Hthin eq_refl) as [-> Hsize]. fold sz in Hsize.
      assert (Hhead : head (archs m1) = Some arch1).
      { simpl. destruct (archs m) as [|x rest]; [discriminate | reflexivity]. }
      rewrite (Hthinlen Hf arch1 Hhead Hfs) by (rewrite Hnew; lia).
      rewrite Hnew.
      split; [lia|]. split; [intros _; lia | intros Hc; discriminate]. }
  destruct HN as (HNlow & HNend & HNmid).
  (* the writes that follow stay inside the file *)
  pose proof (sum_cmdsize_nonneg _ Hall) as Hsum0.
  assert (Hgeo : forall i lc, lcs !! i = Some lc ->
                 0 <= file_offset lc
                 /\ file_offset lc + sum_cmdsize (drop i lcs) <= flen (file m2)
                 /\ 0 <= cmdsize lc
                 /\ file_offset lc + cmdsize lc <= flen (file m2)).
  { intros i lc Hi.
    pose proof (lc_offsets_ok_lookup base lcs i lc Hok Hi) as Ho.
    pose proof (sum_cmdsize_take_drop i lcs) as Htd.
    assert (Ht0 : 0 <= sum_cmdsize (take i lcs))
      by now apply sum_cmdsize_nonneg, Forall_take.
    assert (Hd0 : 0 <= sum_cmdsize (drop (S i) lcs))
      by now apply sum_cmdsize_nonneg, Forall_drop.
    assert (Hc : 0 <= cmdsize lc).
    { rewrite Forall_lookup in Hall. exact (Hall _ _ Hi). }
    assert (Hd : sum_cmdsize (drop i lcs)
                 = cmdsize lc + sum_cmdsize (drop (S i) lcs)).
    { now rewrite (drop_S _ _ _ Hi). }
    unfold sizeof_mach_header in *. lia. }
  destruct (Hgeo ci cs Hcs) as (Hc0 & Hc1 & _ & _).
  destruct (Hgeo li ll Hll) as (Hl0 & _ & Hl2 & Hl3).
  assert (Hlen4 : flen (file m') = flen (file m2)).
  { apply Hlen.
    - change (load_commands arch1) with (<[li := ll']> lcs).
      apply Forall_insert; [assumption | lia].
    - assumption.
    - change (load_commands arch1) with (<[li := ll']> lcs).
      rewrite (sum_cmdsize_drop_insert ci li ll' ll lcs Hll Hgc). assumption.
    - assumption.
    - change (fa_offset (arch_fat_arch arch1)) with (fa_offset fa).
      unfold sizeof_mach_header in *. lia.
    - lia.
    - lia.
    - lia. }
  split.
  - intros Hc. rewrite Hlen4. now apply HNend.
  - intros Hf Hlt. rewrite Hlen4. now apply HNmid.
Qed.

Lemma remove_codesignature_shrinks_slice_witness :
  exists m' arch',
    remove_codesignature payload_segname padded_signed 0 = Some (true, m')
    /\ archs m' !! 0%nat = Some arch'
    /\ 8192 - fa_size (arch_fat_arch arch') = 256 + 8
    /\ flen (file m') = 8192 - (256 + 8).
Proof.
  assert (E : exists m',
             remove_codesignature payload_segname padded_signed 0
             = Some (true, m')) by (eexists; vm_compute; reflexivity).
  destruct E as [m' E].
  destruct (remove_codesignature_shrinks_slice payload_segname padded_signed
              m' 0 padded_signed_arch
              (LoadCommand_of_raw MH_MAGIC_64 128
                 (linkedit_data_command LC_CODE_SIGNATURE 7936 256)))
    as (arch' & Ha & _ & Hshrink & Hfile).
  - reflexivity.
  - exact E.
  - reflexivity.
  - vm_compute. discriminate.
  - intros st Hst. vm_compute in Hst. inversion Hst; subst st.
    vm_compute. discriminate.
  - destruct (Hfile 32) as [Hend _].
    + reflexivity.
    + vm_compute. discriminate.
    + vm_compute. discriminate.
    + vm_compute. discriminate.
    + reflexivity.
    + repeat (apply Forall_cons; split; [vm_compute; discriminate|]).
      apply Forall_nil. exact I.
    + vm_compute. discriminate.
    + vm_compute. discriminate.
    + intros _. split; reflexivity.
    + intros H. discriminate H.
    + exists m', arch'. split; [exact E|]. split; [exact Ha|].
      split.
      * change (fa_size (arch_fat_arch padded_signed_arch)
                - fa_size (arch_fat_arch arch') = 256 + 8).
        rewrite Hshrink. reflexivity.
      * rewrite (Hend (or_introl eq_refl)), Hshrink. reflexivity.
Defined.

(** * Further properties of the methods *)

(** ** Words and bytes *)

Lemma Z_of_byte_of_Z z : Z_of_byte (byte_of_Z z) = z mod 256.
Proof.
  unfold Z_of_byte, byte_of_Z.
  pose proof (Z.mod_pos_bound z 256 ltac:(lia)) as Hm.
  destruct (Byte.of_N (Z.to_N (z mod 256))) as [b|] eqn:E.
  - apply Byte.to_of_N in E. simpl. rewrite E. lia.
  - apply Byte.of_N_None_iff in E. lia.
Qed.

Lemma byte_of_Z_of_byte b r : byte_of_Z (Z_of_byte b + 256 * r) = b.
Proof.
  unfold byte_of_Z. pose proof (Z_of_byte_range b) as Hb.
  replace ((Z_of_byte b + 256 * r) mod 256) with (Z_of_byte b).
  - unfold Z_of_byte. rewrite N2Z.id, Byte.of_to_N. reflexivity.
  - apply (Z.mod_unique_pos _ 256 r); lia.
Qed.

Lemma from_le_to_le n v : from_le (to_le n v) = v mod 256 ^ Z.of_nat n.
Proof.
  revert v. induction n as [|n IH]; intros v.
  - simpl. now rewrite Z.mod_1_r.
  - cbn [to_le from_le]. rewrite IH, Z_of_byte_of_Z.
    rewrite Nat2Z.inj_succ, Z.pow_succ_r by lia.
    rewrite (Z.rem_mul_r v 256 (256 ^ Z.of_nat n)) by lia. reflexivity.
Qed.

Lemma to_le_from_le bs : to_le (length bs) (from_le bs) = bs.
Proof.
  induction bs as [|b bs IH]; [reflexivity|].
  cbn [length to_le from_le]. rewrite byte_of_Z_of_byte. f_equal.
  pose proof (Z_of_byte_range b) as Hb.
  replace ((Z_of_byte b + 256 * from_le bs) / 256) with (from_le bs);
    [exact IH|].
  apply (Z.div_unique_pos _ 256 _ (Z_of_byte b)); lia.
Qed.

Lemma from_le_to_le_32 v : from_le (to_le 4 v) = u32 v.
Proof. now rewrite from_le_to_le. Qed.

Lemma bswap32_involutive v : bswap32 (bswap32 v) = u32 v.
Proof.
  unfold bswap32.
  rewrite <- (length_to_le 4 v) at 1.
  rewrite <- (length_rev (to_le 4 v)).
  rewrite to_le_from_le, rev_involutive. apply from_le_to_le_32.
Qed.

Lemma u32_idemp z : u32 (u32 z) = u32 z.
Proof. unfold u32. apply Z.mod_mod. lia. Qed.

Lemma u32_bswap32 v : u32 (bswap32 v) = bswap32 v.
Proof.
  apply Z.mod_small. apply bswap32_range.
Qed.

(** Swapping twice under one magic gives the 32-bit value back. *)
Lemma SWAP32_involutive v magic : SWAP32 (SWAP32 v magic) magic = u32 v.
Proof.
  unfold SWAP32. destruct (needs_swap magic).
  - rewrite u32_bswap32, bswap32_involutive. apply u32_idemp.
  - now rewrite !u32_idemp.
Qed.

Lemma SWAP32_same_swap v m1 m2 :
  needs_swap m1 = needs_swap m2 -> SWAP32 v m1 = SWAP32 v m2.
Proof. unfold SWAP32. now intros ->. Qed.


Lemma u32_s32 z : u32 (s32 z) = u32 z.
Proof.
  unfold s32. destruct (u32 z <? 2 ^ 31); [apply u32_idemp|].
  unfold u32. rewrite <- (Z.mod_add _ 1) by lia.
  replace (z mod 2 ^ 32 - 2 ^ 32 + 1 * 2 ^ 32) with (z mod 2 ^ 32) by lia.
  apply Z.mod_mod. lia.
Qed.

Lemma u32_SWAP32 v magic : u32 (SWAP32 v magic) = SWAP32 v magic.
Proof. apply Z.mod_small. apply SWAP32_range. Qed.

Lemma SWAP32_u32 v magic : SWAP32 (u32 v) magic = SWAP32 v magic.
Proof. unfold SWAP32. now rewrite u32_idemp. Qed.

Lemma swap_arch_involutive magic a :
  fat_arch_in_range a -> swap_arch magic (swap_arch magic a) = a.
Proof.
  intros (H1 & H2 & H3 & H4 & H5). destruct a as [c s o z al].
  unfold swap_arch. simpl in *. rewrite !SWAP32_involutive. congruence.
Qed.

(** X1.  The entry the constructor builds for a thin file, once brought to
    host order by [swap_arch]: offset 0, the size of the file, the CPU type
    and subtype of the Mach-O header read under the header's own magic, and
    the alignment [cpu_pagesize] gives; the fat magic plays no part. *)
Theorem arch_from_mach_header_host_order (cpu_pagesize : Z -> Z)
    (fat_magic : Z) (mh : mach_header) (size : Z) :
  swap_arch fat_magic (arch_from_mach_header cpu_pagesize fat_magic mh size)
  = mk_fat_arch (SWAP32 (mh_cputype mh) (mh_magic mh))
      (SWAP32 (mh_cpusubtype mh) (mh_magic mh)) 0 (u32 size)
      (u32 (cpu_pagesize (s32 (SWAP32 (mh_cputype mh) (mh_magic mh))))).
Proof.
  unfold arch_from_mach_header, swap_arch. simpl.
  rewrite !SWAP32_involutive.
  rewrite u32_s32, !u32_SWAP32, u32_idemp. reflexivity.
Qed.

(** ** More on writing into the file *)

Lemma write_at_0 (f d : list byte) : write_at f 0 d = d ++ drop (length d) f.
Proof.
  unfold write_at. destruct d as [|b d]; [now rewrite drop_0|].
  change (Z.to_nat 0) with 0%nat. rewrite take_0. reflexivity.
Qed.

Lemma length_read_at f off len :
  0 <= off -> 0 <= len -> off + len <= flen f ->
  length (read_at f off len) = Z.to_nat len.
Proof.
  unfold read_at, flen. intros. rewrite length_take, length_drop. lia.
Qed.

(** A second write of as many bytes at the same place replaces the first. *)
Lemma write_at_overwrite f off (d1 d2 : list byte) :
  length d1 = length d2 ->
  write_at (write_at f off d1) off d2 = write_at f off d2.
Proof.
  intros Hl. destruct d2 as [|b2 d2].
  { destruct d1; [reflexivity | discriminate]. }
  destruct d1 as [|b1 d1]; [discriminate|].
  unfold write_at. set (o := Z.to_nat off).
  set (D1 := b1 :: d1) in *. set (D2 := b2 :: d2) in *.
  set (pad := replicate (o - length f) x00).
  assert (Hhead : length (take o f ++ pad) = o).
  { unfold pad. rewrite length_app, length_take, length_replicate. lia. }
  rewrite (app_assoc (take o f) pad).
  rewrite take_app_length' by (symmetry; exact Hhead).
  rewrite (app_assoc (take o f ++ pad) D1).
  rewrite drop_app_length' by (rewrite length_app, Hhead; lia).
  assert (Hg : (o <= length (((take o f ++ pad) ++ D1)
                               ++ drop (o + length D1) f))%nat).
  { rewrite (length_app (_ ++ D1)), (length_app _ D1), Hhead. lia. }
  replace (o - length (((take o f ++ pad) ++ D1) ++ drop (o + length D1) f))%nat
    with 0%nat by lia.
  simpl replicate. rewrite Hl, <- !app_assoc. reflexivity.
Qed.

(** ** Thin and fat containers *)

(** X2.  [make_thin] leaves exactly the bytes of the chosen slice, the same
    bytes [save_arch_to_file] writes to the new file, whenever the slice
    lies inside the file. *)
Theorem make_thin_extracts_slice (m : MachO) (i : nat) (arch : MachOArch) :
  is_fat m = true ->
  archs m !! i = Some arch ->
  0 <= fa_offset (arch_fat_arch arch) ->
  0 <= fa_size (arch_fat_arch arch) ->
  fa_offset (arch_fat_arch arch) + fa_size (arch_fat_arch arch)
  <= flen (file m) ->
  exists m',
    make_thin m i = Some m'
    /\ file m' = read_at (file m) (fa_offset (arch_fat_arch arch))
                   (fa_size (arch_fat_arch arch))
    /\ save_arch_to_file m i = Some (file m')
    /\ flen (file m') = fa_size (arch_fat_arch arch)
    /\ file_size m' = fa_size (arch_fat_arch arch)
    /\ archs m' = [arch] /\ is_fat m' = false /\ n_archs m' = 1.
Proof.
  intros Hfat Ha Ho Hs Hin.
  set (off := fa_offset (arch_fat_arch arch)) in *.
  set (sz := fa_size (arch_fat_arch arch)) in *.
  set (data := read_at (file m) off sz).
  assert (Hd : length data = Z.to_nat sz) by now apply length_read_at.
  assert (Hfile : ftruncate (fmove (file m) 0 off sz) sz = data).
  { unfold fmove. fold data. rewrite write_at_0. now apply ftruncate_cut. }
  eexists. split.
  { unfold make_thin. rewrite Hfat, Ha. simpl negb. cbv iota.
    fold off sz. rewrite Hfile. reflexivity. }
  simpl. split; [reflexivity|]. split.
  { unfold save_arch_to_file, fcpy. rewrite Ha. fold off sz data.
    rewrite write_at_0. simpl drop. now rewrite drop_nil, app_nil_r. }
  split; [unfold flen; lia|]. repeat split; reflexivity.
Qed.

Lemma make_thin_extracts_slice_witness :
  exists m',
    make_thin (tiny_fat 7) 0 = Some m'
    /\ file m' = read_at (file (tiny_fat 7)) 64 28
    /\ save_arch_to_file (tiny_fat 7) 0 = Some (file m')
    /\ flen (file m') = 28.
Proof.
  destruct (make_thin_extracts_slice (tiny_fat 7) 0 (tiny_arch 7))
    as (m' & H1 & H2 & H3 & H4 & _).
  - reflexivity.
  - reflexivity.
  - vm_compute. discriminate.
  - vm_compute. discriminate.
  - vm_compute. discriminate.
  - exists m'. repeat split; assumption.
Defined.



(** X4.  Removing the only slice of a fat container leaves a file of eight
    bytes, the fat header with a count of zero, whatever the file held. *)
Theorem remove_arch_only_slice (m : MachO) (arch : MachOArch) :
  is_fat m = true ->
  archs m = [arch] ->
  n_archs m = 1 ->
  remove_arch m 0
  = Some (mk_MachO
            (to_le 4 (fat_magic m) ++ to_le 4 (SWAP32 0 (fat_magic m)))
            sizeof_fat_header true (fat_magic m) 0 []).
Proof.
  destruct m as [f fs isf fm na ars].
  cbn [is_fat archs n_archs fat_magic]. intros -> -> ->.
  unfold remove_arch, write_fat_header, write_fat_archs.
  cbn -[write_at to_le ftruncate fzero SWAP32 u32].
  change (u32 (1 - 1)) with 0. change (Z.to_nat 0) with 0%nat.
  cbn -[write_at to_le ftruncate fzero SWAP32].
  rewrite write_at_0.
  unfold set_file_size, set_file.
  cbn -[write_at to_le ftruncate fzero SWAP32].
  rewrite decide_True by lia. unfold write_at at 1.
  rewrite ftruncate_cut by now rewrite length_app, !length_to_le.
  reflexivity.
Qed.

Lemma remove_arch_only_slice_witness :
  remove_arch (tiny_fat 7) 0
  = Some (mk_MachO (to_le 4 FAT_CIGAM ++ to_le 4 (SWAP32 0 FAT_CIGAM))
            sizeof_fat_header true FAT_CIGAM 0 []).
Proof.
  apply (remove_arch_only_slice (tiny_fat 7) (tiny_arch 7));
    reflexivity.
Defined.

(** ** The file type *)

(** X5.  Of two changes of a slice's file type the second one wins: file
    and headers are as after the second change alone. *)
Theorem change_file_type_last_wins (m : MachO) (a : nat) (arch : MachOArch)
    (t1 t2 : Z) :
  archs m !! a = Some arch ->
  change_file_type m a t1 ≫= (fun m1 => change_file_type m1 a t2)
  = change_file_type m a t2.
Proof.
  intros Ha. pose proof (lookup_lt_Some _ _ _ Ha) as Hlt.
  unfold change_file_type. rewrite Ha.
  cbn [mbind option_bind archs set_file set_archs].
  rewrite list_lookup_insert_eq by assumption.
  cbn [file set_file set_archs archs file_size is_fat fat_magic n_archs
       arch_mach_header set_arch_mach_header arch_fat_arch load_commands
       mh_magic mh_cputype mh_cpusubtype mh_filetype mh_ncmds mh_sizeofcmds
       mh_flags].
  unfold write_mach_header.
  cbn [arch_fat_arch set_arch_mach_header arch_mach_header].
  rewrite write_at_overwrite
    by (apply Nat2Z.inj; pose proof length_bytes_of_mach_header as H;
        unfold flen in H; now rewrite !H).
  rewrite list_insert_insert_eq. reflexivity.
Qed.

Lemma change_file_type_last_wins_witness :
  change_file_type three_commands 0 6
    ≫= (fun m1 => change_file_type m1 0 8)
  = change_file_type three_commands 0 8.
Proof.
  apply (change_file_type_last_wins three_commands 0 three_arch).
  reflexivity.
Defined.

(** ** The file under the moves of load commands *)

Lemma write_at_nonempty f off (d : list byte) :
  d <> [] ->
  write_at f off d
  = take (Z.to_nat off) f ++ replicate (Z.to_nat off - length f) x00
      ++ d ++ drop (Z.to_nat off + length d) f.
Proof. destruct d; [contradiction | reflexivity]. Qed.

(** Two writes, one behind the other, are one write. *)
Lemma write_at_app f off (d1 d2 : list byte) :
  0 <= off ->
  write_at (write_at f off d1) (off + flen d1) d2 = write_at f off (d1 ++ d2).
Proof.
  intros Hoff. unfold flen.
  destruct (decide (d1 = [])) as [->|H1].
  { simpl. now rewrite Z.add_0_r. }
  destruct (decide (d2 = [])) as [->|H2].
  { now rewrite app_nil_r. }
  assert (H12 : d1 ++ d2 <> []) by (destruct d1; [contradiction | discriminate]).
  rewrite (write_at_nonempty f off d1 H1), (write_at_nonempty _ _ d2 H2),
    (write_at_nonempty f off _ H12).
  set (o := Z.to_nat off).
  set (pad := replicate (o - length f) x00).
  assert (Hhead : length (take o f ++ pad) = o).
  { unfold pad. rewrite length_app, length_take, length_replicate. lia. }
  rewrite (app_assoc (take o f) pad), (app_assoc (take o f ++ pad) d1).
  set (T := drop (o + length d1) f).
  assert (Hpre : length ((take o f ++ pad) ++ d1) = (o + length d1)%nat)
    by (rewrite length_app, Hhead; reflexivity).
  replace (Z.to_nat (off + Z.of_nat (length d1))) with (o + length d1)%nat
    by (unfold o; lia).
  rewrite take_app_length' by (symmetry; exact Hpre).
  replace (o + length d1 - length (((take o f ++ pad) ++ d1) ++ T))%nat
    with 0%nat by (rewrite length_app, Hpre; lia).
  rewrite drop_app_ge by (rewrite Hpre; lia).
  rewrite Hpre. unfold T. rewrite drop_drop.
  replace (o + length d1 + (o + length d1 + length d2 - (o + length d1)))%nat
    with (o + length (d1 ++ d2))%nat by (rewrite length_app; lia).
  simpl replicate. rewrite <- !app_assoc. reflexivity.
Qed.

Lemma lc_bytes_sized lc : lc_sized lc -> lc_bytes lc = raw_lc lc.
Proof. apply lc_bytes_whole. Qed.

(** The loop of the move sends the payloads of the block out as one run of
    bytes, and lays the records out one behind the other. *)
Lemma slide_file f o l :
  0 <= o -> Forall lc_sized l ->
  (slide f o l).1.1 = write_at f o (concat (raw_lc <$> l)).
Proof.
  intros Ho Hl. revert f o Ho.
  induction Hl as [|lc l Hlc Hl IH]; intros f o Ho; [reflexivity|].
  cbn [slide fmap list_fmap concat].
  specialize (IH (write_at f o (lc_bytes (set_file_offset o lc)))
                (o + cmdsize (set_file_offset o lc))).
  destruct (slide _ _ l) as [[f' o'] l']. cbn [fst snd] in *.
  assert (Hc : 0 <= cmdsize lc) by (unfold lc_sized, flen in Hlc; lia).
  rewrite IH by (simpl; lia).
  rewrite lc_bytes_set_file_offset, lc_bytes_sized by assumption.
  cbn [cmdsize set_file_offset]. rewrite <- Hlc.
  now apply write_at_app.
Qed.

Lemma slide_offsets f o l : lc_offsets_ok o (slide f o l).2 = true.
Proof.
  revert f o. induction l as [|lc l IH]; intros f o; [reflexivity|].
  cbn [slide].
  specialize (IH (write_at f o (lc_bytes (set_file_offset o lc)))
                (o + cmdsize (set_file_offset o lc))).
  destruct (slide _ _ l) as [[f' o'] l']. cbn [fst snd] in *.
  cbn [lc_offsets_ok file_offset set_file_offset cmdsize] in *.
  now rewrite Z.eqb_refl, IH.
Qed.

Lemma lc_offsets_ok_app base l1 l2 :
  lc_offsets_ok base (l1 ++ l2)
  = lc_offsets_ok base l1 && lc_offsets_ok (base + sum_cmdsize l1) l2.
Proof.
  revert base. induction l1 as [|x l1 IH]; intros base; simpl.
  - now rewrite Z.add_0_r.
  - rewrite IH, andb_assoc. do 2 f_equal. lia.
Qed.

Lemma sum_cmdsize_strip l1 l2 :
  strip <$> l1 = strip <$> l2 -> sum_cmdsize l1 = sum_cmdsize l2.
Proof.
  intros H. apply sum_cmdsize_ext.
  apply (f_equal (fmap (fun t : Z * Z * list byte => t.1.2))) in H.
  now rewrite <- !list_fmap_compose in H.
Qed.

Lemma flen_concat_raw l :
  Forall lc_sized l -> flen (concat (raw_lc <$> l)) = sum_cmdsize l.
Proof.
  induction 1 as [|x l Hx _ IH]; [reflexivity|].
  cbn [fmap list_fmap concat sum_cmdsize foldr].
  unfold flen in *. rewrite length_app. unfold lc_sized, flen in Hx.
  fold (sum_cmdsize l). lia.
Qed.

(** The body of [move_load_command] for [i < j]: the bytes written and the
    vector left. *)
Lemma move_lc_body_effect f lcs i j lc :
  lcs !! i = Some lc -> (i < j < length lcs)%nat ->
  Forall lc_sized lcs -> 0 <= file_offset lc ->
  let block := take (j - i) (drop (S i) lcs) in
  exists block' lc',
    move_lc_body f lcs i j
    = Some (write_at f (file_offset lc)
              (concat (raw_lc <$> block) ++ raw_lc lc),
            take i lcs ++ block' ++ drop (S j) lcs ++ [lc'])
    /\ strip <$> block' = strip <$> block
    /\ strip lc' = strip lc
    /\ lc_offsets_ok (file_offset lc) (block' ++ [lc']) = true.
Proof.
  intros Hi Hij Hall H0 block.
  assert (Hlc : lc_sized lc) by (rewrite Forall_lookup in Hall; eauto).
  assert (Hblock : Forall lc_sized block)
    by (unfold block; now apply Forall_take, Forall_drop).
  unfold move_lc_body. rewrite Hi. rewrite decide_True by lia. fold block.
  pose proof (slide_file f (file_offset lc) block H0 Hblock) as Hf.
  pose proof (slide_strip f (file_offset lc) block) as Hs.
  pose proof (slide_end f (file_offset lc) block) as He.
  pose proof (slide_offsets f (file_offset lc) block) as Ho.
  destruct (slide f (file_offset lc) block) as [[f1 o1] b1].
  cbn [fst snd] in *. subst f1 o1.
  exists b1, (set_file_offset (file_offset lc + sum_cmdsize block) lc).
  split; [|split; [exact Hs | split; [reflexivity|]]].
  - rewrite lc_bytes_set_file_offset, lc_bytes_sized by assumption.
    f_equal. f_equal.
    rewrite <- (flen_concat_raw block Hblock).
    apply write_at_app. assumption.
  - rewrite lc_offsets_ok_app, Ho. simpl.
    rewrite (sum_cmdsize_strip b1 block Hs), Z.eqb_refl. reflexivity.
Qed.

(** X6.  What [move_load_command] does for two indices [i < j] of the
    table, in either argument order: from the old offset of command [i] on,
    the file receives the payloads of the commands [i+1 .. j] followed by
    the payload of command [i], and no other byte is written.  The records
    of that block and the moved record get the offsets of that layout, but
    in the vector the moved record is put behind all records, also behind
    those after index [j] that were not moved. *)
Theorem move_load_command_effect (m : MachO) (a : nat) (arch : MachOArch)
    (i j : nat) (lc : LoadCommand) :
  archs m !! a = Some arch ->
  load_commands arch !! i = Some lc ->
  (i < j < length (load_commands arch))%nat ->
  Forall lc_sized (load_commands arch) ->
  0 <= file_offset lc ->
  let lcs := load_commands arch in
  let block := take (j - i) (drop (S i) lcs) in
  exists m' block' lc',
    move_load_command m a i j = Some m'
    /\ move_load_command m a j i = Some m'
    /\ file m' = write_at (file m) (file_offset lc)
                   (concat (raw_lc <$> block) ++ raw_lc lc)
    /\ archs m'
       = <[a := set_load_commands
                  (take i lcs ++ block' ++ drop (S j) lcs ++ [lc']) arch]>
           (archs m)
    /\ strip <$> block' = strip <$> block
    /\ strip lc' = strip lc
    /\ lc_offsets_ok (file_offset lc) (block' ++ [lc']) = true.
Proof.
  intros Ha Hi Hij Hall H0 lcs block.
  destruct (move_lc_body_effect (file m) lcs i j lc Hi Hij Hall H0)
    as (block' & lc' & Hmv & Hs & Hlc & Hok).
  fold block in Hmv, Hs.
  set (F := write_at (file m) (file_offset lc)
              (concat (raw_lc <$> block) ++ raw_lc lc)) in *.
  set (L := take i lcs ++ block' ++ drop (S j) lcs ++ [lc']) in *.
  exists (set_file F (set_archs (<[a := set_load_commands L arch]> (archs m))
                        m)), block', lc'.
  split.
  { apply (move_load_command_step m a arch i j F L Ha); [lia|].
    unfold move_lc. rewrite !decide_False by lia. exact Hmv. }
  split.
  { apply (move_load_command_step m a arch j i F L Ha); [lia|].
    unfold move_lc. rewrite decide_False by lia.
    rewrite decide_True by lia. exact Hmv. }
  split; [reflexivity|]. split; [reflexivity|].
  repeat split; assumption.
Qed.

Lemma move_load_command_effect_witness :
  exists m',
    move_load_command three_commands 0 0 1 = Some m'
    /\ move_load_command three_commands 0 1 0 = Some m'
    /\ file m' = write_at (file three_commands) 28
                   (raw_command 0x1 56 x42 ++ raw_command 0x1b 24 x41).
Proof.
  destruct (move_load_command_effect three_commands 0 three_arch 0 1
              (LoadCommand_of_raw MH_MAGIC 28 (raw_command 0x1b 24 x41)))
    as (m' & block' & lc' & H1 & H2 & H3 & _).
  - reflexivity.
  - reflexivity.
  - vm_compute. lia.
  - repeat (apply Forall_cons; split; [reflexivity|]). apply Forall_nil.
    exact I.
  - vm_compute. discriminate.
  - exists m'. split; [exact H1|]. split; [exact H2|].
    rewrite H3. reflexivity.
Defined.

(** ** A table of load commands on disk *)

Lemma write_at_app_l (p q d : list byte) off :
  0 <= off -> off + flen d <= flen p ->
  write_at (p ++ q) off d = write_at p off d ++ q.
Proof.
  intros H0 Hb. unfold flen in *.
  destruct (decide (d = [])) as [->|Hd]; [reflexivity|].
  rewrite !write_at_nonempty by assumption.
  rewrite take_app_le by lia.
  rewrite drop_app_le by lia.
  replace (Z.to_nat off - length (p ++ q))%nat with 0%nat
    by (rewrite length_app; lia).
  replace (Z.to_nat off - length p)%nat with 0%nat by lia.
  simpl replicate. now rewrite <- !app_assoc.
Qed.

Lemma write_at_app_r (p q d : list byte) off :
  off = Z.of_nat (length p) ->
  write_at (p ++ q) off d = p ++ d ++ drop (length d) q.
Proof.
  intros ->. destruct (decide (d = [])) as [->|Hd].
  { now rewrite drop_0. }
  rewrite write_at_nonempty by assumption.
  rewrite Nat2Z.id, take_app_length.
  replace (length p - length (p ++ q))%nat with 0%nat
    by (rewrite length_app; lia).
  rewrite drop_app_ge by lia.
  now replace (length p + length d - length p)%nat with (length d) by lia.
Qed.

Lemma lc_sized_strip x y : strip x = strip y -> lc_sized y -> lc_sized x.
Proof. unfold strip, lc_sized. intros H. inversion H. congruence. Qed.

Lemma Forall_lc_sized_strip l1 l2 :
  strip <$> l1 = strip <$> l2 -> Forall lc_sized l2 -> Forall lc_sized l1.
Proof.
  revert l2. induction l1 as [|x l1 IH]; intros [|y l2] H Hall;
    try discriminate; [constructor|].
  cbn [fmap list_fmap] in H.
  assert (Hx : strip x = strip y) by congruence.
  assert (Ht : strip <$> l1 = strip <$> l2) by congruence.
  inversion Hall; subst.
  constructor; [now apply (lc_sized_strip x y) | now apply (IH l2)].
Qed.

Lemma raw_lc_strip (l1 l2 : list LoadCommand) :
  strip <$> l1 = strip <$> l2 -> raw_lc <$> l1 = raw_lc <$> l2.
Proof.
  intros H.
  apply (f_equal (fmap (fun t : Z * Z * list byte => t.2))) in H.
  now rewrite <- !list_fmap_compose in H.
Qed.

Lemma forallb_lc_on_disk_sized f l :
  forallb (lc_on_disk f) l = true -> Forall lc_sized l.
Proof.
  induction l as [|x l IH]; simpl; [constructor|].
  intros H. apply andb_true_iff in H as [Hx Hl].
  constructor; [|now apply IH].
  now apply lc_on_disk_spec in Hx as (_ & ? & _).
Qed.

Lemma read_at_middle (p d q : list byte) off len :
  off = Z.of_nat (length p) -> Z.to_nat len = length d ->
  read_at (p ++ d ++ q) off len = d.
Proof.
  intros -> Hl. unfold read_at.
  rewrite Nat2Z.id, drop_app_length, Hl. apply take_app_length.
Qed.

(** The records of a contiguous table are on disk when the file holds
    their payloads one behind the other. *)
Lemma on_disk_of_layout (P Q : list byte) l base :
  base = Z.of_nat (length P) ->
  lc_offsets_ok base l = true -> Forall lc_sized l ->
  forallb (lc_on_disk (P ++ concat (raw_lc <$> l) ++ Q)) l = true.
Proof.
  intros HP Hok Hall. revert P base HP Hok.
  induction Hall as [|x l Hx Hl IH]; intros P base HP Hok; [reflexivity|].
  cbn [lc_offsets_ok] in Hok. apply andb_true_iff in Hok as [Ho Hok].
  apply Z.eqb_eq in Ho.
  cbn [fmap list_fmap concat forallb]. apply andb_true_iff. split.
  - unfold lc_on_disk, lc_sized, flen in *.
    rewrite !andb_true_iff, bool_decide_eq_true, !Z.leb_le, Z.eqb_eq.
    repeat split; try lia.
    + rewrite !length_app. lia.
    + rewrite <- app_assoc. apply read_at_middle; lia.
  - rewrite <- app_assoc, (app_assoc P).
    apply (IH (P ++ raw_lc x) (base + cmdsize x)); [|exact Hok].
    rewrite length_app. unfold lc_sized, flen in Hx. lia.
Qed.

(** Conversely, a contiguous table whose records are on disk cuts the file
    in three: what precedes the table, the payloads, the rest. *)
Lemma layout_of_on_disk f l base :
  l <> [] -> lc_offsets_ok base l = true ->
  forallb (lc_on_disk f) l = true ->
  exists P Q, f = P ++ concat (raw_lc <$> l) ++ Q
              /\ base = Z.of_nat (length P).
Proof.
  revert base. induction l as [|x l IH]; intros base Hne Hok Hd;
    [contradiction|].
  cbn [lc_offsets_ok forallb] in Hok, Hd.
  apply andb_true_iff in Hok as [Ho Hok]. apply Z.eqb_eq in Ho.
  apply andb_true_iff in Hd as [Hx Hd].
  pose proof (lc_on_disk_split f x Hx) as Sx.
  apply lc_on_disk_spec in Hx as (Hx0 & Hxl & Hxb & _).
  unfold flen in *.
  assert (HP : base = Z.of_nat (length (take (Z.to_nat (file_offset x)) f))).
  { rewrite length_take. lia. }
  exists (take (Z.to_nat (file_offset x)) f).
  destruct l as [|y l].
  - exists (drop (Z.to_nat (file_offset x + cmdsize x)) f).
    split; [|exact HP]. cbn [fmap list_fmap concat]. now rewrite app_nil_r.
  - destruct (IH (base + cmdsize x) ltac:(discriminate) Hok Hd)
      as (P' & Q' & Hf & HP').
    exists Q'. split; [|exact HP].
    cbn [fmap list_fmap concat] in *. rewrite <- app_assoc.
    rewrite Sx at 1. do 2 f_equal.
    rewrite Hf at 1. rewrite drop_app_length'; [reflexivity | lia].
Qed.

Lemma set_load_commands_id arch :
  set_load_commands (load_commands arch) arch = arch.
Proof. now destruct arch. Qed.

Lemma concat_raw_app (l1 l2 : list LoadCommand) :
  concat (raw_lc <$> l1 ++ l2)
  = concat (raw_lc <$> l1) ++ concat (raw_lc <$> l2).
Proof. now rewrite fmap_app, concat_app. Qed.

(** The move that opens [remove_load_command], on a table that the file
    holds behind [P]: the payload of command [i] goes behind the others. *)
Lemma remove_load_command_move m a arch i lc (P Q : list byte) base :
  archs m !! a = Some arch ->
  load_commands arch !! i = Some lc ->
  Forall lc_sized (load_commands arch) ->
  lc_offsets_ok base (load_commands arch) = true ->
  file m = P ++ concat (raw_lc <$> load_commands arch) ++ Q ->
  base = Z.of_nat (length P) ->
  let lcs := load_commands arch in
  exists m1 block' lc',
    (if decide (1 < length lcs)%nat
     then move_load_command m a i (length lcs - 1) else Some m) = Some m1
    /\ file m1
       = P ++ concat (raw_lc <$> take i lcs ++ drop (S i) lcs)
           ++ raw_lc lc ++ Q
    /\ archs m1
       = <[a := set_load_commands (take i lcs ++ block' ++ [lc']) arch]>
           (archs m)
    /\ strip <$> block' = strip <$> drop (S i) lcs
    /\ strip lc' = strip lc
    /\ lc_offsets_ok (file_offset lc) (block' ++ [lc']) = true
    /\ file_size m1 = file_size m /\ is_fat m1 = is_fat m
    /\ fat_magic m1 = fat_magic m /\ n_archs m1 = n_archs m.
Proof.
  intros Ha Hi Hall Hok Hf HP lcs.
  pose proof (lookup_lt_Some _ _ _ Hi) as Hlt. fold lcs in Hi, Hall, Hok, Hf, Hlt.
  pose proof (lc_offsets_ok_lookup base lcs i lc Hok Hi) as Hoff.
  assert (Hmid : lcs = take i lcs ++ lc :: drop (S i) lcs)
    by (symmetry; now apply take_drop_middle).
  assert (Hlc : lc_sized lc) by (rewrite Forall_lookup in Hall; eauto).
  assert (HL1 : Forall lc_sized (take i lcs)) by now apply Forall_take.
  assert (HL2 : Forall lc_sized (drop (S i) lcs)) by now apply Forall_drop.
  assert (Hf' : file m
                = (P ++ concat (raw_lc <$> take i lcs))
                    ++ (raw_lc lc ++ concat (raw_lc <$> drop (S i) lcs)) ++ Q).
  { rewrite Hf. rewrite Hmid at 1.
    rewrite concat_raw_app. cbn [fmap list_fmap concat].
    now rewrite <- !app_assoc. }
  assert (Hopos : file_offset lc
                  = Z.of_nat (length (P ++ concat (raw_lc <$> take i lcs)))).
  { rewrite length_app, Nat2Z.inj_add, <- HP.
    pose proof (flen_concat_raw _ HL1) as E. unfold flen in E. lia. }
  destruct (decide (i = length lcs - 1)%nat) as [Hlast|Hnl].
  - exists m, [], lc.
    assert (Hd : drop (S i) lcs = []) by (apply drop_ge; lia).
    split.
    { destruct (decide (1 < length lcs)%nat); [|reflexivity].
      unfold move_load_command. now rewrite decide_True. }
    split.
    { rewrite Hf'. rewrite Hd, app_nil_r. cbn [fmap list_fmap concat].
      now rewrite app_nil_r, <- !app_assoc. }
    split.
    { cbn [app]. rewrite Hd in Hmid. rewrite <- Hmid. unfold lcs.
      rewrite set_load_commands_id. symmetry. now apply list_insert_id. }
    split; [now rewrite Hd|]. split; [reflexivity|].
    split; [simpl; now rewrite Z.eqb_refl|]. repeat split; reflexivity.
  - rewrite decide_True by lia.
    assert (H0 : 0 <= file_offset lc) by lia.
    destruct (move_lc_body_effect (file m) lcs i (length lcs - 1) lc Hi
                ltac:(lia) Hall H0)
      as (block' & lc' & Hmv & Hs & Hlc' & Hok').
    rewrite (take_ge (drop (S i) lcs)) in Hmv, Hs
      by (rewrite length_drop; lia).
    rewrite (drop_ge lcs (S (length lcs - 1))) in Hmv by lia.
    rewrite app_nil_l in Hmv.
    exists (set_file
              (write_at (file m) (file_offset lc)
                 (concat (raw_lc <$> drop (S i) lcs) ++ raw_lc lc))
              (set_archs
                 (<[a := set_load_commands (take i lcs ++ block' ++ [lc'])
                           arch]> (archs m)) m)), block', lc'.
    split.
    { apply (move_load_command_step m a arch i (length lcs - 1) _ _ Ha);
        [lia|].
      unfold move_lc. rewrite !decide_False by lia. exact Hmv. }
    cbn [file archs set_file set_archs file_size is_fat fat_magic n_archs].
    split.
    { rewrite Hf'. rewrite write_at_splice.
      - rewrite concat_raw_app. now rewrite <- !app_assoc.
      - exact Hopos.
      - rewrite !length_app. lia. }
    split; [reflexivity|]. repeat split; assumption.
Qed.

Lemma lc_sized_nonneg lc : lc_sized lc -> 0 <= cmdsize lc.
Proof. unfold lc_sized, flen. lia. Qed.

Lemma sum_cmdsize_sized_nonneg l : Forall lc_sized l -> 0 <= sum_cmdsize l.
Proof.
  intros H. apply sum_cmdsize_nonneg.
  eapply Forall_impl; [exact H|]. apply lc_sized_nonneg.
Qed.

Lemma lc_table_ok_spec hsize f arch :
  lc_table_ok hsize f arch = true ->
  lc_counts_ok arch
  /\ lc_offsets_ok (fa_offset (arch_fat_arch arch) + hsize)
       (load_commands arch) = true
  /\ forallb (lc_on_disk f) (load_commands arch) = true.
Proof.
  unfold lc_table_ok, lc_counts_ok. rewrite !andb_true_iff, !Z.eqb_eq. tauto.
Qed.

Lemma lc_table_ok_intro hsize f arch :
  lc_counts_ok arch ->
  lc_offsets_ok (fa_offset (arch_fat_arch arch) + hsize)
    (load_commands arch) = true ->
  forallb (lc_on_disk f) (load_commands arch) = true ->
  lc_table_ok hsize f arch = true.
Proof.
  unfold lc_table_ok, lc_counts_ok. rewrite !andb_true_iff, !Z.eqb_eq. tauto.
Qed.

Lemma lc_offsets_ok_last base l x :
  lc_offsets_ok base (l ++ [x]) = true ->
  lc_offsets_ok base l = true /\ file_offset x = base + sum_cmdsize l.
Proof.
  rewrite lc_offsets_ok_app, andb_true_iff. simpl.
  rewrite andb_true_r, Z.eqb_eq. tauto.
Qed.

(** [remove_load_command] on a table in order. *)
Lemma remove_load_command_table (m : MachO) (a : nat)
    (arch : MachOArch) (i : nat) (lc : LoadCommand) (hsize : Z) :
  archs m !! a = Some arch ->
  load_commands arch !! i = Some lc ->
  lc_table_ok hsize (file m) arch = true ->
  sizeof_mach_header <= hsize ->
  0 <= fa_offset (arch_fat_arch arch) ->
  mh_ncmds (arch_mach_header arch) <= UINT32_MAX ->
  mh_sizeofcmds (arch_mach_header arch) <= UINT32_MAX ->
  let h := arch_mach_header arch in
  let table_end := fa_offset (arch_fat_arch arch) + hsize + mh_sizeofcmds h in
  exists m' arch',
    remove_load_command m a i = Some m'
    /\ archs m' = <[a := arch']> (archs m)
    /\ lc_table_ok hsize (file m') arch' = true
    /\ strip <$> load_commands arch'
       = delete i (strip <$> load_commands arch)
    /\ mh_ncmds (arch_mach_header arch') = mh_ncmds h - 1
    /\ mh_sizeofcmds (arch_mach_header arch') = mh_sizeofcmds h - cmdsize lc
    /\ arch_fat_arch arch' = arch_fat_arch arch
    /\ flen (file m') = flen (file m)
    /\ read_at (file m') (fa_offset (arch_fat_arch arch)) sizeof_mach_header
       = bytes_of_mach_header (arch_mach_header arch')
    /\ read_at (file m') (table_end - cmdsize lc) (cmdsize lc)
       = replicate (Z.to_nat (cmdsize lc)) x00.
Proof.
  intros Ha Hi Htab Hh Hfo Hnmax Hsmax h table_end.
  set (lcs := load_commands arch) in *.
  set (fo := fa_offset (arch_fat_arch arch)) in *.
  set (base := fo + hsize).
  destruct (lc_table_ok_spec _ _ _ Htab) as ((Hcnt & Hsum) & Hok & Hdisk).
  fold lcs fo base h in Hcnt, Hsum, Hok, Hdisk.
  fold h in Hnmax, Hsmax.
  assert (Hne : lcs <> []) by (intros E; now rewrite E in Hi).
  pose proof (forallb_lc_on_disk_sized _ _ Hdisk) as Hall.
  destruct (layout_of_on_disk (file m) lcs base Hne Hok Hdisk)
    as (P & Q & Hf & HP).
  destruct (remove_load_command_move m a arch i lc P Q base Ha Hi Hall Hok
              Hf HP)
    as (m1 & block' & lc' & Hmoved & Hf1 & Ha1 & Hs & Hlc' & Hok' & Hfs1
        & Hfat1 & _ & _).
  fold lcs in Hmoved, Hf1, Ha1, Hs.
  pose proof (lookup_lt_Some _ _ _ Ha) as Halt.
  pose proof (lookup_lt_Some _ _ _ Hi) as Hilt. fold lcs in Hilt.
  set (L1 := take i lcs) in *. set (L2 := drop (S i) lcs) in *.
  assert (Hmid : lcs = L1 ++ lc :: L2)
    by (symmetry; now apply take_drop_middle).
  assert (Hlc : lc_sized lc) by (rewrite Forall_lookup in Hall; eauto).
  assert (HL1 : Forall lc_sized L1) by now apply Forall_take.
  assert (HL2 : Forall lc_sized L2) by now apply Forall_drop.
  assert (Hb' : Forall lc_sized block')
    by exact (Forall_lc_sized_strip _ _ Hs HL2).
  assert (Hsum12 : sum_cmdsize lcs
                   = sum_cmdsize L1 + cmdsize lc + sum_cmdsize L2).
  { rewrite Hmid at 1. rewrite sum_cmdsize_app. simpl.
    fold (sum_cmdsize L2). lia. }
  assert (Hc0 : 0 <= cmdsize lc) by (unfold lc_sized, flen in Hlc; lia).
  pose proof (sum_cmdsize_sized_nonneg L1 HL1) as HS1.
  pose proof (sum_cmdsize_sized_nonneg L2 HL2) as HS2.
  pose proof (sum_cmdsize_strip _ _ Hs) as Hsb.
  pose proof (lc_offsets_ok_lookup base lcs i lc Hok Hi) as Hoff.
  fold L1 in Hoff.
  destruct (lc_offsets_ok_last _ _ _ Hok') as [Hokb Hoff'].
  assert (Hcs' : cmdsize lc' = cmdsize lc) by (unfold strip in Hlc'; congruence).
  (* the records after the call, and the new header *)
  set (h' := set_counts (u32 (mh_ncmds h - 1))
               (u32 (mh_sizeofcmds h - cmdsize lc')) h).
  set (arch' := set_load_commands (L1 ++ block')
                  (set_arch_mach_header h'
                     (set_load_commands (L1 ++ block' ++ [lc']) arch))).
  set (H' := bytes_of_mach_header h').
  set (P' := write_at P fo H').
  set (C := concat (raw_lc <$> L1 ++ L2)) in *.
  assert (HH' : flen H' = sizeof_mach_header)
    by apply length_bytes_of_mach_header.
  assert (HP' : length P' = length P).
  { apply length_write_at_inside; unfold flen in *; lia. }
  assert (HC : flen C = sum_cmdsize L1 + sum_cmdsize L2).
  { unfold C. rewrite flen_concat_raw by now apply Forall_app.
    apply sum_cmdsize_app. }
  set (zeros := replicate (Z.to_nat (cmdsize lc)) x00).
  set (m' := set_file (P' ++ C ++ zeros ++ Q)
               (set_archs (<[a := arch']> (archs m)) m1)).
  assert (Hrun : remove_load_command m a i = Some m').
  { unfold remove_load_command. rewrite Ha. fold lcs. rewrite Hmoved.
    unfold remove_last_load_command. rewrite Ha1.
    rewrite list_lookup_insert_eq by assumption.
    cbn [load_commands set_load_commands].
    rewrite (app_assoc L1 block' [lc']), last_snoc.
    cbn [arch_mach_header set_load_commands]. fold h h'.
    rewrite length_app. cbn [length].
    replace (length (L1 ++ block') + 1 - 1)%nat with (length (L1 ++ block'))
      by lia.
    rewrite take_app_length.
    match goal with
    | |- Some (set_file ?X (set_archs ?A _)) = _ =>
        assert (HX : X = P' ++ C ++ zeros ++ Q);
        [|assert (HA : A = <[a := arch']> (archs m));
          [|rewrite HX, HA; reflexivity]]
    end.
    - unfold write_mach_header, fzero.
      cbn [arch_fat_arch set_arch_mach_header set_load_commands
           arch_mach_header]. fold fo H'.
      rewrite Hf1. rewrite write_at_app_l by (unfold flen in *; lia).
      fold P'. rewrite Hcs'. fold zeros.
      rewrite (app_assoc P' C). rewrite write_at_splice.
      + now rewrite <- app_assoc.
      + rewrite Hoff', Hoff, Hsb, length_app, Nat2Z.inj_add, HP'.
        unfold flen in HC. rewrite HC. lia.
      + unfold zeros. rewrite length_replicate.
        unfold lc_sized, flen in Hlc. lia.
    - rewrite list_insert_insert_eq. unfold arch'.
      now rewrite <- (app_assoc L1 block' [lc']). }
  exists m', arch'. split; [exact Hrun|].
  split; [reflexivity|].
  assert (HC' : C = concat (raw_lc <$> L1 ++ block')).
  { unfold C. rewrite !fmap_app. now rewrite (raw_lc_strip _ _ Hs). }
  assert (Hlenb : length block' = length L2).
  { rewrite <- (length_fmap strip block'), Hs. apply length_fmap. }
  assert (Hlen : length lcs = (length L1 + S (length L2))%nat).
  { rewrite Hmid at 1. now rewrite length_app. }
  assert (Hn' : mh_ncmds (arch_mach_header arch') = mh_ncmds h - 1).
  { change (mh_ncmds (arch_mach_header arch')) with (u32 (mh_ncmds h - 1)).
    apply u32_small. lia. }
  assert (Hs' : mh_sizeofcmds (arch_mach_header arch')
                = mh_sizeofcmds h - cmdsize lc).
  { change (mh_sizeofcmds (arch_mach_header arch'))
      with (u32 (mh_sizeofcmds h - cmdsize lc')).
    rewrite Hcs'. apply u32_small. lia. }
  assert (Hfile : file m' = P' ++ C ++ zeros ++ Q) by reflexivity.
  split.
  { apply lc_table_ok_intro.
    - split.
      + rewrite Hn'. change (load_commands arch') with (L1 ++ block').
        rewrite length_app. lia.
      + rewrite Hs'. change (load_commands arch') with (L1 ++ block').
        rewrite sum_cmdsize_app. lia.
    - change (load_commands arch') with (L1 ++ block').
      change (fa_offset (arch_fat_arch arch')) with fo. fold base.
      rewrite lc_offsets_ok_app, <- Hoff, Hokb, andb_true_r.
      rewrite Hmid, lc_offsets_ok_app in Hok.
      now apply andb_true_iff in Hok as [? _].
    - change (load_commands arch') with (L1 ++ block').
      rewrite Hfile, HC'.
      apply (on_disk_of_layout P' (zeros ++ Q) (L1 ++ block') base).
      + lia.
      + rewrite lc_offsets_ok_app, <- Hoff, Hokb, andb_true_r.
        rewrite Hmid, lc_offsets_ok_app in Hok.
        now apply andb_true_iff in Hok as [? _].
      + now apply Forall_app. }
  split.
  { change (load_commands arch') with (L1 ++ block').
    rewrite fmap_app, Hs, delete_take_drop, <- fmap_take, <- fmap_drop.
    reflexivity. }
  split; [exact Hn'|]. split; [exact Hs'|]. split; [reflexivity|].
  split.
  { rewrite Hfile, Hf. unfold flen. f_equal.
    rewrite !length_app, HP'. unfold zeros. rewrite length_replicate.
    pose proof (flen_concat_raw lcs Hall) as E. unfold flen in HC, E. lia. }
  split.
  { rewrite Hfile. unfold P'. unfold flen in HH'.
    rewrite <- (take_drop (Z.to_nat fo) P).
    rewrite <- (take_drop (length H') (drop (Z.to_nat fo) P)).
    rewrite write_at_splice.
    - rewrite <- !app_assoc. apply read_at_middle.
      + rewrite length_take. lia.
      + change (bytes_of_mach_header (arch_mach_header arch')) with H'. lia.
    - rewrite length_take. lia.
    - rewrite length_take, length_drop. lia. }
  rewrite Hfile. rewrite (app_assoc P' C).
  apply read_at_middle.
  - unfold table_end. rewrite length_app, Nat2Z.inj_add, HP'.
    unfold flen in HC. lia.
  - unfold zeros. now rewrite length_replicate.
Qed.

(** X7.  [remove_load_command] keeps the table of a slice in order.  If,
    before the call, the header's counts describe the table, the records
    lie one behind the other from the end of the header, and each record's
    payload is what the file holds at its offset, then the same is true
    after the call for the table without command [i]; the file keeps its
    length, holds the new header, and the bytes that the table no longer
    covers are zero. *)
Theorem remove_load_command_keeps_table (m : MachO) (a : nat)
    (arch : MachOArch) (i : nat) (lc : LoadCommand) (hsize : Z) :
  archs m !! a = Some arch ->
  load_commands arch !! i = Some lc ->
  lc_table_ok hsize (file m) arch = true ->
  sizeof_mach_header <= hsize ->
  0 <= fa_offset (arch_fat_arch arch) ->
  mh_ncmds (arch_mach_header arch) <= UINT32_MAX ->
  mh_sizeofcmds (arch_mach_header arch) <= UINT32_MAX ->
  let h := arch_mach_header arch in
  let table_end := fa_offset (arch_fat_arch arch) + hsize + mh_sizeofcmds h in
  exists m' arch',
    remove_load_command m a i = Some m'
    /\ archs m' = <[a := arch']> (archs m)
    /\ lc_table_ok hsize (file m') arch' = true
    /\ strip <$> load_commands arch'
       = delete i (strip <$> load_commands arch)
    /\ mh_ncmds (arch_mach_header arch') = mh_ncmds h - 1
    /\ mh_sizeofcmds (arch_mach_header arch') = mh_sizeofcmds h - cmdsize lc
    /\ arch_fat_arch arch' = arch_fat_arch arch
    /\ flen (file m') = flen (file m)
    /\ read_at (file m') (fa_offset (arch_fat_arch arch)) sizeof_mach_header
       = bytes_of_mach_header (arch_mach_header arch')
    /\ read_at (file m') (table_end - cmdsize lc) (cmdsize lc)
       = replicate (Z.to_nat (cmdsize lc)) x00.
Proof. exact (remove_load_command_table m a arch i lc hsize). Qed.

Lemma remove_load_command_keeps_table_witness :
  exists m' arch',
    remove_load_command three_commands 0 0 = Some m'
    /\ archs m' = <[0%nat := arch']> (archs three_commands)
    /\ lc_table_ok 28 (file m') arch' = true
    /\ mh_ncmds (arch_mach_header arch') = 2
    /\ mh_sizeofcmds (arch_mach_header arch') = 88.
Proof.
  destruct (remove_load_command_keeps_table three_commands 0 three_arch 0
              (LoadCommand_of_raw MH_MAGIC 28 (raw_command 0x1b 24 x41)) 28)
    as (m' & arch' & H1 & H2 & H3 & _ & H5 & H6 & _).
  - reflexivity.
  - reflexivity.
  - vm_compute. reflexivity.
  - vm_compute. discriminate.
  - vm_compute. discriminate.
  - vm_compute. discriminate.
  - vm_compute. discriminate.
  - exists m', arch'.
    split; [exact H1|]. split; [exact H2|]. split; [exact H3|].
    split; [exact H5 | exact H6].
Defined.

Lemma lc_offsets_ok_end base l x :
  lc_offsets_ok base l = true -> last l = Some x ->
  file_offset x + cmdsize x = base + sum_cmdsize l.
Proof.
  intros Hok Hl. apply last_Some in Hl as [l' ->].
  apply lc_offsets_ok_last in Hok as [_ Ho].
  rewrite sum_cmdsize_app. simpl. lia.
Qed.

(** A write of what is there changes nothing. *)
Lemma write_at_same f off (d : list byte) :
  0 <= off -> off + flen d <= flen f ->
  read_at f off (flen d) = d -> write_at f off d = f.
Proof.
  intros H0 Hb Hr. unfold flen, read_at in *. rewrite Nat2Z.id in Hr.
  assert (Hf : f = take (Z.to_nat off) f ++ d
                     ++ drop (length d) (drop (Z.to_nat off) f)).
  { rewrite <- Hr at 1. now rewrite !take_drop. }
  rewrite Hf at 1. rewrite write_at_splice.
  - symmetry. exact Hf.
  - rewrite length_take. lia.
  - reflexivity.
Qed.

(** [insert_load_command] on a table that the file holds behind [P]. *)
Lemma insert_load_command_run m a arch raw (P Q : list byte) base :
  archs m !! a = Some arch ->
  load_commands arch <> [] ->
  Forall lc_sized (load_commands arch) ->
  lc_offsets_ok base (load_commands arch) = true ->
  file m = P ++ concat (raw_lc <$> load_commands arch) ++ Q ->
  base = Z.of_nat (length P) ->
  0 <= fa_offset (arch_fat_arch arch) ->
  fa_offset (arch_fat_arch arch) + sizeof_mach_header <= base ->
  let h := arch_mach_header arch in
  let lcs := load_commands arch in
  let cs := get32 raw 4 (mh_magic h) in
  cs <= flen raw ->
  base + sum_cmdsize lcs + cs <= UINT32_MAX ->
  let h1 := set_counts (u32 (mh_ncmds h + 1)) (u32 (mh_sizeofcmds h + cs)) h in
  let new := LoadCommand_of_raw (mh_magic h) (base + sum_cmdsize lcs) raw in
  let arch1 := set_arch_mach_header h1 (set_load_commands (lcs ++ [new]) arch) in
  insert_load_command m a raw
  = Some (set_file
            (write_at P (fa_offset (arch_fat_arch arch))
               (bytes_of_mach_header h1)
               ++ concat (raw_lc <$> lcs) ++ take (Z.to_nat cs) raw
               ++ drop (Z.to_nat cs) Q)
            (set_archs (<[a := arch1]> (archs m)) m))
  /\ flen (take (Z.to_nat cs) raw) = cs.
Proof.
  intros Ha Hne Hall Hok Hf HP Hfo Hhdr h lcs cs Hcs Hmax h1 new arch1.
  pose proof (get32_range raw 4 (mh_magic h)) as Hcr. fold cs in Hcr.
  assert (HD : flen (take (Z.to_nat cs) raw) = cs).
  { unfold flen in *. rewrite length_take. lia. }
  split; [|exact HD].
  pose proof (sum_cmdsize_sized_nonneg _ Hall) as Hs0. fold lcs in Hs0.
  pose proof (flen_concat_raw _ Hall) as HC. fold lcs in HC.
  unfold insert_load_command. rewrite Ha. fold h lcs cs.
  destruct (last lcs) as [x|] eqn:Hlast;
    [|apply last_None in Hlast; contradiction].
  rewrite (lc_offsets_ok_end base lcs x Hok Hlast).
  rewrite u32_small by lia. fold new h1 arch1.
  f_equal. f_equal.
  unfold write_mach_header.
  change (fa_offset (arch_fat_arch arch1))
    with (fa_offset (arch_fat_arch arch)).
  change (arch_mach_header arch1) with h1.
  rewrite Hf. fold lcs.
  rewrite (app_assoc P), write_at_app_r
    by (rewrite length_app, Nat2Z.inj_add; unfold flen in HC; lia).
  rewrite <- app_assoc.
  rewrite write_at_app_l.
  - unfold flen in HD. rewrite <- (Nat2Z.id (length _)), HD. reflexivity.
  - assumption.
  - rewrite length_bytes_of_mach_header. unfold flen. lia.
Qed.

(** X8.  [insert_load_command] on a slice that has commands keeps the
    table in order: the new record is put behind the last one, at the end
    of the table, with the [cmd] and [cmdsize] of the payload; the header's
    counts grow by one command and [cmdsize] bytes; all records, the new
    one included, are on disk at their offsets.  The [cmdsize] bytes that
    followed the table are overwritten, and the file grows only when the
    new command passes its end. *)
Theorem insert_load_command_keeps_table (m : MachO) (a : nat)
    (arch : MachOArch) (raw : list byte) (hsize : Z) :
  let h := arch_mach_header arch in
  let cs := get32 raw 4 (mh_magic h) in
  let table_end := fa_offset (arch_fat_arch arch) + hsize + mh_sizeofcmds h in
  archs m !! a = Some arch ->
  load_commands arch <> [] ->
  lc_table_ok hsize (file m) arch = true ->
  sizeof_mach_header <= hsize ->
  0 <= fa_offset (arch_fat_arch arch) ->
  cs <= flen raw ->
  table_end + cs <= UINT32_MAX ->
  mh_ncmds h + 1 <= UINT32_MAX ->
  exists m' arch' new,
    insert_load_command m a raw = Some m'
    /\ archs m' = <[a := arch']> (archs m)
    /\ load_commands arch' = load_commands arch ++ [new]
    /\ new = mk_LoadCommand (get32 raw 0 (mh_magic h)) cs table_end
               (take (Z.to_nat cs) raw)
    /\ lc_table_ok hsize (file m') arch' = true
    /\ mh_ncmds (arch_mach_header arch') = mh_ncmds h + 1
    /\ mh_sizeofcmds (arch_mach_header arch') = mh_sizeofcmds h + cs
    /\ arch_fat_arch arch' = arch_fat_arch arch
    /\ flen (file m') = Z.max (flen (file m)) (table_end + cs).
Proof.
  intros h cs table_end Ha Hne Htab Hh Hfo Hcs Hmax Hnmax.
  set (lcs := load_commands arch) in *.
  set (fo := fa_offset (arch_fat_arch arch)) in *.
  set (base := fo + hsize).
  destruct (lc_table_ok_spec _ _ _ Htab) as ((Hcnt & Hsum) & Hok & Hdisk).
  fold lcs fo base h in Hcnt, Hsum, Hok, Hdisk.
  pose proof (forallb_lc_on_disk_sized _ _ Hdisk) as Hall.
  destruct (layout_of_on_disk (file m) lcs base Hne Hok Hdisk)
    as (P & Q & Hf & HP).
  pose proof (get32_range raw 4 (mh_magic h)) as Hcr. fold cs in Hcr.
  pose proof (sum_cmdsize_sized_nonneg _ Hall) as Hs0.
  pose proof (flen_concat_raw _ Hall) as HC.
  assert (Hte : table_end = base + sum_cmdsize lcs)
    by (unfold table_end, base; lia).
  assert (Hb1 : fo + sizeof_mach_header <= base) by (unfold base; lia).
  assert (Hb2 : base + sum_cmdsize lcs + cs <= UINT32_MAX) by lia.
  destruct (insert_load_command_run m a arch raw P Q base Ha Hne Hall Hok Hf
              HP Hfo Hb1 Hcs Hb2)
    as [Hrun HD].
  fold h lcs cs fo in Hrun, HD. rewrite <- Hte in Hrun.
  set (h1 := set_counts (u32 (mh_ncmds h + 1)) (u32 (mh_sizeofcmds h + cs)) h)
    in *.
  set (new := LoadCommand_of_raw (mh_magic h) table_end raw) in *.
  set (arch1 := set_arch_mach_header h1 (set_load_commands (lcs ++ [new]) arch))
    in *.
  set (P' := write_at P fo (bytes_of_mach_header h1)) in *.
  assert (HP' : length P' = length P).
  { apply length_write_at_inside; [assumption|].
    rewrite length_bytes_of_mach_header. unfold flen. lia. }
  eexists _, arch1, new. split; [exact Hrun|].
  split; [reflexivity|]. split; [reflexivity|]. split; [reflexivity|].
  assert (Hn1 : mh_ncmds (arch_mach_header arch1) = mh_ncmds h + 1).
  { change (mh_ncmds (arch_mach_header arch1)) with (u32 (mh_ncmds h + 1)).
    apply u32_small. lia. }
  assert (Hs1 : mh_sizeofcmds (arch_mach_header arch1) = mh_sizeofcmds h + cs).
  { change (mh_sizeofcmds (arch_mach_header arch1))
      with (u32 (mh_sizeofcmds h + cs)).
    apply u32_small. unfold base in *. lia. }
  assert (Hnew : lc_sized new) by exact HD.
  assert (Hok1 : lc_offsets_ok base (lcs ++ [new]) = true).
  { rewrite lc_offsets_ok_app, Hok. simpl.
    rewrite andb_true_r. apply Z.eqb_eq. exact Hte. }
  split.
  { apply lc_table_ok_intro.
    - split.
      + rewrite Hn1. change (load_commands arch1) with (lcs ++ [new]).
        rewrite length_app. simpl. lia.
      + rewrite Hs1. change (load_commands arch1) with (lcs ++ [new]).
        rewrite sum_cmdsize_app. simpl. lia.
    - exact Hok1.
    - change (load_commands arch1) with (lcs ++ [new]).
      cbn [file set_file].
      replace (concat (raw_lc <$> lcs) ++ take (Z.to_nat cs) raw
                 ++ drop (Z.to_nat cs) Q)
        with (concat (raw_lc <$> lcs ++ [new]) ++ drop (Z.to_nat cs) Q).
      + apply (on_disk_of_layout P' _ (lcs ++ [new]) base);
          [lia | exact Hok1 | apply Forall_app; split; [assumption|]].
        now constructor.
      + rewrite concat_raw_app. cbn [fmap list_fmap concat].
        now rewrite app_nil_r, <- app_assoc. }
  split; [exact Hn1|]. split; [exact Hs1|]. split; [reflexivity|].
  cbn [file set_file]. rewrite Hf. unfold flen in *.
  rewrite !length_app, HP', length_take, !length_drop. lia.
Qed.

Lemma insert_load_command_keeps_table_witness :
  exists m' arch',
    insert_load_command three_commands 0 (raw_command 0x26 16 x44) = Some m'
    /\ archs m' = <[0%nat := arch']> (archs three_commands)
    /\ lc_table_ok 28 (file m') arch' = true
    /\ mh_ncmds (arch_mach_header arch') = 4
    /\ mh_sizeofcmds (arch_mach_header arch') = 128
    /\ flen (file m') = 160.
Proof.
  destruct (insert_load_command_keeps_table three_commands 0 three_arch
              (raw_command 0x26 16 x44) 28)
    as (m' & arch' & new & H1 & H2 & _ & _ & H3 & H5 & H6 & _ & H7).
  - reflexivity.
  - discriminate.
  - vm_compute. reflexivity.
  - vm_compute. discriminate.
  - vm_compute. discriminate.
  - vm_compute. discriminate.
  - vm_compute. discriminate.
  - vm_compute. discriminate.
  - exists m', arch'.
    split; [exact H1|]. split; [exact H2|]. split; [exact H3|].
    split; [exact H5|]. split; [exact H6 | exact H7].
Defined.

Lemma set_counts_back (h : mach_header) n s :
  set_counts (mh_ncmds h) (mh_sizeofcmds h) (set_counts n s h) = h.
Proof. now destruct h. Qed.

Lemma set_arch_mach_header_back (arch : MachOArch) h l :
  set_load_commands (load_commands arch)
    (set_arch_mach_header (arch_mach_header arch)
       (set_arch_mach_header h (set_load_commands l arch))) = arch.
Proof. now destruct arch. Qed.

(** X9.  A load command inserted into a slice that has commands and then
    removed again (it has the last index) leaves the container's records
    as they were: same slices, same header counts, same load commands.
    The file is the original one with the Mach-O header written out and
    the [cmdsize] bytes behind the table zeroed: what was there before the
    insertion is not brought back. *)
Theorem insert_then_remove_load_command (m : MachO) (a : nat)
    (arch : MachOArch) (raw : list byte) (hsize : Z) :
  let h := arch_mach_header arch in
  let cs := get32 raw 4 (mh_magic h) in
  let table_end := fa_offset (arch_fat_arch arch) + hsize + mh_sizeofcmds h in
  archs m !! a = Some arch ->
  load_commands arch <> [] ->
  lc_table_ok hsize (file m) arch = true ->
  sizeof_mach_header <= hsize ->
  0 <= fa_offset (arch_fat_arch arch) ->
  cs <= flen raw ->
  table_end + cs <= UINT32_MAX ->
  mh_ncmds h + 1 <= UINT32_MAX ->
  exists m1,
    insert_load_command m a raw = Some m1
    /\ remove_load_command m1 a (length (load_commands arch))
       = Some (set_file
                 (fzero (write_mach_header (file m) arch) table_end cs) m).
Proof.
  intros h cs table_end Ha Hne Htab Hh Hfo Hcs Hmax Hnmax.
  set (lcs := load_commands arch) in *.
  set (fo := fa_offset (arch_fat_arch arch)) in *.
  set (base := fo + hsize).
  destruct (lc_table_ok_spec _ _ _ Htab) as ((Hcnt & Hsum) & Hok & Hdisk).
  fold lcs fo base h in Hcnt, Hsum, Hok, Hdisk.
  pose proof (forallb_lc_on_disk_sized _ _ Hdisk) as Hall.
  destruct (layout_of_on_disk (file m) lcs base Hne Hok Hdisk)
    as (P & Q & Hf & HP).
  pose proof (get32_range raw 4 (mh_magic h)) as Hcr. fold cs in Hcr.
  pose proof (sum_cmdsize_sized_nonneg _ Hall) as Hs0.
  pose proof (flen_concat_raw _ Hall) as HC.
  assert (Hte : table_end = base + sum_cmdsize lcs)
    by (unfold table_end, base; lia).
  assert (Hb1 : fo + sizeof_mach_header <= base) by (unfold base; lia).
  assert (Hb2 : base + sum_cmdsize lcs + cs <= UINT32_MAX) by lia.
  destruct (insert_load_command_run m a arch raw P Q base Ha Hne Hall Hok Hf
              HP Hfo Hb1 Hcs Hb2)
    as [Hrun HD].
  fold h lcs cs fo in Hrun, HD. rewrite <- Hte in Hrun.
  set (h1 := set_counts (u32 (mh_ncmds h + 1)) (u32 (mh_sizeofcmds h + cs)) h)
    in *.
  set (new := LoadCommand_of_raw (mh_magic h) table_end raw) in *.
  set (arch1 := set_arch_mach_header h1 (set_load_commands (lcs ++ [new]) arch))
    in *.
  set (D := take (Z.to_nat cs) raw) in *.
  eexists. split; [exact Hrun|].
  pose proof (lookup_lt_Some _ _ _ Ha) as Hlt.
  unfold remove_load_command. cbn [archs set_file set_archs].
  rewrite list_lookup_insert_eq by assumption.
  change (load_commands arch1) with (lcs ++ [new]).
  assert (Hlen : (1 < length (lcs ++ [new]))%nat).
  { rewrite length_app. destruct lcs; [contradiction | simpl; lia]. }
  rewrite decide_True by assumption.
  assert (Hidx : length lcs = (length (lcs ++ [new]) - 1)%nat).
  { rewrite length_app. simpl. lia. }
  unfold move_load_command. rewrite decide_True by exact Hidx.
  unfold remove_last_load_command. cbn [archs set_file set_archs].
  rewrite list_lookup_insert_eq by assumption.
  change (load_commands arch1) with (lcs ++ [new]).
  rewrite last_snoc. cbn [file set_file set_archs].
  change (arch_mach_header arch1) with h1.
  change (cmdsize new) with cs. change (file_offset new) with table_end.
  assert (Hh0 : set_counts (u32 (mh_ncmds h1 - 1))
                  (u32 (mh_sizeofcmds h1 - cs)) h1 = h).
  { change (mh_ncmds h1) with (u32 (mh_ncmds h + 1)).
    change (mh_sizeofcmds h1) with (u32 (mh_sizeofcmds h + cs)).
    rewrite (u32_small (mh_ncmds h + 1)) by lia.
    rewrite (u32_small (mh_sizeofcmds h + cs)) by (unfold base in *; lia).
    replace (mh_ncmds h + 1 - 1) with (mh_ncmds h) by lia.
    replace (mh_sizeofcmds h + cs - cs) with (mh_sizeofcmds h) by lia.
    rewrite !u32_small by (unfold base in *; lia).
    apply set_counts_back. }
  rewrite Hh0. rewrite <- Hidx, take_app_length.
  replace (set_load_commands lcs (set_arch_mach_header h arch1)) with arch
    by (symmetry; apply set_arch_mach_header_back).
  rewrite list_insert_insert_eq, list_insert_id by assumption.
  f_equal.
  assert (Hfile :
    fzero (write_mach_header
             (write_at P fo (bytes_of_mach_header h1)
                ++ concat (raw_lc <$> lcs) ++ D ++ drop (Z.to_nat cs) Q)
             (set_arch_mach_header h arch1)) table_end cs
    = fzero (write_mach_header (file m) arch) table_end cs).
  { unfold fzero, write_mach_header.
    change (fa_offset (arch_fat_arch (set_arch_mach_header h arch1))) with fo.
    change (arch_mach_header (set_arch_mach_header h arch1)) with h.
    fold fo h. rewrite Hf.
    set (Zs := replicate (Z.to_nat cs) x00).
    assert (HZ : length Zs = Z.to_nat cs) by apply length_replicate.
    assert (HP1 : length (write_at P fo (bytes_of_mach_header h1)) = length P).
    { apply length_write_at_inside; [assumption|].
      rewrite length_bytes_of_mach_header. unfold flen. lia. }
    rewrite (write_at_app_l (write_at P fo (bytes_of_mach_header h1)))
      by (rewrite ?length_bytes_of_mach_header; unfold flen; lia).
    rewrite (write_at_app_l P)
      by (rewrite ?length_bytes_of_mach_header; unfold flen; lia).
    assert (Hlh : length (bytes_of_mach_header h1)
                  = length (bytes_of_mach_header h)).
    { apply Nat2Z.inj.
      change (flen (bytes_of_mach_header h1) = flen (bytes_of_mach_header h)).
      now rewrite !length_bytes_of_mach_header. }
    rewrite write_at_overwrite by exact Hlh.
    set (P0 := write_at P fo (bytes_of_mach_header h)).
    assert (HP0 : length P0 = length P).
    { apply length_write_at_inside; [assumption|].
      rewrite length_bytes_of_mach_header. unfold flen. lia. }
    rewrite !(app_assoc P0).
    rewrite write_at_splice, write_at_app_r, HZ.
    - reflexivity.
    - rewrite length_app, Nat2Z.inj_add, HP0. unfold flen in HC. lia.
    - rewrite length_app, Nat2Z.inj_add, HP0. unfold flen in HC. lia.
    - rewrite HZ. unfold flen in HD. lia. }
  destruct m as [f fs isf fm na ars]. cbn [file set_file set_archs] in *.
  now rewrite Hfile.
Qed.

Lemma insert_then_remove_load_command_witness :
  exists m1,
    insert_load_command three_commands 0 (raw_command 0x26 16 x44) = Some m1
    /\ remove_load_command m1 0 3
       = Some (set_file
                 (fzero (write_mach_header (file three_commands) three_arch)
                    140 16) three_commands).
Proof.
  apply (insert_then_remove_load_command three_commands 0 three_arch
           (raw_command 0x26 16 x44) 28).
  - reflexivity.
  - discriminate.
  - vm_compute. reflexivity.
  - vm_compute. discriminate.
  - vm_compute. discriminate.
  - vm_compute. discriminate.
  - vm_compute. discriminate.
  - vm_compute. discriminate.
Defined.

Lemma fmap_delete_list {A B} (f : A -> B) (l : list A) i :
  f <$> delete i l = delete i (f <$> l).
Proof.
  revert i. induction l as [|x l IH]; intros [|i]; simpl; try reflexivity.
  now rewrite IH.
Qed.

Lemma cmd_shrink_linkedit magic sz lc :
  cmd (shrink_linkedit magic sz lc) = cmd lc.
Proof. unfold shrink_linkedit. now destruct (cmd lc =? LC_SEGMENT). Qed.

Lemma cmd_of_strip (l : list LoadCommand) :
  cmd <$> l = (fun t : Z * Z * list byte => t.1.1) <$> (strip <$> l).
Proof. rewrite <- list_fmap_compose. reflexivity. Qed.

(** X10.  On a slice whose table holds one LC_CODE_SIGNATURE command, a
    call of [remove_codesignature] that returned true is final: the next
    call on the same slice finds no code-signature command, returns false
    and leaves the container as it is. *)
Theorem remove_codesignature_second_call
    (segname : LoadCommand -> list byte) (m m' : MachO) (a : nat)
    (arch : MachOArch) (ci : nat) (cs : LoadCommand) :
  archs m !! a = Some arch ->
  load_commands arch !! ci = Some cs ->
  cmd cs = LC_CODE_SIGNATURE ->
  Forall (fun lc => cmd lc <> LC_CODE_SIGNATURE)
    (delete ci (load_commands arch)) ->
  remove_codesignature segname m a = Some (true, m') ->
  remove_codesignature segname m' a = Some (false, m').
Proof.
  intros Ha Hci Hcmd Hone Hrun.
  set (lcs := load_commands arch) in *.
  assert (Hscan : codesig_index (scan_load_commands segname lcs) = Some ci).
  { apply (scan_codesig_last segname lcs ci cs Hci Hcmd).
    intros j lc Hj Hlc.
    rewrite Forall_lookup in Hone. apply (Hone (j - 1)%nat).
    rewrite list_lookup_delete_ge by lia.
    now replace (S (j - 1)) with j by lia. }
  destruct (remove_codesignature_true_inv segname m a arch m' Ha Hrun)
    as (ci' & cs' & li & ll & Hci' & Hcs' & Hli & Hll & _ & Hws).
  fold lcs in Hci', Hcs', Hli, Hll, Hws.
  rewrite Hscan in Hci'. injection Hci' as <-.
  pose proof (scan_indices_differ segname lcs ci li Hscan Hli) as Hdiff.
  pose proof (lookup_lt_Some _ _ _ Ha) as Hlt.
  cbv zeta in Hws.
  set (ll' := shrink_linkedit _ _ ll) in Hws.
  set (arch_s := shrink_slice _ _ _ _ _) in Hws.
  set (M1 := set_archs _ m) in Hws.
  assert (Hne : archs M1 <> []).
  { unfold M1. destruct m as [f fs isf fm na ars]. cbn [archs set_archs] in *.
    intros E. apply (f_equal length) in E.
    rewrite length_insert in E. simpl in E. lia. }
  destruct (write_fat_archs_spec M1 Hne) as (m2 & E2 & Ha2 & _).
  unfold write_shrunk in Hws. rewrite E2 in Hws.
  set (m3 := set_file _ m2) in Hws.
  assert (Ha3 : archs m3 !! a = Some arch_s).
  { change (archs m3) with (archs m2). rewrite Ha2. unfold M1.
    destruct m as [f fs isf fm na ars]. cbn [archs set_archs] in *.
    now apply list_lookup_insert_eq. }
  assert (Hci3 : load_commands arch_s !! ci = Some cs).
  { change (load_commands arch_s) with (<[li := ll']> lcs).
    rewrite list_lookup_insert_ne by congruence. exact Hci. }
  destruct (remove_load_command_spec m3 a arch_s ci cs Ha3 Hci3)
    as (m4 & arch' & E4 & Ha4 & Hstrip & _).
  rewrite E4 in Hws. injection Hws as <-.
  assert (Ha' : archs m4 !! a = Some arch').
  { rewrite Ha4. apply list_lookup_insert_eq.
    now apply lookup_lt_Some in Ha3. }
  apply (remove_codesignature_missing segname m4 a arch' Ha'). left.
  unfold scan_load_commands. rewrite scan_from_no_codesig; [reflexivity|].
  apply (Forall_fmap cmd (fun c => c <> LC_CODE_SIGNATURE)).
  rewrite cmd_of_strip, Hstrip, <- fmap_delete_list, <- cmd_of_strip.
  change (load_commands arch_s) with (<[li := ll']> lcs).
  rewrite fmap_delete_list, list_fmap_insert.
  unfold ll'. rewrite cmd_shrink_linkedit.
  rewrite list_insert_id by (rewrite list_lookup_fmap, Hll; reflexivity).
  rewrite <- fmap_delete_list. apply Forall_fmap. exact Hone.
Qed.

Lemma remove_codesignature_second_call_witness :
  exists m',
    remove_codesignature payload_segname padded_signed 0 = Some (true, m')
    /\ remove_codesignature payload_segname m' 0 = Some (false, m').
Proof.
  assert (E : exists m',
             remove_codesignature payload_segname padded_signed 0
             = Some (true, m')) by (eexists; vm_compute; reflexivity).
  destruct E as [m' E]. exists m'. split; [exact E|].
  apply (remove_codesignature_second_call payload_segname padded_signed m' 0
           padded_signed_arch 2
           (LoadCommand_of_raw MH_MAGIC_64 128
              (linkedit_data_command LC_CODE_SIGNATURE 7936 256))).
  - reflexivity.
  - reflexivity.
  - reflexivity.
  - repeat (apply Forall_cons; split; [vm_compute; discriminate|]).
    apply Forall_nil. exact I.
  - exact E.
Defined.

(** ** The fat table written and read back *)

Lemma word_at_app (P Q : list byte) v pos :
  pos = Z.of_nat (length P) -> word_at (P ++ to_le 4 v ++ Q) pos = u32 v.
Proof.
  intros HP. unfold word_at.
  rewrite (read_at_middle P (to_le 4 v) Q) by (rewrite ?length_to_le; easy).
  apply from_le_to_le_32.
Qed.

Lemma fat_arch_at_bytes (P Q : list byte) a pos :
  pos = Z.of_nat (length P) ->
  fat_arch_at (P ++ bytes_of_fat_arch a ++ Q) pos
  = mk_fat_arch (u32 (fa_cputype a)) (u32 (fa_cpusubtype a))
      (u32 (fa_offset a)) (u32 (fa_size a)) (u32 (fa_align a)).
Proof.
  intros HP. unfold fat_arch_at, bytes_of_fat_arch.
  rewrite <- !app_assoc.
  set (w1 := to_le 4 (fa_cputype a)). set (w2 := to_le 4 (fa_cpusubtype a)).
  set (w3 := to_le 4 (fa_offset a)). set (w4 := to_le 4 (fa_size a)).
  assert (H1 : length w1 = 4%nat) by apply length_to_le.
  assert (H2 : length w2 = 4%nat) by apply length_to_le.
  assert (H3 : length w3 = 4%nat) by apply length_to_le.
  assert (H4 : length w4 = 4%nat) by apply length_to_le.
  f_equal.
  - now apply word_at_app.
  - rewrite (app_assoc P w1). apply word_at_app.
    rewrite length_app. lia.
  - rewrite (app_assoc P w1), (app_assoc (P ++ w1) w2). apply word_at_app.
    rewrite !length_app. lia.
  - rewrite (app_assoc P w1), (app_assoc (P ++ w1) w2),
      (app_assoc ((P ++ w1) ++ w2) w3).
    apply word_at_app. rewrite !length_app. lia.
  - rewrite (app_assoc P w1), (app_assoc (P ++ w1) w2),
      (app_assoc ((P ++ w1) ++ w2) w3),
      (app_assoc (((P ++ w1) ++ w2) ++ w3) w4).
    apply word_at_app. rewrite !length_app. lia.
Qed.

Lemma swap_arch_read_back magic a :
  fat_arch_in_range a ->
  swap_arch magic
    (mk_fat_arch (u32 (fa_cputype (swap_arch magic a)))
       (u32 (fa_cpusubtype (swap_arch magic a)))
       (u32 (fa_offset (swap_arch magic a)))
       (u32 (fa_size (swap_arch magic a)))
       (u32 (fa_align (swap_arch magic a)))) = a.
Proof.
  intros Hr. rewrite <- (swap_arch_involutive magic a Hr) at 6.
  unfold swap_arch at 1 7. cbn [fa_cputype fa_cpusubtype fa_offset fa_size fa_align].
  now rewrite !SWAP32_u32.
Qed.

Lemma read_fat_archs_entries magic (l : list MachOArch) :
  forall (P R : list byte) pos,
    pos = Z.of_nat (length P) ->
    Forall (fun arch => fat_arch_in_range (arch_fat_arch arch)) l ->
    read_fat_archs magic
      (P ++ concat (map (fun arch =>
                           bytes_of_fat_arch
                             (swap_arch magic (arch_fat_arch arch))) l) ++ R)
      pos (length l)
    = arch_fat_arch <$> l.
Proof.
  induction l as [|x l IH]; intros P R pos HP Hall; [reflexivity|].
  apply Forall_cons in Hall as [Hx Hl].
  cbn [map concat length read_fat_archs fmap list_fmap].
  rewrite <- app_assoc. f_equal.
  - rewrite fat_arch_at_bytes by assumption.
    now apply swap_arch_read_back.
  - rewrite (app_assoc P). apply IH; [|assumption].
    rewrite length_app, Nat2Z.inj_add, <- HP.
    pose proof (length_bytes_of_fat_arch (swap_arch magic (arch_fat_arch x))) as E.
    unfold flen in E. rewrite E. reflexivity.
Qed.

Lemma open_fat_of_table magic n (l : list MachOArch) (R : list byte) :
  u32 magic = magic -> n = Z.of_nat (length l) -> n <= UINT32_MAX ->
  Forall (fun arch => fat_arch_in_range (arch_fat_arch arch)) l ->
  let F := (to_le 4 magic ++ to_le 4 (SWAP32 n magic))
             ++ concat (map (fun arch =>
                               bytes_of_fat_arch
                                 (swap_arch magic (arch_fat_arch arch))) l)
             ++ R in
  PEEK F = magic /\ open_fat magic F = (n, arch_fat_arch <$> l).
Proof.
  intros Hm Hn Hmax Hall F.
  assert (Hw : SWAP32 (word_at F 4) magic = n).
  { unfold F. rewrite <- app_assoc.
    rewrite (word_at_app (to_le 4 magic)) by now rewrite length_to_le.
    rewrite SWAP32_u32, SWAP32_involutive. apply u32_small. lia. }
  split.
  - unfold PEEK, F. rewrite <- !app_assoc.
    rewrite take_app_length' by (symmetry; apply length_to_le).
    now rewrite from_le_to_le_32.
  - unfold open_fat. rewrite Hw. f_equal.
    rewrite Hn, Nat2Z.id. unfold F.
    apply read_fat_archs_entries; [|assumption].
    rewrite length_app, !length_to_le. reflexivity.
Qed.

(** X11.  What [write_fat_header] and [write_fat_archs] put into a fat
    file is what the constructor reads from it: the file then starts with
    the fat magic, and the constructor's loop finds [n_archs] entries that,
    passed through [swap_arch], are the slices' entries field for field.
    The entries must hold 32-bit values, [n_archs] must be the number of
    slices, and the last slice must end behind the table, or the truncation
    in [write_fat_archs] would cut it. *)
Theorem fat_table_read_back (m : MachO) :
  is_fat m = true ->
  u32 (fat_magic m) = fat_magic m ->
  n_archs m = Z.of_nat (length (archs m)) ->
  n_archs m <= UINT32_MAX ->
  Forall (fun arch => fat_arch_in_range (arch_fat_arch arch)) (archs m) ->
  (forall L, last (archs m) = Some L ->
     sizeof_fat_header + sizeof_fat_arch * n_archs m
     <= u32 (fa_offset (arch_fat_arch L) + fa_size (arch_fat_arch L))) ->
  exists m',
    write_fat_archs (write_fat_header m) = Some m'
    /\ archs m' = archs m
    /\ PEEK (file m') = fat_magic m
    /\ open_fat (fat_magic m) (file m') = (n_archs m, arch_fat_arch <$> archs m).
Proof.
  destruct m as [f fs isf magic n ars].
  cbn [is_fat fat_magic n_archs archs]. intros -> Hm Hn Hmax Hall Hend.
  unfold write_fat_header, write_fat_archs.
  cbn [is_fat negb set_file file fat_magic n_archs archs file_size].
  set (H := to_le 4 magic ++ to_le 4 (SWAP32 n magic)).
  set (E := concat (map _ ars)).
  assert (HH : flen H = sizeof_fat_header).
  { unfold H, flen. now rewrite length_app, !length_to_le. }
  assert (HE : flen E = sizeof_fat_arch * n).
  { unfold E. rewrite length_fat_entries. lia. }
  assert (Hfile : write_at (write_at f 0 H) sizeof_fat_header E
                  = (H ++ E) ++ drop (length (H ++ E)) f).
  { rewrite <- HH. rewrite <- (Z.add_0_l (flen H)).
    rewrite write_at_app by lia. apply write_at_0. }
  rewrite Hfile.
  pose proof (fun R => open_fat_of_table magic n ars R Hm Hn Hmax Hall) as Hopen.
  cbv zeta in Hopen. fold H E in Hopen.
  destruct (0 <? n) eqn:Hpos.
  - destruct (last ars) as [L|] eqn:HL.
    + specialize (Hend L eq_refl).
      set (ns := u32 (fa_offset (arch_fat_arch L) + fa_size (arch_fat_arch L)))
        in *.
      cbn [file_size set_file file].
      destruct (ns =? fs).
      * eexists. split; [reflexivity|]. split; [reflexivity|].
        cbn [file]. rewrite <- app_assoc. apply Hopen.
      * eexists. split; [reflexivity|]. split; [reflexivity|].
        cbn [file set_file set_file_size]. unfold ftruncate.
        rewrite take_app_ge
          by (rewrite length_app; unfold flen in HH, HE; lia).
        rewrite <- !app_assoc. apply Hopen.
    + apply last_None in HL. subst ars. simpl in Hn.
      apply Z.ltb_lt in Hpos. lia.
  - eexists. split; [reflexivity|]. split; [reflexivity|].
    cbn [file]. rewrite <- app_assoc. apply Hopen.
Qed.

Lemma fat_table_read_back_witness :
  exists m',
    write_fat_archs (write_fat_header fat_two) = Some m'
    /\ PEEK (file m') = fat_magic fat_two
    /\ open_fat (fat_magic fat_two) (file m')
       = (2, arch_fat_arch <$> archs fat_two).
Proof.
  destruct (fat_table_read_back fat_two) as (m' & H1 & _ & H3 & H4).
  - reflexivity.
  - reflexivity.
  - reflexivity.
  - vm_compute. discriminate.
  - repeat (apply Forall_cons; split; [vm_compute; tauto|]).
    apply Forall_nil. exact I.
  - intros L HL. vm_compute in HL. inversion HL; subst L.
    vm_compute. discriminate.
  - exists m'. split; [exact H1|]. split; [exact H3 | exact H4].
Defined.

(** ** Inserting a slice *)

(** The three file operations of [insert_arch_from_macho] before the fat
    table is written, on a file of [fs] bytes. *)
Lemma insert_arch_file (f donor : File) fs offset size :
  fs = flen f -> fs <= offset -> 0 <= size <= flen donor ->
  fcpy (fzero (ftruncate f (fs + offset)) fs (offset - fs)) offset donor 0 size
  = f ++ replicate (Z.to_nat (offset - fs)) x00
      ++ take (Z.to_nat size) donor
      ++ replicate (Z.to_nat fs - Z.to_nat size) x00.
Proof.
  intros Hfs Hoff Hsz. unfold fcpy, fzero, flen in *.
  rewrite ftruncate_grow by lia.
  rewrite write_at_app_r by lia.
  rewrite length_replicate, drop_replicate.
  rewrite (app_assoc f).
  rewrite write_at_app_r
    by (rewrite length_app, length_replicate; lia).
  unfold read_at. rewrite drop_0, length_take, drop_replicate.
  rewrite <- app_assoc. do 3 f_equal. f_equal. lia.
Qed.

Lemma shiftl_1_pos n : 0 <= n -> 0 < Z.shiftl 1 n.
Proof.
  intros Hn. rewrite Z.shiftl_1_l. now apply Z.pow_pos_nonneg.
Qed.

(** [insert_arch_from_macho] on a fat recipient, as the container it
    returns. *)
Lemma insert_arch_from_macho_run (m macho : MachO) (i : nat)
    (arch : MachOArch) :
  let fa := swap_arch (fat_magic m)
              (swap_arch (fat_magic macho) (arch_fat_arch arch)) in
  let offset := ROUND_UP (file_size m) (Z.shiftl 1 (fa_align fa)) in
  let archs' := archs m ++ [set_arch_fat_arch (set_fa_offset offset fa) arch] in
  let table :=
    (to_le 4 (fat_magic m)
       ++ to_le 4 (SWAP32 (n_archs m + 1) (fat_magic m)))
      ++ concat (map (fun a => bytes_of_fat_arch
                                 (swap_arch (fat_magic m) (arch_fat_arch a)))
                   archs') in
  is_fat m = true ->
  file_size m = flen (file m) ->
  archs macho !! i = Some arch ->
  0 <= n_archs m -> n_archs m + 1 <= UINT32_MAX ->
  flen table <= file_size m ->
  file_size m + offset <= UINT32_MAX ->
  offset + fa_size fa <= UINT32_MAX ->
  fa_size fa <= flen (file macho) ->
  insert_arch_from_macho m macho i
  = Some (mk_MachO
            (table ++ drop (length table) (file m)
               ++ replicate (Z.to_nat (offset - file_size m)) x00
               ++ take (Z.to_nat (fa_size fa)) (file macho))
            (offset + fa_size fa) true (fat_magic m) (n_archs m + 1) archs').
Proof.
  destruct m as [f fs isf magic n ars].
  intros fa offset archs' table.
  cbn [is_fat fat_magic n_archs archs file file_size] in *.
  intros Hfat Hfs Harch Hn0 Hn Htab Hgrow Hend Hdonor.
  subst isf.
  set (a := Z.shiftl 1 (fa_align fa)) in *.
  assert (Ha : 0 < a).
  { apply shiftl_1_pos. apply (SWAP32_range _ magic). }
  pose proof (ROUND_UP_bounds fs a Ha) as Hru. fold offset in Hru.
  pose proof (SWAP32_range (fa_size (swap_arch (fat_magic macho)
                                       (arch_fat_arch arch))) magic) as Hsz.
  change (SWAP32 _ magic) with (fa_size fa) in Hsz.
  assert (Hfs0 : 0 <= fs) by (rewrite Hfs; unfold flen; lia).
  unfold insert_arch_from_macho.
  cbn [is_fat fat_magic n_archs archs file file_size]. rewrite Harch.
  fold fa. fold a. fold offset.
  rewrite (u32_small offset) by lia.
  rewrite (u32_small (n + 1)) by lia.
  rewrite (u32_small (fs + offset)) by lia.
  rewrite (u32_small (offset - fs)) by lia.
  change (fa_size (set_fa_offset offset fa)) with (fa_size fa).
  rewrite (insert_arch_file f (file macho) fs offset (fa_size fa))
    by (try assumption; lia).
  fold archs'.
  unfold write_fat_header, write_fat_archs.
  cbn [is_fat negb set_file file fat_magic n_archs archs file_size].
  set (H := to_le 4 magic ++ to_le 4 (SWAP32 (n + 1) magic)).
  set (E := concat (map _ archs')).
  assert (HH : flen H = sizeof_fat_header).
  { unfold H, flen. now rewrite length_app, !length_to_le. }
  change table with (H ++ E) in *.
  set (F3 := f ++ _).
  assert (Hfile : write_at (write_at F3 0 H) sizeof_fat_header E
                  = (H ++ E) ++ drop (length (H ++ E)) F3).
  { rewrite <- HH. rewrite <- (Z.add_0_l (flen H)).
    rewrite write_at_app by lia. apply write_at_0. }
  rewrite Hfile.
  replace (0 <? n + 1) with true by (symmetry; apply Z.ltb_lt; lia).
  unfold archs' at 1. rewrite last_snoc.
  cbn [arch_fat_arch set_arch_fat_arch fa_offset fa_size set_fa_offset].
  rewrite (u32_small (offset + fa_size fa)) by lia.
  assert (Hdrop : drop (length (H ++ E)) F3
                  = drop (length (H ++ E)) f
                      ++ replicate (Z.to_nat (offset - fs)) x00
                      ++ take (Z.to_nat (fa_size fa)) (file macho)
                      ++ replicate (Z.to_nat fs - Z.to_nat (fa_size fa)) x00).
  { unfold F3. apply drop_app_le. unfold flen in *. lia. }
  rewrite Hdrop.
  destruct (offset + fa_size fa =? fs + offset) eqn:Heq.
  - apply Z.eqb_eq in Heq.
    replace (Z.to_nat fs - Z.to_nat (fa_size fa))%nat with 0%nat by lia.
    cbn [replicate]. rewrite app_nil_r.
    unfold set_file. cbn [file file_size is_fat fat_magic n_archs archs].
    rewrite <- Heq. rewrite <- !app_assoc. reflexivity.
  - unfold set_file_size, set_file.
    cbn [file file_size is_fat fat_magic n_archs archs].
    f_equal. f_equal.
    rewrite !(app_assoc _ _ (replicate (Z.to_nat fs - _) x00)).
    rewrite !(app_assoc (H ++ E)).
    rewrite <- !app_assoc. rewrite !(app_assoc H E).
    rewrite (app_assoc (H ++ E)), (app_assoc ((H ++ E) ++ _)),
      (app_assoc (((H ++ E) ++ _) ++ _)).
    rewrite ftruncate_cut; [now rewrite <- !app_assoc|].
    rewrite !length_app, length_drop, length_replicate, length_take.
    unfold flen in *. rewrite !length_app in *. lia.
Qed.

(** X13.  [insert_arch_from_macho] on a fat recipient, written out as the
    file it leaves: the fat table with one more entry, the recipient's old
    bytes behind the table, zero bytes from the old end of the file up to
    the new slice's offset (the old size rounded up to the alignment of
    the entry), and then as many bytes as the entry's size, taken from the
    START of the donor's file, wherever the donor's slice lies.  The file
    ends there.  The entry is the donor's, passed through both containers'
    [swap_arch]. *)
Theorem insert_arch_from_macho_layout (m macho : MachO) (i : nat)
    (arch : MachOArch) :
  let fa := swap_arch (fat_magic m)
              (swap_arch (fat_magic macho) (arch_fat_arch arch)) in
  let offset := ROUND_UP (file_size m) (Z.shiftl 1 (fa_align fa)) in
  let archs' := archs m ++ [set_arch_fat_arch (set_fa_offset offset fa) arch] in
  let table :=
    (to_le 4 (fat_magic m)
       ++ to_le 4 (SWAP32 (n_archs m + 1) (fat_magic m)))
      ++ concat (map (fun a => bytes_of_fat_arch
                                 (swap_arch (fat_magic m) (arch_fat_arch a)))
                   archs') in
  is_fat m = true ->
  file_size m = flen (file m) ->
  archs macho !! i = Some arch ->
  0 <= n_archs m -> n_archs m + 1 <= UINT32_MAX ->
  flen table <= file_size m ->
  file_size m + offset <= UINT32_MAX ->
  offset + fa_size fa <= UINT32_MAX ->
  fa_size fa <= flen (file macho) ->
  insert_arch_from_macho m macho i
  = Some (mk_MachO
            (table ++ drop (length table) (file m)
               ++ replicate (Z.to_nat (offset - file_size m)) x00
               ++ take (Z.to_nat (fa_size fa)) (file macho))
            (offset + fa_size fa) true (fat_magic m) (n_archs m + 1) archs').
Proof. exact (insert_arch_from_macho_run m macho i arch). Qed.

Lemma insert_arch_from_macho_layout_witness :
  exists m',
    insert_arch_from_macho (tiny_fat 7) (tiny_fat 12) 0 = Some m'
    /\ flen (file m') = 156
    /\ read_at (file m') 128 28 = take 28 (file (tiny_fat 12)).
Proof.
  eexists. split.
  - apply (insert_arch_from_macho_layout (tiny_fat 7) (tiny_fat 12) 0
             (tiny_arch 12)).
    + reflexivity.
    + reflexivity.
    + reflexivity.
    + vm_compute. discriminate.
    + vm_compute. discriminate.
    + vm_compute. discriminate.
    + vm_compute. discriminate.
    + vm_compute. discriminate.
    + vm_compute. discriminate.
  - split; vm_compute; reflexivity.
Defined.

(** A write at or behind position [k] leaves the first [k] bytes alone. *)
Lemma take_write_at_above (g d : list byte) off k :
  (k <= Z.to_nat off)%nat -> (k <= length g)%nat ->
  take k (write_at g off d) = take k g.
Proof.
  intros Hk Hg. destruct (decide (d = [])) as [->|Hd]; [reflexivity|].
  rewrite write_at_nonempty by assumption.
  rewrite take_app_le by (rewrite length_take; lia).
  rewrite take_take. f_equal. lia.
Qed.

Lemma ftruncate_take (X Y : list byte) n :
  take (Z.to_nat n) X = Y -> length Y = Z.to_nat n -> ftruncate X n = Y.
Proof.
  intros HY HL. unfold ftruncate. rewrite HY.
  rewrite <- HY, length_take in HL.
  replace (Z.to_nat n - length X)%nat with 0%nat by lia.
  apply app_nil_r.
Qed.

(** X12.  [insert_arch_from_macho] on a thin recipient does not add the
    slice to the file: the file is grown, the donor bytes are copied, and
    then the thin branch of [write_fat_archs] cuts the file back to the
    size of the first slice.  The file ends up byte for byte as it was and
    [file_size] with it, while the container now counts one slice more and
    lists the donor's entry behind its own. *)
Theorem insert_arch_from_macho_thin (m macho : MachO) (i : nat)
    (arch arch0 : MachOArch) (rest : list MachOArch) :
  let fa := swap_arch (fat_magic m)
              (swap_arch (fat_magic macho) (arch_fat_arch arch)) in
  let offset := ROUND_UP (file_size m) (Z.shiftl 1 (fa_align fa)) in
  is_fat m = false ->
  archs m = arch0 :: rest ->
  fa_size (arch_fat_arch arch0) = file_size m ->
  file_size m = flen (file m) ->
  0 < file_size m ->
  archs macho !! i = Some arch ->
  file_size m + offset <= UINT32_MAX ->
  insert_arch_from_macho m macho i
  = Some (mk_MachO (file m) (file_size m) false (fat_magic m)
            (u32 (n_archs m + 1))
            (archs m ++ [set_arch_fat_arch (set_fa_offset offset fa) arch])).
Proof.
  destruct m as [f fs isf magic n ars].
  intros fa offset.
  cbn [is_fat fat_magic n_archs archs file file_size] in *.
  intros Hfat Hars Hsize Hfs Hpos Harch Hgrow. subst isf ars.
  set (a := Z.shiftl 1 (fa_align fa)) in *.
  assert (Ha : 0 < a).
  { apply shiftl_1_pos. apply (SWAP32_range _ magic). }
  pose proof (ROUND_UP_bounds fs a Ha) as Hru. fold offset in Hru.
  unfold insert_arch_from_macho.
  cbn [is_fat fat_magic n_archs archs file file_size]. rewrite Harch.
  fold fa. fold a. fold offset.
  rewrite (u32_small offset) by lia.
  rewrite (u32_small (fs + offset)) by lia.
  unfold write_fat_header, write_fat_archs.
  cbn [is_fat negb set_file file fat_magic n_archs archs file_size app].
  rewrite Hsize.
  replace (fs + offset =? fs) with false by (symmetry; apply Z.eqb_neq; lia).
  unfold set_file_size, set_file.
  cbn [file file_size is_fat fat_magic n_archs archs].
  f_equal. f_equal.
  apply ftruncate_take; [|unfold flen in Hfs; lia].
  unfold fcpy, fzero.
  rewrite !take_write_at_above.
  - rewrite ftruncate_grow by (unfold flen in Hfs; lia).
    apply take_app_length'. unfold flen in Hfs. lia.
  - lia.
  - rewrite length_ftruncate. lia.
  - lia.
  - rewrite <- (take_drop (Z.to_nat fs) (write_at _ fs _)).
    rewrite take_write_at_above
      by (rewrite ?length_ftruncate; lia).
    rewrite length_app, length_take, length_ftruncate. lia.
Qed.

Lemma insert_arch_from_macho_thin_witness :
  exists m',
    insert_arch_from_macho thin_small (tiny_fat 12) 0 = Some m'
    /\ file m' = file thin_small /\ is_fat m' = false
    /\ length (archs m') = 2%nat.
Proof.
  eexists. split.
  - apply (insert_arch_from_macho_thin thin_small (tiny_fat 12) 0
             (tiny_arch 12) (slice64_arch 0 64 []) []).
    + reflexivity.
    + reflexivity.
    + reflexivity.
    + reflexivity.
    + reflexivity.
    + reflexivity.
    + vm_compute. discriminate.
  - split; [reflexivity|]. split; reflexivity.
Defined.

(** ** Removing a slice *)

Lemma ROUND_UP_le_multiple x y a :
  0 < a -> x <= y -> y mod a = 0 -> ROUND_UP x a <= y.
Proof.
  intros Ha Hxy Hy. unfold ROUND_UP.
  pose proof (Z.div_mod y a ltac:(lia)) as Hd. rewrite Hy in Hd.
  assert (Hq : (x + a - 1) / a < y / a + 1).
  { apply Z.div_lt_upper_bound; [assumption | nia]. }
  nia.
Qed.

Lemma ROUND_UP_ge_align x a : 0 < x -> 0 < a -> a <= ROUND_UP x a.
Proof.
  intros Hx Ha. unfold ROUND_UP.
  assert (Hq : 1 <= (x + a - 1) / a).
  { apply Z.div_le_lower_bound; [assumption | lia]. }
  nia.
Qed.

(** One round of the loop of [remove_arch] on the file: the slice at
    [off] goes down to [no], and what lay between the new end and the old
    end is zeroed. *)
Lemma repack_step_file (f : File) no off size :
  0 <= no <= off -> 0 <= size -> off + size <= flen f ->
  fzero (fmove f no off size) (no + size) (off - no)
  = take (Z.to_nat no) f ++ read_at f off size
      ++ replicate (Z.to_nat (off - no)) x00
      ++ drop (Z.to_nat (off + size)) f.
Proof.
  intros Hno Hsz Hend. unfold fzero, fmove, flen in *.
  assert (HD : length (read_at f off size) = Z.to_nat size).
  { apply length_read_at; unfold flen; lia. }
  rewrite <- (take_drop (Z.to_nat no) f) at 1.
  rewrite write_at_app_r by (rewrite length_take; lia).
  rewrite app_assoc.
  rewrite write_at_app_r
    by (rewrite length_app, length_take, HD; lia).
  rewrite <- app_assoc. do 3 f_equal.
  rewrite HD, length_replicate, !drop_drop. f_equal. lia.
Qed.

Lemma read_at_take_agree (g g' : list byte) k r len :
  take k g = take k g' -> 0 <= r -> 0 <= len ->
  (Z.to_nat (r + len) <= k)%nat ->
  read_at g r len = read_at g' r len.
Proof.
  intros Hk Hr Hl Hb. unfold read_at.
  rewrite !take_drop_commute. f_equal.
  replace (Z.to_nat r + Z.to_nat len)%nat
    with ((Z.to_nat r + Z.to_nat len) `min` k)%nat by lia.
  now rewrite <- !take_take, Hk.
Qed.

Lemma read_at_drop_agree (g g' : list byte) k r len :
  drop k g = drop k g' -> (k <= Z.to_nat r)%nat ->
  read_at g r len = read_at g' r len.
Proof.
  intros Hk Hr. unfold read_at.
  replace (Z.to_nat r) with (k + (Z.to_nat r - k))%nat by lia.
  now rewrite <- !drop_drop, Hk.
Qed.

Lemma slices_ok_app start (l1 l2 : list MachOArch) :
  slices_ok start (l1 ++ l2) = slices_ok start l1 ≫= fun e => slices_ok e l2.
Proof.
  revert start. induction l1 as [|x l1 IH]; intros start; [reflexivity|].
  cbn [app slices_ok]. destruct (_ && _); [apply IH | reflexivity].
Qed.

Lemma slices_ok_cons start x l e :
  slices_ok start (x :: l) = Some e ->
  let fa := arch_fat_arch x in
  start <= fa_offset fa /\ 0 <= fa_size fa /\ 0 <= fa_align fa
  /\ fa_offset fa mod Z.shiftl 1 (fa_align fa) = 0
  /\ slices_ok (fa_offset fa + fa_size fa) l = Some e.
Proof.
  intros H fa. cbn [slices_ok] in H. fold fa in H.
  destruct (_ && _) eqn:E in H; [|discriminate].
  rewrite !andb_true_iff in E. destruct E as (((E1 & E2) & E3) & E4).
  apply Z.leb_le in E1, E2, E3. apply Z.eqb_eq in E4. auto.
Qed.

Lemma slices_ok_cons_intro start x l :
  let fa := arch_fat_arch x in
  start <= fa_offset fa -> 0 <= fa_size fa -> 0 <= fa_align fa ->
  fa_offset fa mod Z.shiftl 1 (fa_align fa) = 0 ->
  slices_ok start (x :: l) = slices_ok (fa_offset fa + fa_size fa) l.
Proof.
  intros fa H1 H2 H3 H4. cbn [slices_ok]. fold fa.
  apply Z.leb_le in H1, H2, H3. apply Z.eqb_eq in H4.
  now rewrite H1, H2, H3, H4.
Qed.

Lemma slices_ok_le start l e : slices_ok start l = Some e -> start <= e.
Proof.
  revert start. induction l as [|x l IH]; intros start H.
  - injection H as <-. lia.
  - apply slices_ok_cons in H as (H1 & H2 & _ & _ & H5).
    apply IH in H5. lia.
Qed.

Lemma slices_ok_weaken start start' l e :
  slices_ok start l = Some e -> l <> [] -> start' <= start ->
  slices_ok start' l = Some e.
Proof.
  destruct l as [|x l]; [contradiction|]. intros H _ Hs.
  apply slices_ok_cons in H as (H1 & H2 & H3 & H4 & H5).
  rewrite slices_ok_cons_intro; [assumption | lia | assumption..].
Qed.

Lemma take_agree_le {A} (g g' : list A) j k :
  take k g = take k g' -> (j <= k)%nat -> take j g = take j g'.
Proof.
  intros Hk Hj. replace j with (j `min` k)%nat by lia.
  now rewrite <- !take_take, Hk.
Qed.

Lemma repack_step_facts (f : File) no off size :
  0 <= no <= off -> 0 <= size -> off + size <= flen f ->
  let f2 := fzero (fmove f no off size) (no + size) (off - no) in
  flen f2 = flen f
  /\ take (Z.to_nat no) f2 = take (Z.to_nat no) f
  /\ read_at f2 no size = read_at f off size
  /\ drop (Z.to_nat (off + size)) f2 = drop (Z.to_nat (off + size)) f.
Proof.
  intros Hno Hsz Hend f2. unfold f2.
  rewrite repack_step_file by assumption.
  assert (HD : length (read_at f off size) = Z.to_nat size).
  { apply length_read_at; lia. }
  unfold flen in *.
  assert (HA : length (take (Z.to_nat no) f) = Z.to_nat no).
  { rewrite length_take. lia. }
  split; [|split; [|split]].
  - rewrite !length_app, HA, HD, length_replicate, length_drop. lia.
  - now rewrite take_app_length' by (symmetry; assumption).
  - apply read_at_middle; [lia | now symmetry].
  - rewrite !app_assoc. apply drop_app_length'.
    rewrite !length_app, HA, HD, length_replicate. lia.
Qed.

(** The loop of [remove_arch]: on slices that lie in order from [lo] on,
    repacked from [start <= lo], every slice keeps its bytes, the new
    offsets are in order and aligned from [start] on, and nothing in front
    of [start] is written. *)
Lemma repack_spec (later : list MachOArch) :
  forall (f : File) start lo e0,
    0 <= start <= lo ->
    slices_ok lo later = Some e0 ->
    e0 <= flen f -> flen f <= UINT32_MAX ->
    exists f' e moved,
      repack f start later = (f', e, moved)
      /\ flen f' = flen f
      /\ take (Z.to_nat start) f' = take (Z.to_nat start) f
      /\ slices_ok start moved = Some e
      /\ e <= e0
      /\ Forall2 (fun old new => lo <= fa_offset (arch_fat_arch old)
                                 /\ slice_kept f f' old new) later moved.
Proof.
  induction later as [|x rest IH]; intros f start lo e0 Hs Hok He0 Hmax.
  { injection Hok as <-. exists f, start, [].
    split; [reflexivity|]. split; [reflexivity|]. split; [reflexivity|].
    split; [reflexivity|]. split; [lia | constructor]. }
  apply slices_ok_cons in Hok as (Hlo & Hsz & Hal & Hmod & Hrest).
  set (fa := arch_fat_arch x) in *.
  set (off := fa_offset fa) in *. set (size := fa_size fa) in *.
  set (a := Z.shiftl 1 (fa_align fa)) in *.
  assert (Ha : 0 < a) by now apply shiftl_1_pos.
  pose proof (slices_ok_le _ _ _ Hrest) as Hend.
  set (no := ROUND_UP start a).
  pose proof (ROUND_UP_bounds start a Ha) as Hru. fold no in Hru.
  assert (Hno : no <= off).
  { apply ROUND_UP_le_multiple; [assumption | lia | assumption]. }
  cbn [repack]. fold fa off size a no.
  rewrite (u32_small no) by lia.
  rewrite (u32_small (no + size)) by lia.
  rewrite (u32_small (off - no)) by lia.
  destruct (repack_step_facts f no off size) as (Hl2 & Ht2 & Hr2 & Hd2);
    [lia | assumption | lia |].
  set (f2 := fzero (fmove f no off size) (no + size) (off - no)) in *.
  destruct (IH f2 (no + size) (off + size) e0)
    as (f' & e & moved & Hrep & Hlen & Htake & Hok' & He & HF);
    [lia | assumption | lia | lia |].
  rewrite Hrep.
  eexists f', e, (_ :: moved). split; [reflexivity|].
  split; [lia|]. split.
  { rewrite (take_agree_le f' f2 (Z.to_nat start) (Z.to_nat (no + size)))
      by (assumption || lia).
    apply (take_agree_le f2 f (Z.to_nat start) (Z.to_nat no));
      [assumption | lia]. }
  split.
  { rewrite slices_ok_cons_intro; cbn [arch_fat_arch set_arch_fat_arch
      fa_offset fa_size fa_align set_fa_offset]; fold fa size a.
    - exact Hok'.
    - lia.
    - assumption.
    - assumption.
    - apply ROUND_UP_multiple. assumption. }
  split; [assumption|].
  constructor.
  - split; [assumption|]. exists no. split; [reflexivity|]. split; [assumption|].
    fold fa off size. rewrite <- Hr2.
    apply (read_at_take_agree f' f2 (Z.to_nat (no + size)));
      [assumption | lia | assumption | lia].
  - eapply Forall2_impl; [exact HF|].
    intros old new (Hge & o' & Hnew & Hle & Hread).
    split; [lia|]. exists o'. split; [assumption|]. split; [assumption|].
    rewrite Hread.
    apply (read_at_drop_agree f2 f (Z.to_nat (off + size)));
      [assumption | lia].
Qed.

Lemma forallb_Forall {A} (p : A -> bool) (l : list A) :
  forallb p l = true <-> Forall (fun x => p x = true) l.
Proof.
  induction l as [|x l IH]; cbn [forallb].
  - split; [constructor | reflexivity].
  - rewrite andb_true_iff, Forall_cons, IH. reflexivity.
Qed.

Lemma Forall2_Forall_r {A B} (P : A -> B -> Prop) (Q : B -> Prop) l k :
  Forall2 P l k -> Forall Q k -> Forall2 (fun a b => P a b /\ Q b) l k.
Proof.
  induction 1 as [|a b l k Hab _ IH]; intros HQ; [constructor|].
  apply Forall_cons in HQ as [Hb HQ]. constructor; auto.
Qed.

Lemma Forall2_transfer {A B} (R : A -> B -> Prop) (P : A -> Prop)
    (Q : B -> Prop) l k :
  (forall a b, R a b -> P a -> Q b) ->
  Forall2 R l k -> Forall P l -> Forall Q k.
Proof.
  intros HRQ. induction 1 as [|a b l k Hab _ IH]; intros HP; [constructor|].
  apply Forall_cons in HP as [Ha HP]. constructor; eauto.
Qed.

Lemma slices_ok_Forall start l e :
  slices_ok start l = Some e ->
  Forall (fun p => start <= fa_offset (arch_fat_arch p)
                   /\ 0 <= fa_size (arch_fat_arch p)
                   /\ fa_offset (arch_fat_arch p) + fa_size (arch_fat_arch p)
                      <= e) l.
Proof.
  revert start. induction l as [|x l IH]; intros start H; [constructor|].
  apply slices_ok_cons in H as (H1 & H2 & _ & _ & H5).
  pose proof (slices_ok_le _ _ _ H5) as Hle.
  constructor; [lia|].
  eapply Forall_impl; [apply (IH _ H5)|].
  cbv beta. intros p (Hp1 & Hp2 & Hp3). lia.
Qed.

Lemma slices_ok_last start l L e :
  slices_ok start (l ++ [L]) = Some e ->
  e = fa_offset (arch_fat_arch L) + fa_size (arch_fat_arch L).
Proof.
  rewrite slices_ok_app.
  destruct (slices_ok start l) as [mid|]; [|discriminate].
  cbn [mbind option_bind]. intros H.
  apply slices_ok_cons in H as (_ & _ & _ & _ & H).
  now injection H as <-.
Qed.

Lemma slices_ok_restart start start' x l e :
  slices_ok start (x :: l) = Some e ->
  start' <= fa_offset (arch_fat_arch x) ->
  slices_ok start' (x :: l) = Some e.
Proof.
  intros H Hs.
  apply slices_ok_cons in H as (H1 & H2 & H3 & H4 & H5).
  now rewrite slices_ok_cons_intro.
Qed.

Lemma multiple_ge o a : 0 < o -> 0 < a -> o mod a = 0 -> a <= o.
Proof.
  intros Ho Ha Hm. destruct (Z.le_gt_cases a o) as [|Hlt]; [assumption|].
  rewrite Z.mod_small in Hm by lia. lia.
Qed.

(** A write that ends at or in front of position [k] of the file leaves
    what lies from [k] on alone. *)
Lemma drop_write_at_below (g d : list byte) off k :
  0 <= off -> off + flen d <= flen g ->
  (Z.to_nat (off + flen d) <= k)%nat ->
  drop k (write_at g off d) = drop k g.
Proof.
  intros Hoff Hin Hk. unfold flen in *.
  rewrite <- (take_drop (Z.to_nat off) g) at 1.
  rewrite <- (take_drop (length d) (drop (Z.to_nat off) g)) at 1.
  rewrite write_at_splice
    by (rewrite length_take, ?length_drop; lia).
  rewrite <- (take_drop (Z.to_nat off) g) at 3.
  rewrite <- (take_drop (length d) (drop (Z.to_nat off) g)) at 2.
  rewrite !app_assoc.
  rewrite !drop_app_ge
    by (rewrite length_app, !length_take, ?length_drop; lia).
  f_equal. rewrite !length_app, !length_take, length_drop. lia.
Qed.

Lemma ftruncate_idem (F : list byte) n :
  ftruncate (ftruncate F n) n = ftruncate F n.
Proof.
  apply ftruncate_take; [|apply length_ftruncate].
  rewrite <- (length_ftruncate F n) at 1. apply firstn_all.
Qed.

(** X14.  [remove_arch] keeps a fat container in order.  On a container
    whose slices lie behind the fat table, in order, aligned and within
    the file, the call returns; the slices in front of the removed one stay
    where they are, every slice behind it is moved down to an offset that
    is not larger, and each surviving slice has in the new file, at its
    new offset, the bytes it had in the old one.  The container that
    results is in order again, with one slice less, and its file ends with
    its last slice (or with the fat header when no slice is left). *)
Theorem remove_arch_keeps_layout (m : MachO) (i : nat) (x : MachOArch) :
  fat_layout_ok m = true ->
  archs m !! i = Some x ->
  exists m',
    remove_arch m i = Some m'
    /\ fat_layout_ok m' = true
    /\ n_archs m' = n_archs m - 1
    /\ fat_magic m' = fat_magic m
    /\ take i (archs m') = take i (archs m)
    /\ Forall2 (slice_kept (file m) (file m')) (delete i (archs m)) (archs m')
    /\ slices_ok (fat_table_size (n_archs m')) (archs m') = Some (file_size m').
Proof.
  destruct m as [f fs isf magic n ars].
  unfold fat_layout_ok. cbn [is_fat n_archs archs file file_size fat_magic].
  intros Hok Hx. rewrite !andb_true_iff in Hok.
  destruct Hok as (((((Hfat & Hn) & Hfs) & Hmax) & Hal) & Hsl).
  subst isf. apply Z.eqb_eq in Hn, Hfs. apply Z.leb_le in Hmax.
  destruct (slices_ok (fat_table_size n) ars) as [e0|] eqn:Hsl0;
    [|discriminate].
  apply Z.leb_le in Hsl. apply forallb_Forall in Hal.
  assert (Hars : ars = take i ars ++ x :: drop (S i) ars)
    by (symmetry; now apply take_drop_middle).
  assert (Hpre : length (take i ars) = i).
  { apply lookup_lt_Some in Hx. rewrite length_take. lia. }
  set (pre := take i ars) in *. set (post := drop (S i) ars) in *.
  clearbody pre post. subst ars.
  assert (Hlen : n = Z.of_nat (length pre) + 1 + Z.of_nat (length post)).
  { rewrite Hn, length_app. cbn [length]. lia. }
  clear Hn.
  set (T0 := fat_table_size n) in *.
  set (T' := fat_table_size (n - 1)).
  assert (HT : sizeof_fat_header <= T' <= T0 /\ T' = T0 - sizeof_fat_arch).
  { unfold T', T0, fat_table_size, sizeof_fat_header, sizeof_fat_arch. lia. }
  rewrite slices_ok_app in Hsl0.
  destruct (slices_ok T0 pre) as [mid|] eqn:Hpre_ok; [|discriminate].
  cbn [mbind option_bind] in Hsl0.
  pose proof (slices_ok_le _ _ _ Hpre_ok) as Hmid0.
  apply slices_ok_cons in Hsl0 as (Hmid & Hszx & Halx & Hmodx & Hpost).
  pose proof (slices_ok_le _ _ _ Hpost) as Hende0.
  apply Forall_app in Hal as [Hal_pre Hal_post].
  apply Forall_cons in Hal_post as [_ Hal_post].
  set (fax := arch_fat_arch x) in *.
  set (offx := fa_offset fax) in *. set (sizex := fa_size fax) in *.
  (* where the repacking starts *)
  assert (Hst : exists st,
    match i with
    | O => Some sizeof_fat_header
    | S k =>
        (fun prev => u32 (fa_offset (arch_fat_arch prev)
                          + fa_size (arch_fat_arch prev)))
          <$> (pre ++ x :: post) !! k
    end = Some st
    /\ 0 < st <= offx
    /\ Forall (fun p => fa_offset (arch_fat_arch p)
                        + fa_size (arch_fat_arch p) <= st) pre
    /\ (forall moved e,
          length moved = length post ->
          slices_ok st moved = Some e ->
          Forall (fun a => (T0 <=? Z.shiftl 1 (fa_align (arch_fat_arch a)))
                           = true) moved ->
          slices_ok T' (pre ++ moved) = Some e)).
  { destruct i as [|k].
    - destruct pre; [|discriminate]. injection Hpre_ok as <-.
      exists sizeof_fat_header. split; [reflexivity|].
      split; [unfold sizeof_fat_header in *; lia|]. split; [constructor|].
      intros moved e Hl Hm Ha. cbn [app].
      destruct moved as [|y moved].
      + destruct post; [|discriminate]. injection Hm as <-.
        cbn [slices_ok]. f_equal. cbn [length] in Hlen.
        unfold T', fat_table_size. subst n. reflexivity.
      + apply (slices_ok_restart sizeof_fat_header); [assumption|].
        apply Forall_cons in Ha as [Hy _]. apply Z.leb_le in Hy.
        apply slices_ok_cons in Hm as (Hy1 & _ & Hy3 & Hy4 & _).
        pose proof (multiple_ge (fa_offset (arch_fat_arch y))
                      (Z.shiftl 1 (fa_align (arch_fat_arch y)))) as Hge.
        unfold sizeof_fat_header in *.
        specialize (Hge ltac:(lia) (shiftl_1_pos _ Hy3) Hy4). lia.
    - assert (Hk : (k < length pre)%nat) by lia.
      destruct (lookup_lt_is_Some_2 pre k Hk) as [prev Hprev].
      assert (Hsplit : pre = take k pre ++ [prev]).
      { rewrite <- (take_S_r pre k prev Hprev).
        symmetry. apply take_ge. lia. }
      rewrite lookup_app_l by assumption. rewrite Hprev.
      pose proof Hpre_ok as Hmid_eq. rewrite Hsplit in Hmid_eq.
      apply slices_ok_last in Hmid_eq.
      exists mid. split.
      { cbn [fmap option_fmap option_map]. f_equal.
        rewrite <- Hmid_eq. apply u32_small.
        unfold sizeof_fat_header in *. lia. }
      split; [unfold sizeof_fat_header in *; lia|]. split.
      { eapply Forall_impl; [apply (slices_ok_Forall _ _ _ Hpre_ok)|].
        cbv beta. intros p (_ & _ & Hp). exact Hp. }
      intros moved e _ Hm _. rewrite slices_ok_app.
      rewrite (slices_ok_weaken T0 T' pre mid Hpre_ok);
        [exact Hm | | lia].
      intros ->. discriminate. }
  destruct Hst as (st & Hstart & Hst & Hpre_end & Hchain).
  set (f0 := fzero f offx sizex).
  assert (Hf0 : flen f0 = flen f
                /\ take (Z.to_nat offx) f0 = take (Z.to_nat offx) f
                /\ drop (Z.to_nat (offx + sizex)) f0
                   = drop (Z.to_nat (offx + sizex)) f).
  { unfold f0, fzero.
    assert (Hz : flen (replicate (Z.to_nat sizex) x00) = sizex).
    { unfold flen. rewrite length_replicate. lia. }
    split; [|split].
    - unfold flen at 1 2. f_equal.
      apply length_write_at_inside; rewrite ?Hz; lia.
    - apply take_write_at_above; unfold flen in *; lia.
    - apply drop_write_at_below; rewrite ?Hz; lia. }
  destruct Hf0 as (Hl0 & Ht0 & Hd0).
  destruct (repack_spec post f0 st (offx + sizex) e0)
    as (f1 & e & moved & Hrep & Hl1 & Ht1 & Hok1 & He & HF);
    [lia | assumption | lia | lia |].
  pose proof (Forall2_length _ _ _ HF) as Hlm.
  assert (Hal_moved :
    Forall (fun a => (T0 <=? Z.shiftl 1 (fa_align (arch_fat_arch a))) = true)
      moved).
  { eapply Forall2_transfer; [|exact HF|exact Hal_post].
    cbv beta. intros a b (_ & o' & Hb & _) Ha. subst b. exact Ha. }
  pose proof (Hchain moved e (eq_sym Hlm) Hok1 Hal_moved) as Hok2.
  pose proof (slices_ok_le _ _ _ Hok1) as Hste.
  assert (Hn1 : 0 <= n - 1 <= UINT32_MAX).
  { unfold T0, fat_table_size, sizeof_fat_header, sizeof_fat_arch in *. lia. }
  (* the call *)
  assert (Hrun : remove_arch (mk_MachO f fs true magic n (pre ++ x :: post)) i
                 = Some (mk_MachO
                           (ftruncate
                              ((to_le 4 magic ++ to_le 4 (SWAP32 (n - 1) magic))
                                 ++ concat
                                      (map (fun a =>
                                              bytes_of_fat_arch
                                                (swap_arch magic
                                                   (arch_fat_arch a)))
                                         (pre ++ moved))
                                 ++ drop (Z.to_nat T') f1) e)
                           e true magic (n - 1) (pre ++ moved))).
  { unfold remove_arch.
    cbn [archs file n_archs is_fat fat_magic file_size].
    rewrite Hx, Hstart. fold fax offx sizex f0.
    rewrite (u32_small (n - 1)) by lia.
    assert (Hdel : delete i (pre ++ x :: post) = pre ++ post).
    { rewrite delete_take_drop.
      rewrite take_app_length' by (symmetry; exact Hpre).
      rewrite cons_middle, app_assoc.
      rewrite drop_app_length'; [reflexivity|].
      rewrite length_app. cbn [length]. lia. }
    rewrite Hdel.
    rewrite decide_True by (rewrite length_app; lia).
    replace (Z.to_nat (n - 1) - i)%nat with (length post) by lia.
    rewrite drop_app_length' by (symmetry; exact Hpre).
    rewrite firstn_all, Hrep.
    rewrite take_app_length' by (symmetry; exact Hpre).
    rewrite (drop_ge (pre ++ post)) by (rewrite length_app; lia).
    rewrite app_nil_r.
    unfold write_fat_header, write_fat_archs.
    cbn [is_fat negb set_file file fat_magic n_archs archs file_size].
    set (H := to_le 4 magic ++ to_le 4 (SWAP32 (n - 1) magic)).
    set (E := concat (map _ (pre ++ moved))).
    assert (HH : flen H = sizeof_fat_header).
    { unfold H, flen. now rewrite length_app, !length_to_le. }
    assert (HE : flen (H ++ E) = T').
    { unfold flen in *. rewrite length_app, Nat2Z.inj_add, HH.
      pose proof (length_fat_entries magic (pre ++ moved)) as HEl.
      unfold flen in HEl. fold E in HEl. rewrite HEl, length_app.
      unfold T', fat_table_size. lia. }
    assert (Hfile : write_at (write_at f1 0 H) sizeof_fat_header E
                    = H ++ E ++ drop (Z.to_nat T') f1).
    { rewrite <- HH. rewrite <- (Z.add_0_l (flen H)).
      rewrite write_at_app by lia. rewrite write_at_0, <- app_assoc.
      unfold flen in HE. rewrite <- HE, Nat2Z.id. reflexivity. }
    rewrite Hfile.
    set (F := H ++ E ++ drop (Z.to_nat T') f1).
    destruct (0 <? n - 1) eqn:Hpos.
    - destruct (last (pre ++ moved)) as [L|] eqn:HL.
      + destruct (proj1 (last_Some _ _) HL) as [l' Hl'].
        pose proof Hok2 as Hend. rewrite Hl' in Hend.
        apply slices_ok_last in Hend. rewrite <- Hend.
        rewrite (u32_small e) by lia.
        destruct (e =? fs); unfold set_file_size, set_file;
          cbn [file file_size is_fat fat_magic n_archs archs];
          rewrite ?ftruncate_idem; reflexivity.
      + apply last_None in HL. apply (f_equal length) in HL.
        rewrite length_app in HL. cbn [length] in HL.
        apply Z.ltb_lt in Hpos. lia.
    - unfold set_file_size, set_file.
      cbn [file file_size is_fat fat_magic n_archs archs]. reflexivity. }
  eexists. split; [exact Hrun|].
  cbn [is_fat n_archs archs file file_size fat_magic].
  set (H := to_le 4 magic ++ to_le 4 (SWAP32 (n - 1) magic)).
  set (E := concat (map _ (pre ++ moved))).
  assert (HE : flen (H ++ E) = T').
  { pose proof (length_fat_entries magic (pre ++ moved)) as HEl.
    unfold flen in *. fold E in HEl.
    rewrite length_app, Nat2Z.inj_add, HEl. unfold H.
    rewrite !length_app, !length_to_le.
    unfold T', fat_table_size, sizeof_fat_header. lia. }
  set (F := H ++ E ++ drop (Z.to_nat T') f1).
  assert (HFlen : flen F = fs).
  { unfold F. rewrite app_assoc. unfold flen in *.
    rewrite length_app, length_drop. lia. }
  assert (HG : ftruncate F e = take (Z.to_nat e) F).
  { apply ftruncate_take; [reflexivity|].
    rewrite length_take. unfold flen in HFlen. lia. }
  assert (HGlen : flen (ftruncate F e) = e).
  { unfold flen. rewrite length_ftruncate. lia. }
  assert (Hread : forall o sz,
            T' <= o -> 0 <= sz -> o + sz <= e ->
            read_at (ftruncate F e) o sz = read_at f1 o sz).
  { intros o sz Ho Hsz Hoe.
    rewrite (read_at_take_agree (ftruncate F e) F (Z.to_nat e));
      [ | rewrite HG, take_take; f_equal; lia
        | unfold sizeof_fat_header in *; lia
        | assumption | lia ].
    apply (read_at_drop_agree F f1 (Z.to_nat T'));
      [|unfold sizeof_fat_header in *; lia].
    unfold F. rewrite app_assoc. apply drop_app_length'.
    unfold flen in HE. lia. }
  pose proof (slices_ok_Forall _ _ _ Hok2) as Hbounds.
  apply Forall_app in Hbounds as [Hb_pre Hb_moved].
  split.
  { (* the container is in order *)
    rewrite !andb_true_iff. split; [split; [split; [split; [split|]|]|]|].
    - reflexivity.
    - apply Z.eqb_eq. rewrite length_app. lia.
    - apply Z.eqb_eq. now rewrite HGlen.
    - apply Z.leb_le. lia.
    - apply forallb_Forall, Forall_app. split.
      + eapply Forall_impl; [exact Hal_pre|]. cbv beta.
        intros a Ha. apply Z.leb_le in Ha. apply Z.leb_le. fold T'. lia.
      + eapply Forall_impl; [exact Hal_moved|]. cbv beta.
        intros a Ha. apply Z.leb_le in Ha. apply Z.leb_le. fold T'. lia.
    - fold T'. rewrite Hok2. apply Z.leb_le. lia. }
  split; [reflexivity|]. split; [reflexivity|].
  split.
  { rewrite !take_app_length' by (symmetry; exact Hpre). reflexivity. }
  split; [|exact Hok2].
  assert (Hdel : delete i (pre ++ x :: post) = pre ++ post).
  { rewrite delete_take_drop.
    rewrite take_app_length' by (symmetry; exact Hpre).
    rewrite cons_middle, app_assoc.
    rewrite drop_app_length'; [reflexivity|].
    rewrite length_app. cbn [length]. lia. }
  rewrite Hdel. apply Forall2_app.
  - apply Forall_Forall2_diag.
    pose proof (conj Hb_pre Hpre_end) as Hboth.
    apply Forall_and in Hboth.
    eapply Forall_impl; [exact Hboth|]. cbv beta.
    intros p ((Hp1 & Hp2 & Hp3) & Hp4).
    exists (fa_offset (arch_fat_arch p)).
    split; [now destruct p as [[] ? ?]|]. split; [lia|].
    rewrite Hread by assumption.
    rewrite (read_at_take_agree f1 f0 (Z.to_nat st));
      [ | assumption | unfold sizeof_fat_header in *; lia | assumption | lia ].
    apply (read_at_take_agree f0 f (Z.to_nat offx));
      [ assumption | unfold sizeof_fat_header in *; lia | assumption | lia ].
  - pose proof (Forall2_Forall_r _ _ _ _ HF Hb_moved) as HF'.
    eapply Forall2_impl; [exact HF'|]. cbv beta.
    intros old new ((Hlo & o' & Hnew & Hle & Hrd) & Hb).
    subst new.
    cbn [arch_fat_arch set_arch_fat_arch fa_offset fa_size set_fa_offset] in Hb.
    destruct Hb as (Hb1 & Hb2 & Hb3).
    exists o'. split; [reflexivity|]. split; [assumption|].
    rewrite Hread by assumption. rewrite Hrd.
    apply (read_at_drop_agree f0 f (Z.to_nat (offx + sizex)));
      [assumption | lia].
Qed.

Lemma remove_arch_keeps_layout_witness :
  exists m',
    remove_arch fat_two 0 = Some m'
    /\ fat_layout_ok m' = true
    /\ n_archs m' = 1
    /\ Forall2 (slice_kept (file fat_two) (file m'))
         (delete 0%nat (archs fat_two)) (archs m').
Proof.
  destruct (remove_arch_keeps_layout fat_two 0
              (slice64_arch 4096 4096 fat_first_payloads))
    as (m' & H1 & H2 & H3 & _ & _ & H6 & _).
  - vm_compute. reflexivity.
  - reflexivity.
  - exists m'. split; [exact H1|]. split; [exact H2|].
    split; [exact H3 | exact H6].
Defined.

(** X15.  On a slice whose table holds no LC_CODE_SIGNATURE command
    [remove_codesignature] returns false and changes nothing, whatever
    segments and symbol table the slice has. *)
Theorem remove_codesignature_unsigned
    (segname : LoadCommand -> list byte) (m : MachO) (a : nat)
    (arch : MachOArch) :
  archs m !! a = Some arch ->
  Forall (fun lc => cmd lc <> LC_CODE_SIGNATURE) (load_commands arch) ->
  remove_codesignature segname m a = Some (false, m).
Proof.
  intros Ha Hno.
  apply (remove_codesignature_missing segname m a arch Ha). left.
  unfold scan_load_commands. now rewrite scan_from_no_codesig.
Qed.

Lemma remove_codesignature_unsigned_witness :
  remove_codesignature payload_segname three_commands 0
  = Some (false, three_commands).
Proof.
  apply (remove_codesignature_unsigned payload_segname three_commands 0
           three_arch).
  - reflexivity.
  - repeat (apply Forall_cons; split; [vm_compute; discriminate|]).
    apply Forall_nil. exact I.
Defined.


(** X17.  [insert_arch_from_macho] keeps a fat container in order when the
    fat table has room for one more entry in front of the first slice: the
    slices already there keep their entries and their bytes, the new entry
    comes last, at the old size of the file rounded up to its alignment,
    and the file ends with the new slice. *)
Theorem insert_arch_from_macho_keeps_layout (m macho : MachO) (i : nat)
    (arch : MachOArch) (e : Z) :
  let fa := swap_arch (fat_magic m)
              (swap_arch (fat_magic macho) (arch_fat_arch arch)) in
  let offset := ROUND_UP (file_size m) (Z.shiftl 1 (fa_align fa)) in
  let new := set_arch_fat_arch (set_fa_offset offset fa) arch in
  let T1 := fat_table_size (n_archs m + 1) in
  is_fat m = true ->
  n_archs m = Z.of_nat (length (archs m)) ->
  file_size m = flen (file m) ->
  archs macho !! i = Some arch ->
  slices_ok T1 (archs m) = Some e ->
  e <= file_size m ->
  Forall (fun a => T1 <= Z.shiftl 1 (fa_align (arch_fat_arch a)))
    (archs m ++ [new]) ->
  file_size m + offset <= UINT32_MAX ->
  offset + fa_size fa <= UINT32_MAX ->
  fa_size fa <= flen (file macho) ->
  exists m',
    insert_arch_from_macho m macho i = Some m'
    /\ fat_layout_ok m' = true
    /\ archs m' = archs m ++ [new]
    /\ file_size m' = offset + fa_size fa
    /\ Forall (fun a =>
                 read_at (file m') (fa_offset (arch_fat_arch a))
                   (fa_size (arch_fat_arch a))
                 = read_at (file m) (fa_offset (arch_fat_arch a))
                     (fa_size (arch_fat_arch a))) (archs m).
Proof.
  destruct m as [f fs isf magic n ars].
  intros fa offset new T1.
  cbn [is_fat fat_magic n_archs archs file file_size] in *.
  intros Hfat Hn Hfs Harch Hsl He Hal Hgrow Hend Hdonor. subst isf.
  pose proof (slices_ok_le _ _ _ Hsl) as HT1e.
  set (a := Z.shiftl 1 (fa_align fa)) in *.
  pose proof (SWAP32_range (fa_align (swap_arch (fat_magic macho)
                                        (arch_fat_arch arch))) magic) as Hal0.
  change (SWAP32 _ magic) with (fa_align fa) in Hal0.
  assert (Ha : 0 < a) by (apply shiftl_1_pos; lia).
  pose proof (ROUND_UP_bounds fs a Ha) as Hru. fold offset in Hru.
  pose proof (SWAP32_range (fa_size (swap_arch (fat_magic macho)
                                       (arch_fat_arch arch))) magic) as Hsz.
  change (SWAP32 _ magic) with (fa_size fa) in Hsz.
  set (table :=
         (to_le 4 magic ++ to_le 4 (SWAP32 (n + 1) magic))
           ++ concat (map (fun a => bytes_of_fat_arch
                                      (swap_arch magic (arch_fat_arch a)))
                        (ars ++ [new]))).
  assert (Htab : flen table = T1).
  { unfold table, flen. rewrite length_app, Nat2Z.inj_add.
    pose proof (length_fat_entries magic (ars ++ [new])) as HEl.
    unfold flen in HEl. rewrite HEl.
    rewrite !length_app, !length_to_le. cbn [length].
    unfold T1, fat_table_size, sizeof_fat_header. lia. }
  assert (HT1 : 0 <= n /\ n + 1 <= UINT32_MAX /\ sizeof_fat_header <= T1).
  { unfold T1, fat_table_size, sizeof_fat_header, sizeof_fat_arch in *. lia. }
  assert (HT10 : 0 < T1) by (unfold sizeof_fat_header in *; lia).
  pose proof (insert_arch_from_macho_run (mk_MachO f fs true magic n ars)
                macho i arch) as Hrun.
  cbv zeta in Hrun.
  cbn [is_fat fat_magic n_archs archs file file_size] in Hrun.
  fold fa a offset new table in Hrun.
  specialize (Hrun eq_refl Hfs Harch ltac:(tauto) ltac:(tauto)
                ltac:(lia) Hgrow Hend Hdonor).
  eexists. split; [exact Hrun|].
  cbn [archs file file_size].
  set (D := take (Z.to_nat (fa_size fa)) (file macho)).
  set (Zs := replicate (Z.to_nat (offset - fs)) x00).
  assert (HD : length D = Z.to_nat (fa_size fa)).
  { unfold D. rewrite length_take. unfold flen in Hdonor. lia. }
  assert (Hlt : length table = Z.to_nat T1) by (unfold flen in Htab; lia).
  split.
  { unfold fat_layout_ok.
    cbn [is_fat n_archs archs file file_size].
    rewrite !andb_true_iff. split; [split; [split; [split; [split|]|]|]|].
    - reflexivity.
    - apply Z.eqb_eq. rewrite length_app. cbn [length]. lia.
    - apply Z.eqb_eq. unfold flen in *.
      rewrite !length_app, length_drop, HD. unfold Zs.
      rewrite length_replicate. lia.
    - apply Z.leb_le. lia.
    - apply forallb_Forall. fold T1.
      eapply Forall_impl; [exact Hal|]. cbv beta.
      intros x Hx. now apply Z.leb_le.
    - fold T1. rewrite slices_ok_app, Hsl. cbn [mbind option_bind].
      rewrite slices_ok_cons_intro;
        cbn [new arch_fat_arch set_arch_fat_arch fa_offset fa_size fa_align
             set_fa_offset]; fold a.
      + cbn [slices_ok]. apply Z.leb_le. lia.
      + lia.
      + lia.
      + lia.
      + now apply ROUND_UP_multiple. }
  split; [reflexivity|]. split; [reflexivity|].
  eapply Forall_impl; [apply (slices_ok_Forall _ _ _ Hsl)|]. cbv beta.
  intros x (Hx1 & Hx2 & Hx3).
  set (g := table ++ drop (length table) f).
  assert (Hg : take (Z.to_nat fs) (table ++ drop (length table) f ++ Zs ++ D)
               = take (Z.to_nat fs) g).
  { rewrite (app_assoc table). fold g.
    apply take_app_le. unfold g, flen in *.
    rewrite length_app, length_drop. lia. }
  rewrite (read_at_take_agree _ g (Z.to_nat fs));
    [ | exact Hg | lia | assumption | lia ].
  apply (read_at_drop_agree g f (length table)); [|lia].
  unfold g. now rewrite drop_app_length.
Qed.

Lemma insert_arch_from_macho_keeps_layout_witness :
  exists m',
    insert_arch_from_macho fat_two thin_small 0 = Some m'
    /\ fat_layout_ok m' = true
    /\ length (archs m') = 3%nat
    /\ file_size m' = 12288 + 64.
Proof.
  destruct (insert_arch_from_macho_keeps_layout fat_two thin_small 0
              (slice64_arch 0 64 []) 12288)
    as (m' & H1 & H2 & H3 & H4 & _).
  - reflexivity.
  - reflexivity.
  - reflexivity.
  - reflexivity.
  - vm_compute. reflexivity.
  - vm_compute. discriminate.
  - apply Forall_app. split;
      repeat (apply Forall_cons; split; [vm_compute; discriminate|]);
      apply Forall_nil; exact I.
  - vm_compute. discriminate.
  - vm_compute. discriminate.
  - vm_compute. discriminate.
  - exists m'. split; [exact H1|]. split; [exact H2|].
    split; [now rewrite H3 | exact H4].
Defined.

(** ** The table after [remove_codesignature] *)

Lemma splice_length (raw bs : list byte) off :
  (off + length bs <= length raw)%nat ->
  length (splice raw off bs) = length raw.
Proof.
  intros H. unfold splice.
  rewrite !length_app, length_take, length_drop. lia.
Qed.

Lemma lc_sized_shrink_linkedit magic sz ll :
  lc_sized ll -> 56 <= cmdsize ll -> lc_sized (shrink_linkedit magic sz ll).
Proof.
  unfold lc_sized, flen, shrink_linkedit. intros Hs Hc.
  destruct (cmd ll =? LC_SEGMENT); cbn [raw_lc cmdsize set_raw_lc];
    rewrite !splice_length; rewrite ?splice_length, ?length_to_le;
    rewrite ?length_to_le; lia.
Qed.

Lemma lc_offsets_ok_insert base l i (x y : LoadCommand) :
  l !! i = Some y -> file_offset x = file_offset y -> cmdsize x = cmdsize y ->
  lc_offsets_ok base (<[i := x]> l) = lc_offsets_ok base l.
Proof.
  revert base i. induction l as [|z l IH]; intros base [|i] Hi Ho Hc;
    try discriminate.
  - injection Hi as ->. cbn [insert list_insert lc_offsets_ok].
    now rewrite Ho, Hc.
  - cbn [insert list_insert lc_offsets_ok]. f_equal. now apply IH.
Qed.

Lemma concat_raw_insert (l : list LoadCommand) i (x y : LoadCommand) :
  l !! i = Some y ->
  concat (raw_lc <$> l)
  = concat (raw_lc <$> take i l) ++ raw_lc y
      ++ concat (raw_lc <$> drop (S i) l)
  /\ concat (raw_lc <$> <[i := x]> l)
     = concat (raw_lc <$> take i l) ++ raw_lc x
         ++ concat (raw_lc <$> drop (S i) l).
Proof.
  intros Hi. pose proof (lookup_lt_Some _ _ _ Hi) as Hlt. split.
  - rewrite <- (take_drop_middle l i y Hi) at 1.
    rewrite concat_raw_app. now cbn [fmap list_fmap concat].
  - rewrite insert_take_drop by assumption.
    rewrite concat_raw_app. now cbn [fmap list_fmap concat].
Qed.

Lemma ftruncate_keeps (P C Q : list byte) n :
  Z.of_nat (length (P ++ C)) <= n ->
  exists Q', ftruncate (P ++ C ++ Q) n = P ++ C ++ Q'.
Proof.
  intros Hn. unfold ftruncate. rewrite length_app in Hn.
  rewrite take_app_ge by lia. rewrite take_app_ge by lia.
  eexists. rewrite <- !app_assoc. reflexivity.
Qed.

(** [write_fat_archs] leaves alone what lies behind the fat table and in
    front of the end of the slice it may cut the file to. *)
Lemma write_fat_archs_keeps_region (M m2 : MachO) (P C Q : list byte) :
  write_fat_archs M = Some m2 ->
  file M = P ++ C ++ Q ->
  (is_fat M = false ->
   forall arch0, head (archs M) = Some arch0 ->
                 Z.of_nat (length (P ++ C)) <= fa_size (arch_fat_arch arch0)) ->
  (is_fat M = true ->
   fat_table_size (Z.of_nat (length (archs M))) <= Z.of_nat (length P)
   /\ forall L, last (archs M) = Some L ->
                Z.of_nat (length (P ++ C))
                <= u32 (fa_offset (arch_fat_arch L)
                        + fa_size (arch_fat_arch L))) ->
  exists P2 Q2,
    file m2 = P2 ++ C ++ Q2 /\ length P2 = length P /\ archs m2 = archs M.
Proof.
  destruct M as [f fs isf magic n ars].
  cbn [file is_fat archs]. intros Hw -> Hthin Hfat.
  unfold write_fat_archs in Hw.
  cbn [is_fat archs file file_size fat_magic n_archs set_file] in Hw.
  destruct isf; cbn [negb] in Hw.
  - destruct (Hfat eq_refl) as [Htab Hlast]. clear Hthin Hfat.
    set (E := concat (map _ ars)) in Hw.
    assert (HE : flen E = sizeof_fat_arch * Z.of_nat (length ars))
      by apply length_fat_entries.
    assert (Hwr : write_at (P ++ C ++ Q) sizeof_fat_header E
                  = write_at P sizeof_fat_header E ++ C ++ Q).
    { apply write_at_app_l; [unfold sizeof_fat_header; lia|].
      unfold fat_table_size, flen in *. lia. }
    assert (HP2 : length (write_at P sizeof_fat_header E) = length P).
    { apply length_write_at_inside; [unfold sizeof_fat_header; lia|].
      unfold fat_table_size, flen in *. lia. }
    rewrite Hwr in Hw. set (P2 := write_at P sizeof_fat_header E) in *.
    destruct (0 <? n).
    + destruct (last ars) as [L|] eqn:HL; [|discriminate].
      specialize (Hlast L eq_refl).
      destruct (_ =? _) in Hw.
      * injection Hw as <-. now exists P2, Q.
      * injection Hw as <-. cbn [file set_file set_file_size archs].
        destruct (ftruncate_keeps P2 C Q
                    (u32 (fa_offset (arch_fat_arch L)
                          + fa_size (arch_fat_arch L)))) as [Q' HQ'].
        { rewrite length_app in *. lia. }
        exists P2, Q'. now rewrite HQ'.
    + injection Hw as <-. now exists P2, Q.
  - clear Hfat. destruct ars as [|arch0 rest]; [discriminate|].
    specialize (Hthin eq_refl arch0 eq_refl).
    destruct (_ =? _) in Hw.
    + injection Hw as <-. now exists P, Q.
    + injection Hw as <-. cbn [file set_file set_file_size archs].
      destruct (ftruncate_keeps P C Q (fa_size (arch_fat_arch arch0)))
        as [Q' HQ']; [assumption|].
      exists P, Q'. now rewrite HQ'.
Qed.

(** X18.  A successful [remove_codesignature] keeps the load-command table
    of the slice in order.  If before the call the header's counts
    describe the table, the records lie one behind the other from the end
    of the header and are on disk, the selected segment command is long
    enough to hold the fields that are assigned, and the table lies in
    front of what is cut off, then after the call the same holds for the
    new table: it has lost the code-signature command found by the scan,
    [ncmds] is one less and [sizeofcmds] is less by that command's
    [cmdsize], and every record, the rewritten segment command included,
    is on disk at its offset. *)
Theorem remove_codesignature_keeps_table
    (segname : LoadCommand -> list byte) (m m' : MachO) (a : nat)
    (arch : MachOArch) (hsize : Z) :
  let h := arch_mach_header arch in
  let magic := mh_magic h in
  let lcs := load_commands arch in
  let fa := arch_fat_arch arch in
  let s := scan_load_commands segname lcs in
  archs m !! a = Some arch ->
  remove_codesignature segname m a = Some (true, m') ->
  lc_table_ok hsize (file m) arch = true ->
  sizeof_mach_header <= hsize ->
  0 <= fa_offset fa ->
  mh_ncmds h <= UINT32_MAX ->
  fa_offset fa + fa_size fa <= UINT32_MAX ->
  (forall li ll, linkedit_index s = Some li -> lcs !! li = Some ll ->
                 56 <= cmdsize ll) ->
  (forall ci cs, codesig_index s = Some ci -> lcs !! ci = Some cs ->
                 hsize + mh_sizeofcmds h + datasize magic cs + 16
                 <= fa_size fa) ->
  (is_fat m = false -> a = 0%nat /\ fa_offset fa = 0) ->
  (is_fat m = true ->
   fat_table_size (Z.of_nat (length (archs m))) <= fa_offset fa + hsize
   /\ forall L, last (archs m) = Some L ->
                fa_offset fa + fa_size fa
                <= u32 (fa_offset (arch_fat_arch L)
                        + fa_size (arch_fat_arch L))) ->
  exists arch' ci cs,
    archs m' !! a = Some arch'
    /\ lc_table_ok hsize (file m') arch' = true
    /\ codesig_index s = Some ci /\ lcs !! ci = Some cs
    /\ cmd <$> load_commands arch' = delete ci (cmd <$> lcs)
    /\ mh_ncmds (arch_mach_header arch') = mh_ncmds h - 1
    /\ mh_sizeofcmds (arch_mach_header arch') = mh_sizeofcmds h - cmdsize cs.
Proof.
  intros h magic lcs fa s Ha Hrun Htab Hh Hfo Hnmax Hend Hseg Hroom
    Hthin Hfat.
  destruct (remove_codesignature_true_inv segname m a arch m' Ha Hrun)
    as (ci & cs & li & ll & Hci & Hcs & Hli & Hll & Hsize & Hws).
  fold lcs s magic fa in Hci, Hcs, Hli, Hll, Hsize, Hws. cbv zeta in Hws.
  fold lcs s magic fa in Hws.
  specialize (Hseg li ll Hli Hll). specialize (Hroom ci cs Hci Hcs).
  pose proof (scan_indices_differ segname lcs ci li Hci Hli) as Hdiff.
  destruct (lc_table_ok_spec _ _ _ Htab) as ((Hcnt & Hsum) & Hok & Hdisk).
  fold lcs h fa in Hcnt, Hsum, Hok, Hdisk.
  pose proof (forallb_lc_on_disk_sized _ _ Hdisk) as Hall.
  set (base := fa_offset fa + hsize) in *.
  assert (Hne : lcs <> []) by (intros E; rewrite E in Hcs; discriminate).
  destruct (layout_of_on_disk (file m) lcs base Hne Hok Hdisk)
    as (P & Q & Hf & HP).
  pose proof (sum_cmdsize_sized_nonneg _ Hall) as Hs0.
  pose proof (flen_concat_raw _ Hall) as HC.
  pose proof (get32_range (raw_lc cs) 12 magic) as Hds.
  change (get32 (raw_lc cs) 12 magic) with (datasize magic cs) in Hds.
  set (ds := datasize magic cs) in *.
  set (size := fa_size fa) in *.
  assert (Hsz : 0 <= ds <= size /\ size <= UINT32_MAX)
    by (unfold sizeof_mach_header in *; lia).
  set (red := size_reduction magic size ds (symtab_index s ≫= (lcs !!.)))
    in *.
  destruct (size_reduction_bounds magic size ds
              (symtab_index s ≫= (lcs !!.))) as [Hred Hred'];
    [tauto | tauto |]. fold red in Hred, Hred'.
  set (ll' := shrink_linkedit magic
                (u64 ((linkedit_range magic ll).2 - red)) ll) in *.
  set (arch_s := shrink_slice arch li ll (linkedit_range magic ll).2 red)
    in *.
  set (M1 := set_archs (<[a := arch_s]> (archs m)) m) in *.
  pose proof (lookup_lt_Some _ _ _ Ha) as Hlt.
  destruct (shrink_linkedit_geometry magic
              (u64 ((linkedit_range magic ll).2 - red)) ll)
    as (Hcmd' & Hcs' & Hoff'). fold ll' in Hcmd', Hcs', Hoff'.
  assert (Hsized' : lc_sized ll').
  { apply lc_sized_shrink_linkedit; [|assumption].
    rewrite Forall_lookup in Hall. now apply (Hall li). }
  assert (Hsize_s : fa_size (arch_fat_arch arch_s) = size - red).
  { change (fa_size (arch_fat_arch arch_s)) with (u32 (size - red)).
    apply u32_small. lia. }
  assert (Hlcs_s : load_commands arch_s = <[li := ll']> lcs) by reflexivity.
  (* the fat entries are written *)
  change (write_shrunk M1 a ci ll' = Some (true, m')) in Hws.
  unfold write_shrunk in Hws.
  destruct (write_fat_archs M1) as [m2|] eqn:E2; [|discriminate Hws].
  destruct (write_fat_archs_keeps_region M1 m2 P (concat (raw_lc <$> lcs)) Q
              E2)
    as (P2 & Q2 & Hf2 & HP2 & Ha2).
  { unfold M1. destruct m; exact Hf. }
  { intros Hisf arch0 Hhead.
    assert (Hm : is_fat m = false) by (destruct m; exact Hisf).
    destruct (Hthin Hm) as [-> Hfo0].
    assert (arch0 = arch_s).
    { unfold M1 in Hhead. destruct m as [f0 fs0 i0 mg0 n0 ars0].
      cbn [archs set_archs] in *. destruct ars0; [discriminate|].
      cbn in Hhead. congruence. }
    subst arch0. rewrite Hsize_s, length_app, Nat2Z.inj_add, <- HP.
    unfold flen in HC. rewrite HC. unfold base. lia. }
  { intros Hisf.
    assert (Hm : is_fat m = true) by (destruct m; exact Hisf).
    destruct (Hfat Hm) as [Htable HL].
    assert (Harchs1 : archs M1 = <[a := arch_s]> (archs m))
      by (destruct m; reflexivity).
    rewrite Harchs1, length_insert. split; [lia|].
    intros L HLast. rewrite last_insert in HLast by assumption.
    rewrite length_app, Nat2Z.inj_add, <- HP.
    unfold flen in HC. rewrite HC.
    destruct (decide (S a = length (archs m))).
    - injection HLast as <-.
      change (fa_offset (arch_fat_arch arch_s)) with (fa_offset fa).
      rewrite Hsize_s. rewrite u32_small by lia. unfold base. lia.
    - specialize (HL L HLast). unfold base. lia. }
  set (m3 := set_file (write_load_command (file m2) ll') m2) in *.
  (* the selected segment command is written *)
  destruct (concat_raw_insert lcs li ll' ll Hll) as [HCold HCnew].
  set (C1 := concat (raw_lc <$> take li lcs)) in *.
  set (C2 := concat (raw_lc <$> drop (S li) lcs)) in *.
  assert (Hoff_ll : file_offset ll' = Z.of_nat (length (P2 ++ C1))).
  { rewrite Hoff', (lc_offsets_ok_lookup base lcs li ll Hok Hll).
    rewrite length_app, Nat2Z.inj_add, HP2, <- HP.
    assert (Hall1 : Forall lc_sized (take li lcs)) by now apply Forall_take.
    pose proof (flen_concat_raw _ Hall1) as HC1. fold C1 in HC1.
    unfold flen in HC1. lia. }
  assert (Hf3 : file m3 = P2 ++ concat (raw_lc <$> <[li := ll']> lcs) ++ Q2).
  { cbn [m3 file set_file]. unfold write_load_command.
    rewrite (lc_bytes_sized ll' Hsized'), Hf2, HCold, HCnew.
    rewrite <- !app_assoc. rewrite !(app_assoc P2 C1).
    apply write_at_splice; [assumption|].
    unfold lc_sized, flen in Hsized'.
    rewrite Forall_lookup in Hall. specialize (Hall li ll Hll).
    unfold lc_sized, flen in Hall. lia. }
  assert (Ha3 : archs m3 !! a = Some arch_s).
  { change (archs m3) with (archs m2). rewrite Ha2.
    unfold M1. destruct m as [f0 fs0 i0 mg0 n0 ars0].
    cbn [archs set_archs] in *. now apply list_lookup_insert_eq. }
  assert (Hok_s : lc_offsets_ok base (<[li := ll']> lcs) = true).
  { now rewrite (lc_offsets_ok_insert base lcs li ll' ll Hll). }
  assert (Hsum_s : sum_cmdsize (<[li := ll']> lcs) = sum_cmdsize lcs).
  { pose proof (sum_cmdsize_drop_insert 0 li ll' ll lcs Hll Hcs') as E.
    now rewrite !drop_0 in E. }
  assert (Htab3 : lc_table_ok hsize (file m3) arch_s = true).
  { apply lc_table_ok_intro.
    - split.
      + rewrite Hlcs_s, length_insert. exact Hcnt.
      + rewrite Hlcs_s, Hsum_s. exact Hsum.
    - exact Hok_s.
    - rewrite Hlcs_s, Hf3.
      apply (on_disk_of_layout P2 Q2 _ base); [lia | exact Hok_s |].
      now apply Forall_insert. }
  assert (Hci3 : load_commands arch_s !! ci = Some cs).
  { rewrite Hlcs_s, list_lookup_insert_ne by congruence. exact Hcs. }
  (* the code-signature command is removed *)
  destruct (remove_load_command_table m3 a arch_s ci cs hsize Ha3 Hci3 Htab3
              Hh Hfo)
    as (m4 & arch' & E4 & Ha4 & Htab4 & Hstrip & Hn4 & Hs4 & _).
  { exact Hnmax. }
  { change (mh_sizeofcmds (arch_mach_header arch_s)) with (mh_sizeofcmds h).
    rewrite <- Hsum. unfold base in *. lia. }
  rewrite E4 in Hws. injection Hws as <-.
  exists arch', ci, cs.
  split.
  { rewrite Ha4. apply list_lookup_insert_eq.
    now apply lookup_lt_Some in Ha3. }
  split; [exact Htab4|]. split; [exact Hci|]. split; [exact Hcs|].
  split.
  { rewrite cmd_of_strip, Hstrip, <- fmap_delete_list, <- cmd_of_strip.
    rewrite Hlcs_s, fmap_delete_list, list_fmap_insert, Hcmd'.
    now rewrite list_insert_id
      by (rewrite list_lookup_fmap, Hll; reflexivity). }
  split; [exact Hn4 | exact Hs4].
Qed.

Lemma remove_codesignature_keeps_table_witness :
  exists m' arch',
    remove_codesignature payload_segname padded_signed 0 = Some (true, m')
    /\ archs m' !! 0%nat = Some arch'
    /\ lc_table_ok 32 (file m') arch' = true
    /\ mh_ncmds (arch_mach_header arch') = 2.
Proof.
  assert (E : exists m',
             remove_codesignature payload_segname padded_signed 0
             = Some (true, m')) by (eexists; vm_compute; reflexivity).
  destruct E as [m' E].
  destruct (remove_codesignature_keeps_table payload_segname padded_signed
              m' 0 padded_signed_arch 32)
    as (arch' & ci & cs & H1 & H2 & _ & _ & _ & H6 & _).
  - reflexivity.
  - exact E.
  - vm_compute. reflexivity.
  - vm_compute. discriminate.
  - vm_compute. discriminate.
  - vm_compute. discriminate.
  - vm_compute. discriminate.
  - intros li ll Hli Hll. vm_compute in Hli. inversion Hli; subst li.
    vm_compute in Hll. inversion Hll; subst ll. vm_compute. discriminate.
  - intros ci cs Hci Hcs. vm_compute in Hci. inversion Hci; subst ci.
    vm_compute in Hcs. inversion Hcs; subst cs. vm_compute. discriminate.
  - intros _. split; reflexivity.
  - intros H. discriminate H.
  - exists m', arch'. split; [exact E|]. split; [exact H1|].
    split; [exact H2 | exact H6].
Defined.

(** ** Thin to fat and back, on a large file *)


